(** * v2m: job lifecycle and processing pipeline

    A shallow embedding of the Go sources of the video-to-mp3 service:
    - [internal/jobs/status.go]: the status constants;
    - [internal/store/store.go]: the job record store (one SQL table);
    - [cmd/worker/main.go]: the pipeline executor and the resumable fetcher;
    - [cmd/api/main.go]: the HTTP handlers, the status stream, the rate
      limiter and the retention sweeper.

    Conventions.  A Go [string] is a Rocq [string] (a sequence of bytes),
    Go [int]/[int64] values are [Z], a [time.Time] is a [Z] counting
    nanoseconds since the Unix epoch and a [time.Duration] is a [Z] counting
    nanoseconds.  A [sql.NullString] is an [option string].  Whatever a
    function obtains from outside the process (the database driver, the HTTP
    transport, the file system, ffmpeg, the object store, the clock) is an
    explicit argument of its model. *)

From Stdlib Require Import ZArith Lia Ascii String List Sorting.Sorted.
From stdpp Require Import gmap strings list sorting pretty.

Local Open Scope string_scope.
Local Open Scope list_scope.
Local Open Scope Z_scope.

(** ** Go standard library functions used by the sources *)

Module strings.

(** [strings.TrimSpace] removes the leading and the trailing runes that
    [unicode.IsSpace] accepts.  These are, with their UTF-8 encodings,

    - U+0009 to U+000D and U+0020: one byte, the rune itself;
    - U+0085 and U+00A0: [C2 85] and [C2 A0];
    - U+1680: [E1 9A 80];
    - U+2000 to U+200A, U+2028, U+2029 and U+202F: [E2 80] followed by
      [80] to [8A], [A8], [A9] or [AF];
    - U+205F: [E2 81 9F];
    - U+3000: [E3 80 80].

    A byte that does not begin a well-formed encoding decodes to U+FFFD,
    which is not white space, and over-long encodings are not well formed;
    so a string begins (ends) with a white-space rune exactly when it
    begins (ends) with one of the byte sequences above. *)
Definition isSpace1 (b : nat) : bool :=
  ((9 <=? b) && (b <=? 13) || (b =? 32))%nat.

Definition isSpace2 (b1 b2 : nat) : bool :=
  ((b1 =? 194) && ((b2 =? 133) || (b2 =? 160)))%nat.

Definition isSpace3 (b1 b2 b3 : nat) : bool :=
  ((b1 =? 225) && (b2 =? 154) && (b3 =? 128)
   || (b1 =? 226) && (b2 =? 128)
      && ((128 <=? b3) && (b3 <=? 138) || (b3 =? 168) || (b3 =? 169)
          || (b3 =? 175))
   || (b1 =? 226) && (b2 =? 129) && (b3 =? 159)
   || (b1 =? 227) && (b2 =? 128) && (b3 =? 128))%nat.

(** [strings.TrimLeftFunc(s, unicode.IsSpace)] *)
Fixpoint TrimLeftSpace (s : string) : string :=
  match s with
  | EmptyString => EmptyString
  | String a s1 =>
      if isSpace1 (nat_of_ascii a) then TrimLeftSpace s1
      else
        match s1 with
        | EmptyString => s
        | String b s2 =>
            if isSpace2 (nat_of_ascii a) (nat_of_ascii b) then TrimLeftSpace s2
            else
              match s2 with
              | EmptyString => s
              | String c s3 =>
                  if isSpace3 (nat_of_ascii a) (nat_of_ascii b) (nat_of_ascii c)
                  then TrimLeftSpace s3
                  else s
              end
        end
  end.

(** [strings.TrimRightFunc(s, unicode.IsSpace)] on the reversed string: the
    last byte of an encoding comes first. *)
Fixpoint TrimLeftSpaceRev (r : string) : string :=
  match r with
  | EmptyString => EmptyString
  | String a r1 =>
      if isSpace1 (nat_of_ascii a) then TrimLeftSpaceRev r1
      else
        match r1 with
        | EmptyString => r
        | String b r2 =>
            if isSpace2 (nat_of_ascii b) (nat_of_ascii a) then TrimLeftSpaceRev r2
            else
              match r2 with
              | EmptyString => r
              | String c r3 =>
                  if isSpace3 (nat_of_ascii c) (nat_of_ascii b) (nat_of_ascii a)
                  then TrimLeftSpaceRev r3
                  else r
              end
        end
  end.

Definition TrimRightSpace (s : string) : string :=
  String.rev (TrimLeftSpaceRev (String.rev s)).

Definition TrimSpace (s : string) : string :=
  TrimRightSpace (TrimLeftSpace s).

Definition HasPrefix (s pre : string) : bool := String.prefix pre s.

Fixpoint Contains (s sub : string) : bool :=
  String.prefix sub s ||
  match s with
  | String _ s' => Contains s' sub
  | EmptyString => false
  end.

Definition TrimPrefix (s pre : string) : string :=
  if HasPrefix s pre
  then String.substring (String.length pre)
                        (String.length s - String.length pre)%nat s
  else s.

Definition HasSuffix (s suf : string) : bool :=
  String.prefix (String.rev suf) (String.rev s).

Definition TrimSuffix (s suf : string) : string :=
  if HasSuffix s suf
  then String.substring 0 (String.length s - String.length suf)%nat s
  else s.

(** [strings.ToLower] lowers the bytes A to Z of a string that is pure
    ASCII, and maps every rune of any other string through
    [unicode.ToLower]. *)
Definition lowerAscii (a : ascii) : ascii :=
  let n := nat_of_ascii a in
  if (65 <=? n)%nat && (n <=? 90)%nat then ascii_of_nat (n + 32) else a.

Fixpoint isASCII (s : string) : bool :=
  match s with
  | String a s' => (nat_of_ascii a <? 128)%nat && isASCII s'
  | EmptyString => true
  end.

Fixpoint ToLowerASCII (s : string) : string :=
  match s with
  | String a s' => String (lowerAscii a) (ToLowerASCII s')
  | EmptyString => EmptyString
  end.

Section WithUnicode.
(** [strings.Map(unicode.ToLower, s)] *)
Variable MapToLower : string -> string.

Definition ToLower (s : string) : string :=
  if isASCII s then ToLowerASCII s else MapToLower s.
End WithUnicode.

(** [strings.SplitN(s, "/", 2)]: the text before the first slash and the
    text after it, or [s] alone when it has no slash. *)
Fixpoint SplitSlash2 (s : string) : string * option string :=
  match s with
  | EmptyString => (EmptyString, None)
  | String a s' =>
      if Ascii.eqb a "/"%char then (EmptyString, Some s')
      else let '(h, t) := SplitSlash2 s' in (String a h, t)
  end.

End strings.

(** [len(s)] *)
Definition len (s : string) : Z := Z.of_nat (String.length s).

(** [fmt.Sprintf("%d", n)] *)
Definition fmt_d (n : Z) : string := pretty n.

(** *** Occurrences of a text

    [compatible t sub]: [sub] agrees with [t] as far as [t] goes, so that
    [sub] may be a prefix of [t] followed by something.  [overlaps pre sub]:
    an occurrence of [sub] may begin inside [pre].  [without c s]: the byte
    [c] does not occur in [s]. *)
Fixpoint compatible (t sub : string) : bool :=
  match sub, t with
  | EmptyString, _ => true
  | _, EmptyString => true
  | String c sub', String a t' => Ascii.eqb c a && compatible t' sub'
  end.

Fixpoint overlaps (pre sub : string) : bool :=
  match pre with
  | EmptyString => false
  | String _ pre' => compatible pre sub || overlaps pre' sub
  end.

Fixpoint without (c : ascii) (s : string) : bool :=
  match s with
  | EmptyString => true
  | String a s' => negb (Ascii.eqb c a) && without c s'
  end.

(** ** Go errors

    Only three things are ever asked of an error in these sources: its
    message ([Error()]), whether it is a [downloadError] and what its
    [retryable] flag says ([errors.As]), and whether it wraps
    [asynq.SkipRetry].  Errors of the standard library and of the drivers are
    represented by their message. *)

Inductive error : Type :=
| errorString (msg : string)
| downloadError (err : error) (retryable : bool)
| wrapSkipRetry (msg : string).

Definition SkipRetry_msg : string := "skip retry for the task".

Fixpoint Error_msg (e : error) : string :=
  match e with
  | errorString m => m
  | downloadError e' _ => Error_msg e'
  | wrapSkipRetry m => SkipRetry_msg +:+ ": " +:+ m
  end.

(** [errors.Is(err, asynq.SkipRetry)]: what the task dispatcher tests to
    decide that a failed task is archived instead of requeued. *)
Fixpoint is_SkipRetry (e : error) : bool :=
  match e with
  | errorString _ => false
  | downloadError e' _ => is_SkipRetry e'
  | wrapSkipRetry _ => true
  end.

(** ** internal/jobs/status.go *)

Module jobs.
Definition StatusQueued : string := "queued".
Definition StatusDownloading : string := "downloading".
Definition StatusTranscoding : string := "transcoding".
Definition StatusReady : string := "ready".
Definition StatusFailed : string := "failed".
Definition StatusExpired : string := "expired".
End jobs.

(** ** internal/store/store.go *)

Module store.

Record Job : Type := mkJob {
  ID : string;
  SourceURL : string;
  Platform : string;
  Status : string;
  Error : option string;
  MP3URL : option string;
  CreatedAt : Z;
  UpdatedAt : Z
}.

(** The [jobs] table: its rows.  [id] is the primary key, which [CreateJob]
    enforces. *)
Definition Store : Type := list Job.

Definition has_id (id : string) (j : Job) : bool := String.eqb (ID j) id.

(** Every method runs one SQL statement.  [fault] is the error of the
    driver when the statement could not be executed (connection lost,
    context cancelled, malformed parameter); [now] is the database's
    [NOW()]. *)

Definition CreateJob (now : Z) (fault : option error) (s : Store) (j : Job)
  : Store * option error :=
  match fault with
  | Some e => (s, Some e)
  | None =>
      if existsb (has_id (ID j)) s
      then (s, Some (errorString "duplicate key value violates unique constraint"))
      else ((s ++ [mkJob (ID j) (SourceURL j) (Platform j) (Status j)
                         (Error j) (MP3URL j) now now])%list, None)
  end.

(** [sql.ErrNoRows] is the error of a point lookup that matches no row. *)
Inductive lookup_result : Type :=
| Found (j : Job)
| ErrNoRows
| LookupErr (e : error).

Definition GetJob (fault : option error) (s : Store) (id : string)
  : lookup_result :=
  match fault with
  | Some e => LookupErr e
  | None =>
      match List.find (has_id id) s with
      | Some j => Found j
      | None => ErrNoRows
      end
  end.

(** [ORDER BY created_at DESC] and [ORDER BY created_at ASC]: SQL leaves
    the order of rows with equal [created_at] open; the model sorts with a
    merge sort. *)
Definition newer_first (a b : Job) : Prop := CreatedAt b <= CreatedAt a.
Definition older_first (a b : Job) : Prop := CreatedAt a <= CreatedAt b.

#[global] Instance newer_first_dec a b : Decision (newer_first a b).
Proof. unfold newer_first. apply _. Defined.
#[global] Instance older_first_dec a b : Decision (older_first a b).
Proof. unfold older_first. apply _. Defined.

Definition ListJobs (fault : option error) (s : Store) (limit : Z)
  : list Job * option error :=
  let limit := if limit <=? 0 then 20 else limit in
  match fault with
  | Some e => ([], Some e)
  | None => (take (Z.to_nat limit) (merge_sort newer_first s), None)
  end.

Definition created_before (before : Z) (j : Job) : bool :=
  CreatedAt j <? before.

Definition ListJobsBefore (fault : option error) (s : Store)
           (before : Z) (limit : Z) : list Job * option error :=
  let limit := if limit <=? 0 then 200 else limit in
  match fault with
  | Some e => ([], Some e)
  | None =>
      (take (Z.to_nat limit)
            (merge_sort older_first (List.filter (created_before before) s)),
       None)
  end.

Definition DeleteJobsBefore (fault : option error) (s : Store) (before : Z)
  : Store * (Z * option error) :=
  match fault with
  | Some e => (s, (0, Some e))
  | None =>
      (List.filter (fun j => negb (created_before before j)) s,
       (Z.of_nat (List.length (List.filter (created_before before) s)), None))
  end.

Definition set_status (now : Z) (status : string)
           (errMsg mp3URL : option string) (j : Job) : Job :=
  mkJob (ID j) (SourceURL j) (Platform j) status errMsg mp3URL
        (CreatedAt j) now.

(** [UPDATE jobs SET status, error, mp3_url, updated_at WHERE id = $1]:
    the result of [ExecContext] is dropped, so the number of rows the
    statement touched is never looked at. *)
Definition UpdateJobStatus (now : Z) (fault : option error) (s : Store)
           (id status : string) (errMsg mp3URL : option string)
  : Store * option error :=
  match fault with
  | Some e => (s, Some e)
  | None =>
      (List.map (fun j => if has_id id j
                          then set_status now status errMsg mp3URL j
                          else j) s,
       None)
  end.

End store.

(** ** internal/config/config.go: the fields the modelled code reads *)

Module config.
Record Config : Type := mkConfig {
  TempDir : string;
  ParserAPIURL : string;
  JobTimeout : Z;
  S3Bucket : string;
  MP3URLTTL : Z;
  JobRetentionDays : Z;
  RateLimitPerMinute : Z
}.
End config.

(** ** internal/queue/tasks.go *)

Module queue.
Record ProcessPayload : Type := mkPayload {
  JobID : string;
  SourceURL : string
}.
End queue.

(** [time.Second], [time.Minute] *)
Definition Second : Z := 1000000000.
Definition Minute : Z := 60 * Second.

(** The local file system as far as the worker uses it: regular files by
    path. *)
Abbreviation FS := (gmap string string).

(** ** path/filepath, with [/] as the separator *)

Module filepath.

(** The elements of a path: the texts between its slashes. *)
Fixpoint elements (path : string) : list string :=
  match path with
  | EmptyString => [EmptyString]
  | String a path' =>
      if Ascii.eqb a "/"%char then EmptyString :: elements path'
      else
        match elements path' with
        | e :: es => String a e :: es
        | [] => [String a EmptyString]
        end
  end.

(** One element met by [Clean]; [out] holds the elements kept so far, the
    last one first.  An empty element and [.] are dropped; [..] takes back
    the element before it, unless there is none or it is itself a [..] that
    was kept, in which case it is dropped in a rooted path and kept in
    another. *)
Definition cleanElement (rooted : bool) (out : list string) (e : string)
  : list string :=
  if String.eqb e "" || String.eqb e "." then out
  else if String.eqb e ".." then
    match out with
    | top :: rest =>
        if String.eqb top ".." then (if rooted then out else e :: out)
        else rest
    | [] => if rooted then out else [e]
    end
  else e :: out.

Fixpoint joinElements (es : list string) : string :=
  match es with
  | [] => EmptyString
  | [e] => e
  | e :: es' => e +:+ "/" +:+ joinElements es'
  end.

Definition Clean (path : string) : string :=
  if String.eqb path "" then "."
  else
    let rooted := String.prefix "/" path in
    let out := List.rev (fold_left (cleanElement rooted) (elements path) []) in
    if rooted then "/" +:+ joinElements out
    else if String.eqb (joinElements out) "" then "." else joinElements out.

(** [filepath.Join] of two elements: the elements from the first one that
    is not empty are joined by slashes, and the result is cleaned. *)
Definition Join (dir name : string) : string :=
  if negb (String.eqb dir "") then Clean (dir +:+ "/" +:+ name)
  else if negb (String.eqb name "") then Clean name
  else "".

End filepath.

(** ** cmd/worker/main.go *)

Module worker.
Import store.

Definition truncate (s : string) (max : Z) : string :=
  if (max <=? 0) || (len s <=? max) then s
  else String.substring 0 (Z.to_nat max) s +:+ "...".

(** *** The resumable fetcher *)

Record Request : Type := mkRequest {
  req_url : string;
  req_user_agent : string;
  req_referer : option string;
  req_range : option Z;        (* [Range: bytes=<offset>-] *)
  req_timeout : Z              (* the [Timeout] of the client that sends it *)
}.

(** A response: its status code, the bytes of the body that [io.Copy]
    moved into the file, and the error that stopped the copy, if any. *)
Record Response : Type := mkResponse {
  StatusCode : Z;
  Body : string;
  BodyErr : option error
}.

(** What one attempt meets outside the process. *)
Record attempt_world : Type := mkAttemptWorld {
  aw_newreq : option error;             (* [http.NewRequestWithContext] *)
  aw_do : Request -> error + Response;  (* [client.Do] *)
  aw_open : option error                (* [os.OpenFile] / [os.Create] *)
}.

Definition boundedTimeout (t : Z) : Z :=
  if t <=? 0 then 10 * Minute else t.

Definition userAgent : string :=
  "Mozilla/5.0 (Macintosh; Intel Mac OS X 10_15_7) AppleWebKit/537.36 (KHTML, like Gecko) Chrome/124.0.0.0 Safari/537.36".

Definition StatusOK : Z := 200.
Definition StatusPartialContent : Z := 206.
Definition StatusRequestedRangeNotSatisfiable : Z := 416.
Definition StatusTooManyRequests : Z := 429.

Definition http_status_error (code : Z) : error :=
  errorString ("download http status " +:+ fmt_d code).

(** [os.Stat(destPath)] followed by [fi.Size()] *)
Definition stat_offset (fs : FS) (destPath : string) : Z :=
  match fs !! destPath with
  | Some content => if len content <? 0 then 0 else len content
  | None => 0
  end.

Definition build_request (fs : FS) (sourceURL destPath referer : string)
           (timeout : Z) : Request :=
  let offset := stat_offset fs destPath in
  mkRequest sourceURL userAgent
            (if String.eqb (strings.TrimSpace referer) "" then None
             else Some referer)
            (if offset >? 0 then Some offset else None)
            (boundedTimeout timeout).

(** The result is the file system after the attempt, the requests that
    went out, and the error ([None] is Go's [nil]). *)
Definition downloadOnce (w : attempt_world) (fs : FS)
           (sourceURL destPath referer : string) (timeout : Z)
  : FS * list Request * option error :=
  let offset := stat_offset fs destPath in
  match aw_newreq w with
  | Some e => (fs, [], Some (downloadError e true))
  | None =>
      let req := build_request fs sourceURL destPath referer timeout in
      match aw_do w req with
      | inl e => (fs, [req], Some (downloadError e true))
      | inr resp =>
          let code := StatusCode resp in
          if (code =? StatusOK) || (code =? StatusPartialContent) then
            match aw_open w with
            | Some e => (fs, [req], Some (downloadError e true))
            | None =>
                let old :=
                  if (code =? StatusPartialContent) && (offset >? 0)
                  then default "" (fs !! destPath)   (* O_APPEND *)
                  else "" in                         (* os.Create truncates *)
                let fs' := <[destPath := old +:+ Body resp]> fs in
                match BodyErr resp with
                | Some e => (fs', [req], Some (downloadError e true))
                | None => (fs', [req], None)
                end
            end
          else if code =? StatusRequestedRangeNotSatisfiable then
            (delete destPath fs, [req],
             Some (downloadError (http_status_error code) true))
          else
            let retryable :=
              (code >=? 500) || (code =? StatusTooManyRequests) in
            (fs, [req], Some (downloadError (http_status_error code) retryable))
      end
  end.

Definition isRetryableDownload (err : option error) : bool :=
  match err with
  | None => false
  | Some (downloadError _ retryable) => retryable
  | Some _ => true
  end.

(** What the retry loop meets: the world of each attempt (numbered from 1),
    whether the caller's context is done before the back-off timer of an
    attempt fires, and the error of the context in that case. *)
Record fetch_world : Type := mkFetchWorld {
  fw_attempt : Z -> attempt_world;
  fw_cancelled : Z -> bool;
  fw_ctx_err : error
}.

Inductive fetch_event : Type :=
| Sent (attempt : Z) (r : Request)
| Slept (backoff : Z)
| Cancelled (backoff : Z).

Definition maxAttempts : Z := 3.

(** The [for attempt := 1; attempt <= maxAttempts; attempt++] loop;
    [n] counts the iterations that remain. *)
Fixpoint downloadLoop (w : fetch_world) (n : nat) (attempt : Z)
         (lastErr : option error) (fs : FS)
         (sourceURL destPath referer : string) (timeout : Z)
  : FS * list fetch_event * option error :=
  match n with
  | O => (fs, [], lastErr)
  | S n' =>
      let '(fs1, reqs, err) :=
        downloadOnce (fw_attempt w attempt) fs sourceURL destPath referer timeout in
      let sent := List.map (Sent attempt) reqs in
      match err with
      | None => (fs1, sent, None)
      | Some e =>
          if negb (isRetryableDownload err) || (attempt =? maxAttempts)
          then (fs1, sent, Some e)
          else
            let backoff := attempt * Second in
            if fw_cancelled w attempt
            then (fs1, sent ++ [Cancelled backoff], Some (fw_ctx_err w))
            else
              let '(fs2, evs, r) :=
                downloadLoop w n' (attempt + 1) err fs1
                             sourceURL destPath referer timeout in
              (fs2, sent ++ Slept backoff :: evs, r)
      end
  end.

Definition downloadToFile (w : fetch_world) (fs : FS)
           (sourceURL destPath referer : string) (timeout : Z)
  : FS * list fetch_event * option error :=
  if String.eqb (strings.TrimSpace sourceURL) ""
  then (fs, [], Some (errorString "download url is empty"))
  else downloadLoop w (Z.to_nat maxAttempts) 1 None fs
                    sourceURL destPath referer timeout.

(** *** The video-resolution collaborator *)

Record parserResponse : Type := mkParserResponse {
  Retcode : Z;
  Retdesc : string;
  Data_VideoID : string;
  Data_Platform : string;
  Data_Title : string;
  Data_VideoURL : string;
  Data_CoverURL : string;
  Data_AudioURL : string;
  Succ : bool
}.

Record parserResult : Type := mkParserResult {
  VideoURL : string;
  AudioURL : string;
  Platform : string
}.

(** What a resolution call meets: the errors of the steps that build the
    request, then either a transport error or a status code with the
    outcome of decoding the body. *)
Record parser_world : Type := mkParserWorld {
  pw_joinpath : option error;       (* [url.JoinPath] *)
  pw_random : option error;         (* [randomLetters] *)
  pw_marshal : option error;        (* [json.Marshal] *)
  pw_newreq : option error;         (* [http.NewRequestWithContext] *)
  pw_do : error + (Z * (error + parserResponse))   (* [client.Do], [Decode] *)
}.

Definition parseWithParser (w : parser_world) (cfg : config.Config)
           (sourceURL : string) : error + parserResult :=
  let baseURL := strings.TrimSpace (config.ParserAPIURL cfg) in
  if String.eqb baseURL "" then inl (errorString "PARSER_API_URL is required")
  else
    match pw_joinpath w with Some e => inl e | None =>
    match pw_random w with Some e => inl e | None =>
    match pw_marshal w with Some e => inl e | None =>
    match pw_newreq w with Some e => inl e | None =>
    match pw_do w with
    | inl e => inl e
    | inr (code, body) =>
        if negb (code =? StatusOK)
        then inl (errorString ("parser http status " +:+ fmt_d code))
        else
          match body with
          | inl e => inl e
          | inr parsed =>
              if negb (Succ parsed) || negb (Retcode parsed =? 200)
              then inl (errorString ("parser error: " +:+ fmt_d (Retcode parsed)
                                       +:+ " " +:+ Retdesc parsed))
              else if String.eqb (strings.TrimSpace (Data_VideoURL parsed)) ""
                      && String.eqb (strings.TrimSpace (Data_AudioURL parsed)) ""
              then inl (errorString "parser returned no media url")
              else inr (mkParserResult (Data_VideoURL parsed)
                                       (Data_AudioURL parsed)
                                       (Data_Platform parsed))
          end
    end end end end end.

Definition downloadWithParser (pw : parser_world) (fw : fetch_world)
           (fs : FS) (cfg : config.Config) (workDir sourceURL jobID : string)
  : FS * (error + string) :=
  match parseWithParser pw cfg sourceURL with
  | inl e => (fs, inl e)
  | inr parsed =>
      let '(downloadURL, fileExt) :=
        if negb (String.eqb (strings.TrimSpace (AudioURL parsed)) "")
        then (AudioURL parsed, ".m4a")
        else (VideoURL parsed, ".mp4") in
      if String.eqb (strings.TrimSpace downloadURL) ""
      then (fs, inl (errorString "parser returned empty media url"))
      else
        let outPath := filepath.Join workDir (jobID +:+ fileExt) in
        let '(fs', _, err) :=
          downloadToFile fw fs downloadURL outPath sourceURL
                         (config.JobTimeout cfg) in
        match err with
        | Some e => (fs', inl e)
        | None => (fs', inr outPath)
        end
  end.

(** *** The transcoder *)

(** [cmd.Run()] of ffmpeg: its error and what it wrote to stdout and
    stderr. *)
Definition runCommand (run : option error * string) : string * option error :=
  (truncate (strings.TrimSpace (snd run)) 800, fst run).

Definition transcodeWithFFmpeg (run : option error * string) : option error :=
  let '(output, err) := runCommand run in
  match err with
  | Some e =>
      if String.eqb output ""
      then Some (errorString ("ffmpeg failed: " +:+ Error_msg e))
      else Some (errorString ("ffmpeg failed: " +:+ Error_msg e +:+ ": " +:+ output))
  | None => None
  end.

(** *** Failure recording *)

Definition shouldSkipRetry (err : option error) : bool :=
  match err with
  | None => false
  | Some e =>
      let msg := Error_msg e in
      if strings.Contains msg "parser returned no media url" then true
      else if strings.Contains msg "parser returned empty media url" then true
      else false
  end.

(** The error of the status update is dropped ([_ = st.UpdateJobStatus]). *)
Definition recordFailure (now : Z) (fault : option error) (st : Store)
           (jobID : string) (err : option error) : Store * option error :=
  match err with
  | None => (st, None)
  | Some e =>
      let msg := truncate (Error_msg e) 800 in
      let st' := fst (UpdateJobStatus now fault st jobID jobs.StatusFailed
                                      (Some msg) None) in
      if shouldSkipRetry err then (st', Some (wrapSkipRetry msg))
      else (st', Some e)
  end.

(** *** The pipeline *)

(** The four places where [processJob] writes to the store. *)
Inductive stage : Type :=
| AtDownloading | AtTranscoding | AtReady | AtFailed.

Record job_world : Type := mkJobWorld {
  jw_tempdir : string;                  (* [os.TempDir()] *)
  jw_mkdir : option error;              (* [os.MkdirAll] *)
  jw_scratch : FS;                      (* the files the task starts with *)
  jw_now : stage -> Z;                  (* [NOW()] of each store update *)
  jw_dbfault : stage -> option error;   (* the driver's error, if any *)
  jw_parser : parser_world;
  jw_fetch : fetch_world;
  jw_ffmpeg : option error * string;
  jw_upload : option error              (* [FPutObject] *)
}.

(** [s3.UploadMP3] of internal/storage/s3.go *)
Definition UploadMP3 (put : option error) (objectKey : string)
  : error + string :=
  match put with
  | Some e => inl e
  | None => inr objectKey
  end.

Definition processJob (w : job_world) (cfg : config.Config) (st : Store)
           (p : queue.ProcessPayload) : Store * option error :=
  let jobID := queue.JobID p in
  let workRoot := strings.TrimSpace (config.TempDir cfg) in
  let workRoot := if String.eqb workRoot "" then jw_tempdir w else workRoot in
  let workDir := filepath.Join workRoot jobID in
  let fail st err := recordFailure (jw_now w AtFailed) (jw_dbfault w AtFailed)
                                   st jobID (Some err) in
  match jw_mkdir w with
  | Some e => fail st e
  | None =>
  match UpdateJobStatus (jw_now w AtDownloading) (jw_dbfault w AtDownloading)
                        st jobID jobs.StatusDownloading None None with
  | (_, Some e) => (st, Some e)
  | (st1, None) =>
  match downloadWithParser (jw_parser w) (jw_fetch w) (jw_scratch w) cfg
                           workDir (queue.SourceURL p) jobID with
  | (_, inl e) => fail st1 e
  | (_, inr videoPath) =>
  match UpdateJobStatus (jw_now w AtTranscoding) (jw_dbfault w AtTranscoding)
                        st1 jobID jobs.StatusTranscoding None None with
  | (_, Some e) => (st1, Some e)
  | (st2, None) =>
  match transcodeWithFFmpeg (jw_ffmpeg w) with
  | Some e => fail st2 e
  | None =>
  let objectKey := "jobs/" +:+ jobID +:+ ".mp3" in
  match UploadMP3 (jw_upload w) objectKey with
  | inl e => fail st2 e
  | inr mp3Key =>
  match UpdateJobStatus (jw_now w AtReady) (jw_dbfault w AtReady)
                        st2 jobID jobs.StatusReady None (Some mp3Key) with
  | (_, Some e) => (st2, Some e)
  | (st3, None) => (st3, None)
  end end end end end end end.

(** *** The signature of the resolver request

    [timestampToKey] and [vigenereEncrypt] walk their text rune by rune
    ([for _, r := range s]) and write runes; the model takes a text as the
    list of its code points. *)

Definition digitsToLetters : string := "abcdefghijklmnopqrstuvwxyz".

(** [s[i]] for a string constant and an index inside it; [None] stands for
    the run-time panic of an index out of range. *)
Definition byte_at (s : string) (i : Z) : option Z :=
  if i <? 0 then None
  else option_map (fun a => Z.of_nat (nat_of_ascii a)) (String.get (Z.to_nat i) s).

Definition timestampToKey (ts : list Z) : list Z :=
  List.map (fun r => if (r <? 48) || (r >? 57) then 63
                     else default 63 (byte_at digitsToLetters (r - 48)))
           ts.

Section Unicode.
(** [unicode.IsLetter], [unicode.IsUpper], and [unicode.ToLower], which
    [strings.ToLower] applies to every rune. *)
Variable IsLetter IsUpper : Z -> bool.
Variable ToLowerRune : Z -> Z.

(** The [for _, r := range text] loop of [vigenereEncrypt]. *)
Fixpoint vigenereLoop (keyRunes : list Z) (keyIndex : nat) (text : list Z)
  : list Z :=
  match text with
  | [] => []
  | r :: text' =>
      if negb (IsLetter r) then r :: vigenereLoop keyRunes keyIndex text'
      else
        let shiftBase := if IsUpper r then 65 else 97 in
        let keyChar := nth (keyIndex mod List.length keyRunes) keyRunes 0 in
        let keyShift := keyChar - 97 in
        let enc := Z.rem (r - shiftBase + keyShift) 26 + shiftBase in
        enc :: vigenereLoop keyRunes (S keyIndex) text'
  end.

Definition vigenereEncrypt (text key : list Z) : list Z :=
  match key with
  | [] => text
  | _ => vigenereLoop (List.map ToLowerRune key) 0 text
  end.
End Unicode.

Definition letters : string :=
  "abcdefghijklmnopqrstuvwxyzABCDEFGHIJKLMNOPQRSTUVWXYZ".

(** The loop of [randomLetters]: [draw i] is the [i]-th answer of
    [crand.Int(crand.Reader, 52)], [k] counts the iterations that remain and
    [acc] is what the builder holds.  [None] is the panic of indexing
    [letters] out of range. *)
Fixpoint randomLoop (draw : nat -> error + Z) (i k : nat) (acc : string)
  : option (error + string) :=
  match k with
  | O => Some (inr acc)
  | S k' =>
      match draw i with
      | inl e => Some (inl e)
      | inr r =>
          if r <? 0 then None
          else match String.get (Z.to_nat r) letters with
               | None => None
               | Some a => randomLoop draw (S i) k' (acc +:+ String a EmptyString)
               end
      end
  end.

Definition randomLetters (draw : nat -> error + Z) (n : Z)
  : option (error + string) :=
  if n <=? 0 then Some (inr "")
  else randomLoop draw 0 (Z.to_nat n) "".

End worker.

(** ** internal/platform: the classifier of source links *)

(** The fields of a parsed [url.URL] that the sources read. *)
Record URL : Type := mkURL {
  Scheme : string;
  Host : string;
  Path : string
}.

Module platform.
Section WithParser.
(** [url.Parse]; [None] is a parse error. *)
Variable url_Parse : string -> option URL.
(** [strings.Map(unicode.ToLower, s)], for a host that is not pure ASCII. *)
Variable MapToLower : string -> string.

Definition Detect (raw : string) : option string :=
  match url_Parse raw with
  | None => None
  | Some u =>
      let host := strings.ToLower MapToLower (Host u) in
      let has := strings.Contains host in
      if has "douyin" || has "iesdouyin" then Some "douyin"
      else if has "kuaishou" || has "kwai" then Some "kuaishou"
      else if has "bilibili" || has "b23.tv" then Some "bilibili"
      else if has "xiaohongshu" || has "xhslink" then Some "xiaohongshu"
      else if has "haokan.baidu.com" || has "haokan.hao123.com" then Some "haokan"
      else if has "weishi.qq.com" || has "isee.weishi" then Some "weishi"
      else if has "pearvideo" then Some "pearvideo"
      else if has "pipigx" then Some "pipigaoxiao"
      else None
  end.
End WithParser.
End platform.

(** ** cmd/api/main.go *)

Module api.
Import store.

(** What a handler writes back. *)
Inductive reply_body : Type :=
| NoBody
| errorResponse (msg : string)
| createJobResponse (job_id status : string).

Record reply : Type := mkReply {
  reply_code : Z;
  reply_body_of : reply_body
}.

Definition StatusAccepted : Z := 202.
Definition StatusBadRequest : Z := 400.
Definition StatusNotFound : Z := 404.
Definition StatusMethodNotAllowed : Z := 405.
Definition StatusConflict : Z := 409.
Definition StatusTooManyRequests : Z := 429.
Definition StatusInternalServerError : Z := 500.

(** The task dispatcher as the handlers see it: the tasks enqueued so far
    (each with [MaxRetry(3)] and the job timeout). *)
Abbreviation TaskQueue := (list queue.ProcessPayload).

(** *** POST /jobs/{id}/retry *)

Record retry_world : Type := mkRetryWorld {
  rw_get_fault : option error;      (* driver error of [GetJob] *)
  rw_upd_fault : option error;      (* driver error of [UpdateJobStatus] *)
  rw_now : Z;                       (* [NOW()] of the update *)
  rw_task_err : option error;       (* [queue.NewProcessTask] *)
  rw_enqueue_err : option error     (* [client.Enqueue] *)
}.

(** The id that the retry branch cuts out of the path. *)
Definition retry_id (path : string) : string :=
  strings.TrimSuffix (strings.TrimSuffix path "/retry") "/".

(** The branch [if strings.HasSuffix(path, "/retry")] of the handler of
    ["/jobs/"]; [path] is the request path without the ["/jobs/"] prefix. *)
Definition retryHandler (w : retry_world) (st : Store) (q : TaskQueue)
           (method path : string) : Store * TaskQueue * reply :=
  if negb (String.eqb method "POST")
  then (st, q, mkReply StatusMethodNotAllowed NoBody)
  else
    let id := retry_id path in
    if String.eqb id "" || strings.Contains id "/"
    then (st, q, mkReply StatusNotFound (errorResponse "not found"))
    else
      match GetJob (rw_get_fault w) st id with
      | ErrNoRows => (st, q, mkReply StatusNotFound (errorResponse "not found"))
      | LookupErr _ =>
          (st, q, mkReply StatusInternalServerError (errorResponse "failed to load job"))
      | Found j =>
          if negb (String.eqb (Status j) jobs.StatusFailed)
             && negb (String.eqb (Status j) jobs.StatusExpired)
          then (st, q, mkReply StatusConflict (errorResponse "job not retryable"))
          else
            match UpdateJobStatus (rw_now w) (rw_upd_fault w) st (ID j)
                                  jobs.StatusQueued None None with
            | (_, Some _) =>
                (st, q, mkReply StatusInternalServerError
                                (errorResponse "failed to update job"))
            | (st', None) =>
                match rw_task_err w with
                | Some _ =>
                    (st', q, mkReply StatusInternalServerError
                                     (errorResponse "failed to enqueue"))
                | None =>
                    match rw_enqueue_err w with
                    | Some _ =>
                        (st', q, mkReply StatusInternalServerError
                                         (errorResponse "failed to enqueue"))
                    | None =>
                        (st', q ++ [queue.mkPayload (ID j) (SourceURL j)],
                         mkReply StatusAccepted
                                 (createJobResponse (ID j) jobs.StatusQueued))
                    end
                end
            end
      end.

(** *** POST /jobs *)

Record create_world : Type := mkCreateWorld {
  cw_body : error + string;         (* [json.Decode]: the [url] field *)
  cw_uuid : string;                 (* [uuid.NewString()] *)
  cw_now : Z;
  cw_create_fault : option error;
  cw_task_err : option error;
  cw_enqueue_err : option error
}.

Section WithLibraries.
Variable url_Parse : string -> option URL.
(** [extractURL]: the first match of the regular expression
    [https?://\S+], with trailing punctuation cut off. *)
Variable extractURL : string -> option string.
Variable MapToLower : string -> string.

Definition createHandler (w : create_world) (st : Store) (q : TaskQueue)
  : Store * TaskQueue * reply :=
  match cw_body w with
  | inl _ => (st, q, mkReply StatusBadRequest (errorResponse "invalid json"))
  | inr url =>
      if String.eqb (strings.TrimSpace url) ""
      then (st, q, mkReply StatusBadRequest (errorResponse "url is required"))
      else
        match extractURL url with
        | None => (st, q, mkReply StatusBadRequest (errorResponse "no valid url found"))
        | Some normalizedURL =>
            match platform.Detect url_Parse MapToLower normalizedURL with
            | None =>
                (st, q, mkReply StatusBadRequest (errorResponse "unsupported platform"))
            | Some plat =>
                let jobID := cw_uuid w in
                let job := mkJob jobID normalizedURL plat jobs.StatusQueued
                                 None None 0 0 in
                match CreateJob (cw_now w) (cw_create_fault w) st job with
                | (_, Some _) =>
                    (st, q, mkReply StatusInternalServerError
                                    (errorResponse "failed to create job"))
                | (st', None) =>
                    match cw_task_err w with
                    | Some _ =>
                        (st', q, mkReply StatusInternalServerError
                                         (errorResponse "failed to enqueue"))
                    | None =>
                        match cw_enqueue_err w with
                        | Some _ =>
                            (st', q, mkReply StatusInternalServerError
                                             (errorResponse "failed to enqueue"))
                        | None =>
                            (st', q ++ [queue.mkPayload jobID normalizedURL],
                             mkReply StatusAccepted
                                     (createJobResponse jobID jobs.StatusQueued))
                        end
                    end
                end
            end
        end
  end.
End WithLibraries.

(** *** Job snapshots and read-time signing *)

Record jobResponse : Type := mkJobResponse {
  resp_JobID : string;
  resp_SourceURL : string;
  resp_Platform : string;
  resp_Status : string;
  resp_Error : option string;
  resp_MP3URL : option string;
  resp_CreatedAt : string;
  resp_UpdatedAt : string
}.

Section WithCollaborators.
Variable url_Parse : string -> option URL.
(** [t.In(time.Local).Format(time.RFC3339)] *)
Variable format_RFC3339 : Z -> string.
(** [client.PresignedGetObject] for the configured bucket, by object key
    and expiry. *)
Variable PresignedGetObject : string -> Z -> error + string.
(** [strconv.Atoi]; [None] is a syntax or range error. *)
Variable Atoi : string -> option Z.

Definition isHTTPURL (raw : string) : bool :=
  match url_Parse raw with
  | None => false
  | Some u => String.eqb (Scheme u) "http" || String.eqb (Scheme u) "https"
  end.

Definition objectKeyFromURL (raw bucket : string) : option string :=
  if String.eqb (strings.TrimSpace bucket) "" then None
  else
    match url_Parse raw with
    | None => None
    | Some u =>
        let path := strings.TrimPrefix (Path u) "/" in
        if strings.HasPrefix (Host u) (bucket +:+ ".")
        then (if String.eqb path "" then None else Some path)
        else
          match strings.SplitSlash2 path with
          | (first, Some rest) =>
              if String.eqb first bucket then Some rest else None
          | (_, None) => None
          end
    end.

(** [s3.PresignMP3] of internal/storage/s3.go *)
Definition PresignMP3 (objectKey : string) (expiry : Z) : error + string :=
  if String.eqb (strings.TrimSpace objectKey) ""
  then inl (errorString "object key is empty")
  else
    let expiry := if expiry <=? 0 then 15 * Minute else expiry in
    PresignedGetObject objectKey expiry.

Definition mp3URLForJob (cfg : config.Config) (j : Job)
  : error + option string :=
  match MP3URL j with
  | None => inr None
  | Some stored =>
      if String.eqb (strings.TrimSpace stored) "" then inr None
      else
        let raw := strings.TrimSpace stored in
        let sign key :=
          match PresignMP3 key (config.MP3URLTTL cfg) with
          | inl e => inl e
          | inr signed => inr (Some signed)
          end in
        if isHTTPURL raw then
          match objectKeyFromURL raw (config.S3Bucket cfg) with
          | Some parsedKey => sign parsedKey
          | None => inr (Some raw)
          end
        else sign raw
  end.

Definition buildJobResponse (cfg : config.Config) (j : Job)
  : error + jobResponse :=
  match mp3URLForJob cfg j with
  | inl e => inl e
  | inr mp3URL =>
      inr (mkJobResponse (ID j) (SourceURL j) (Platform j) (Status j)
                         (Error j) mp3URL
                         (format_RFC3339 (CreatedAt j))
                         (format_RFC3339 (UpdatedAt j)))
  end.

Definition objectKeyFromJob (cfg : config.Config) (j : Job) : string :=
  match MP3URL j with
  | None => ""
  | Some stored =>
      if String.eqb (strings.TrimSpace stored) "" then ""
      else
        let raw := strings.TrimSpace stored in
        if isHTTPURL raw then
          match objectKeyFromURL raw (config.S3Bucket cfg) with
          | Some parsedKey => parsedKey
          | None => ""
          end
        else raw
  end.

(** *** GET /jobs *)

(** The clamp of the [limit] query parameter; [raw] is
    [r.URL.Query().Get("limit")]. *)
Definition listLimit (raw : string) : Z :=
  let limit := 20 in
  let limit :=
    if negb (String.eqb raw "")
    then match Atoi raw with Some v => v | None => limit end
    else limit in
  let limit := if limit <=? 0 then 20 else limit in
  if limit >? 100 then 100 else limit.

(** [for _, j := range items]: the first signing error ends the loop. *)
Fixpoint buildAll (cfg : config.Config) (items : list Job)
  : error + list jobResponse :=
  match items with
  | [] => inr []
  | j :: rest =>
      match buildJobResponse cfg j with
      | inl e => inl e
      | inr item =>
          match buildAll cfg rest with
          | inl e => inl e
          | inr tl => inr (item :: tl)
          end
      end
  end.

Inductive list_reply : Type :=
| listJobsResponse (jobs : list jobResponse)
| listError (code : Z) (msg : string).

Definition listHandler (fault : option error) (cfg : config.Config)
           (st : Store) (raw : string) : list_reply :=
  match ListJobs fault st (listLimit raw) with
  | (_, Some _) => listError StatusInternalServerError "failed to load jobs"
  | (items, None) =>
      match buildAll cfg items with
      | inl _ => listError StatusInternalServerError "failed to sign mp3 url"
      | inr resp => listJobsResponse resp
      end
  end.

(** *** GET /jobs/{id}/events: the status stream *)

(** What the handler waits for in its [select]: the request context is
    done, the keep-alive ticker fires, or the poll ticker fires; a poll
    reads the store as it is at that moment. *)
Inductive stream_event : Type :=
| CtxDone
| KeepaliveTick
| PollTick (fault : option error) (st : Store).

(** What the handler writes to the connection. *)
Inductive stream_output : Type :=
| WroteJSON (code : Z) (msg : string)
| Snapshot (r : jobResponse)
| KeepaliveComment.

Definition isTerminal (status : string) : bool :=
  String.eqb status jobs.StatusReady
  || String.eqb status jobs.StatusFailed
  || String.eqb status jobs.StatusExpired.

(** The [for { select { ... } }] loop.  The boolean of the result tells
    that the handler returned; it is [false] when the events ran out
    with the handler still waiting. *)
Fixpoint streamLoop (cfg : config.Config) (id : string)
         (evs : list stream_event) (j : Job) (lastUpdated : Z)
  : list stream_output * bool :=
  match evs with
  | [] => ([], false)
  | CtxDone :: _ => ([], true)
  | KeepaliveTick :: evs' =>
      let '(out, closed) := streamLoop cfg id evs' j lastUpdated in
      (KeepaliveComment :: out, closed)
  | PollTick fault st :: evs' =>
      match GetJob fault st id with
      | ErrNoRows => ([], true)
      | LookupErr _ => streamLoop cfg id evs' j lastUpdated
      | Found next =>
          if negb (UpdatedAt next >? lastUpdated)
             && String.eqb (Status next) (Status j)
          then streamLoop cfg id evs' j lastUpdated
          else
            match buildJobResponse cfg next with
            | inl _ => streamLoop cfg id evs' next (UpdatedAt next)
            | inr resp =>
                if isTerminal (Status next)
                then ([Snapshot resp], true)
                else
                  let '(out, closed) :=
                    streamLoop cfg id evs' next (UpdatedAt next) in
                  (Snapshot resp :: out, closed)
            end
      end
  end.

(** [fault] and [st] are the driver error and the store of the first
    read; [flusher] tells whether the connection can be flushed. *)
Definition streamJobEvents (cfg : config.Config) (id : string)
           (fault : option error) (st : Store) (flusher : bool)
           (evs : list stream_event) : list stream_output * bool :=
  match GetJob fault st id with
  | ErrNoRows => ([WroteJSON StatusNotFound "not found"], true)
  | LookupErr _ =>
      ([WroteJSON StatusInternalServerError "failed to load job"], true)
  | Found j =>
      if negb flusher
      then ([WroteJSON StatusInternalServerError "stream unsupported"], true)
      else
        match buildJobResponse cfg j with
        | inl _ =>
            ([WroteJSON StatusInternalServerError "failed to sign mp3 url"], true)
        | inr resp =>
            if isTerminal (Status j) then ([Snapshot resp], true)
            else
              let '(out, closed) := streamLoop cfg id evs j (UpdatedAt j) in
              (Snapshot resp :: out, closed)
        end
  end.

End WithCollaborators.

(** *** The rate limiter *)

Record rateEntry : Type := mkRateEntry {
  count : Z;
  reset : Z
}.

Record rateLimiter : Type := mkRateLimiter {
  limit : Z;
  window : Z;
  entries : gmap string rateEntry;
  lastCleanup : Z
}.

(** The zero [time.Time] (January 1 of year 1, UTC), in nanoseconds since
    the Unix epoch. *)
Definition zeroTime : Z := -62135596800 * Second.

Definition maxDuration : Z := 2 ^ 63 - 1.
Definition minDuration : Z := - 2 ^ 63.

(** [t.Sub(u)]: the difference, or the extreme duration when it does not
    fit an [int64]. *)
Definition Time_Sub (t u : Z) : Z :=
  let d := t - u in
  if d >? maxDuration then maxDuration
  else if d <? minDuration then minDuration
  else d.

(** [t.After(u)] *)
Definition Time_After (t u : Z) : bool := t >? u.

Definition newLimiter (limit window : Z) : rateLimiter :=
  mkRateLimiter limit window ∅ zeroTime.

Definition cleanupLocked (rl : rateLimiter) (now : Z) : rateLimiter :=
  if Time_Sub now (lastCleanup rl) <? window rl then rl
  else
    mkRateLimiter (limit rl) (window rl)
      (filter (fun kv : string * rateEntry =>
                 Time_After now (reset kv.2) = false) (entries rl))
      now.

(** [now] is the [time.Now()] at the head of [allow]; [untilNow] is the
    later [time.Now()] inside [time.Until].  The result is
    [(allowed, retryAfter, remaining)].  The map holds pointers: the
    [entry.count++] is seen through the map, which the model writes as an
    insertion. *)
Definition allow (rl : rateLimiter) (key : string) (now untilNow : Z)
  : rateLimiter * (bool * Z * Z) :=
  if (limit rl <=? 0) || (window rl <=? 0) then (rl, (true, 0, -1))
  else
    let fresh := mkRateEntry 0 (now + window rl) in
    let '(entry, ents) :=
      match entries rl !! key with
      | None => (fresh, <[key := fresh]> (entries rl))
      | Some e =>
          if Time_After now (reset e)
          then (fresh, <[key := fresh]> (entries rl))
          else (e, entries rl)
      end in
    if count entry >=? limit rl then
      let rl' := cleanupLocked
                   (mkRateLimiter (limit rl) (window rl) ents (lastCleanup rl))
                   now in
      let retryAfter := Time_Sub (reset entry) untilNow in
      let retryAfter := if retryAfter <? 0 then 0 else retryAfter in
      (rl', (false, retryAfter, 0))
    else
      let entry' := mkRateEntry (count entry + 1) (reset entry) in
      let ents' := <[key := entry']> ents in
      let remaining := limit rl - count entry' in
      (cleanupLocked
         (mkRateLimiter (limit rl) (window rl) ents' (lastCleanup rl)) now,
       (true, 0, remaining)).

(** [d.Round(m)]: to the nearest multiple of [m], halves away from zero. *)
Definition Duration_Round (d m : Z) : Z :=
  if m <=? 0 then d
  else
    let r := Z.rem d m in
    if d <? 0 then
      let r := - r in
      if r + r <? m then d + r
      else if d - m + r <? minDuration then minDuration else d - m + r
    else
      if r + r <? m then d - r
      else if d + m - r >? maxDuration then maxDuration else d + m - r.

(** [int(d.Seconds())] *)
Definition Duration_Seconds (d : Z) : Z := Z.quot d Second.

(** What the middleware does with one request. *)
Inductive limit_outcome : Type :=
| Forwarded (remainingHeader : option Z)
| Rejected (remainingHeader : option Z) (retryAfterSeconds : Z).

(** The handler that [rateLimitMiddleware] returns when [limit] and
    [window] are positive; [key] is [clientIP(r)]. *)
Definition rateLimitHandler (rl : rateLimiter) (path key : string)
           (now untilNow : Z) : rateLimiter * limit_outcome :=
  if String.eqb path "/healthz" then (rl, Forwarded None)
  else if strings.HasSuffix path "/events" then (rl, Forwarded None)
  else
    let '(rl', (allowed, retryAfter, remaining)) := allow rl key now untilNow in
    let header := if remaining >=? 0 then Some remaining else None in
    if negb allowed then
      let seconds := Duration_Seconds (Duration_Round retryAfter Second) in
      let seconds := if seconds <? 1 then 1 else seconds in
      (rl', Rejected header seconds)
    else (rl', Forwarded header).

(** *** The retention sweeper *)

(** What a sweep meets: the driver error of each page query (pages are
    numbered from 0), the outcome of removing an object while a page is
    being worked on, and the driver error of the final [DELETE]. *)
Record sweep_world : Type := mkSweepWorld {
  sw_list_fault : nat -> option error;
  sw_remove : nat -> string -> option error;    (* [client.RemoveObject] *)
  sw_delete_fault : option error
}.

(** [s3.DeleteObject] of internal/storage/s3.go, on the set of object keys
    of the bucket. *)
Definition DeleteObject (remove : string -> option error)
           (bucket : gset string) (objectKey : string)
  : gset string * option error :=
  if String.eqb (strings.TrimSpace objectKey) ""
  then (bucket, Some (errorString "object key is empty"))
  else
    match remove objectKey with
    | Some e => (bucket, Some e)
    | None => (bucket ∖ {[objectKey]}, None)
    end.

Section Sweeper.
Variable url_Parse : string -> option URL.

(** [for _, j := range items] of [cleanupJobs] *)
Fixpoint sweepPage (remove : string -> option error) (cfg : config.Config)
         (items : list Job) (bucket : gset string) (deletedObjects : Z)
  : gset string * Z :=
  match items with
  | [] => (bucket, deletedObjects)
  | j :: rest =>
      let key := objectKeyFromJob url_Parse cfg j in
      if negb (String.eqb key "") then
        match DeleteObject remove bucket key with
        | (bucket', None) => sweepPage remove cfg rest bucket' (deletedObjects + 1)
        | (bucket', Some _) => sweepPage remove cfg rest bucket' deletedObjects
        end
      else sweepPage remove cfg rest bucket deletedObjects
  end.

(** The outer [for] loop of [cleanupJobs].  [fuel] bounds the number of
    iterations that the model runs: [None] says that the loop was still
    going when the fuel ran out.  Otherwise the result is the bucket,
    the tally of removed objects, and the error of the page query that
    ended the loop, if one did. *)
Fixpoint sweepLoop (fuel : nat) (w : sweep_world) (cfg : config.Config)
         (st : Store) (before : Z) (page : nat)
         (bucket : gset string) (deletedObjects : Z)
  : option (gset string * Z * option error) :=
  match fuel with
  | O => None
  | S fuel' =>
      match ListJobsBefore (sw_list_fault w page) st before 200 with
      | (_, Some e) => Some (bucket, deletedObjects, Some e)
      | (items, None) =>
          if (List.length items =? 0)%nat
          then Some (bucket, deletedObjects, None)
          else
            let '(bucket', deleted') :=
              sweepPage (sw_remove w page) cfg items bucket deletedObjects in
            if (List.length items <? 200)%nat
            then Some (bucket', deleted', None)
            else sweepLoop fuel' w cfg st before (S page) bucket' deleted'
      end
  end.

(** The result, when there is one, is the store and the bucket after the
    sweep and the triple [(deletedJobs, deletedObjects, err)]. *)
Definition cleanupJobs (fuel : nat) (w : sweep_world) (cfg : config.Config)
           (st : Store) (bucket : gset string) (before : Z)
  : option (Store * gset string * (Z * Z * option error)) :=
  match sweepLoop fuel w cfg st before 0 bucket 0 with
  | None => None
  | Some (bucket', deletedObjects, Some e) =>
      Some (st, bucket', (0, deletedObjects, Some e))
  | Some (bucket', deletedObjects, None) =>
      match DeleteJobsBefore (sw_delete_fault w) st before with
      | (_, (_, Some e)) => Some (st, bucket', (0, deletedObjects, Some e))
      | (st', (deletedJobs, None)) =>
          Some (st', bucket', (deletedJobs, deletedObjects, None))
      end
  end.
End Sweeper.

(** *** GET /jobs/{id} and GET /jobs/{id}/download *)

Definition StatusOK : Z := 200.
Definition StatusFound : Z := 302.
Definition StatusUnauthorized : Z := 401.

Inductive get_reply : Type :=
| GetJSON (code : Z) (r : jobResponse)
| GetError (code : Z) (msg : string)
| GetNoBody (code : Z).

Inductive download_reply : Type :=
| Redirect (code : Z) (location : string)
| DownloadError (code : Z) (msg : string)
| DownloadNoBody (code : Z).

Section ReadHandlers.
Variable url_Parse : string -> option URL.
Variable format_RFC3339 : Z -> string.
Variable PresignedGetObject : string -> Z -> error + string.
(** [client.PresignedGetObject] with the request parameters
    [response-content-disposition] (by file name) and
    [response-content-type]. *)
Variable PresignedGetObjectAs : string -> Z -> string -> error + string.

(** The last branch of the handler of ["/jobs/"]. *)
Definition getHandler (fault : option error) (cfg : config.Config)
           (st : Store) (method path : string) : get_reply :=
  if negb (String.eqb method "GET") then GetNoBody StatusMethodNotAllowed
  else
    let id := path in
    if String.eqb id "" then GetError StatusNotFound "not found"
    else
      match GetJob fault st id with
      | ErrNoRows => GetError StatusNotFound "not found"
      | LookupErr _ => GetError StatusInternalServerError "failed to load job"
      | Found j =>
          match buildJobResponse url_Parse format_RFC3339 PresignedGetObject
                                 cfg j with
          | inl _ => GetError StatusInternalServerError "failed to sign mp3 url"
          | inr resp => GetJSON StatusOK resp
          end
      end.

(** [s3.PresignMP3Download] of internal/storage/s3.go *)
Definition PresignMP3Download (objectKey : string) (expiry : Z)
           (filename : string) : error + string :=
  if String.eqb (strings.TrimSpace objectKey) ""
  then inl (errorString "object key is empty")
  else
    let filename :=
      if String.eqb (strings.TrimSpace filename) "" then "download.mp3"
      else filename in
    let expiry := if expiry <=? 0 then 15 * Minute else expiry in
    PresignedGetObjectAs objectKey expiry filename.

Definition mp3DownloadURLForJob (cfg : config.Config) (j : Job)
  : error + option string :=
  match MP3URL j with
  | None => inr None
  | Some stored =>
      if String.eqb (strings.TrimSpace stored) "" then inr None
      else
        let raw := strings.TrimSpace stored in
        let sign key :=
          let filename := "video2mp3-" +:+ ID j +:+ ".mp3" in
          match PresignMP3Download key (config.MP3URLTTL cfg) filename with
          | inl e => inl e
          | inr signed => inr (Some signed)
          end in
        if isHTTPURL url_Parse raw then
          match objectKeyFromURL url_Parse raw (config.S3Bucket cfg) with
          | Some parsedKey => sign parsedKey
          | None => inr (Some raw)
          end
        else sign raw
  end.

Definition download_id (path : string) : string :=
  strings.TrimSuffix (strings.TrimSuffix path "/download") "/".

(** The branch [if strings.HasSuffix(path, "/download")]. *)
Definition downloadHandler (fault : option error) (cfg : config.Config)
           (st : Store) (method path : string) : download_reply :=
  if negb (String.eqb method "GET") then DownloadNoBody StatusMethodNotAllowed
  else
    let id := download_id path in
    if String.eqb id "" || strings.Contains id "/"
    then DownloadError StatusNotFound "not found"
    else
      match GetJob fault st id with
      | ErrNoRows => DownloadError StatusNotFound "not found"
      | LookupErr _ =>
          DownloadError StatusInternalServerError "failed to load job"
      | Found j =>
          if negb (String.eqb (Status j) jobs.StatusReady)
          then DownloadError StatusConflict "job not ready"
          else
            match mp3DownloadURLForJob cfg j with
            | inl _ =>
                DownloadError StatusInternalServerError "failed to sign mp3 url"
            | inr None => DownloadError StatusNotFound "mp3 not found"
            | inr (Some mp3URL) => Redirect StatusFound mp3URL
            end
      end.
End ReadHandlers.

(** *** Authentication *)

(** What [isAuthorized] reads of a request: the [Authorization] and
    [X-API-KEY] headers and the [token] query parameter ([None] when the
    request has no URL). *)
Record credentials : Type := mkCredentials {
  cred_authorization : string;
  cred_api_key : string;
  cred_query_token : option string
}.

Definition isAuthorized (c : credentials) (token : string) : bool :=
  if String.eqb token "" then true
  else
    let auth := cred_authorization c in
    if strings.HasPrefix auth "Bearer "
       && String.eqb (strings.TrimPrefix auth "Bearer ") token
    then true
    else if String.eqb (cred_api_key c) token then true
    else
      match cred_query_token c with
      | Some q => if negb (String.eqb q "") && String.eqb q token then true
                  else false
      | None => false
      end.

Inductive auth_outcome : Type :=
| AuthForwarded
| AuthRejected (code : Z) (msg : string).

(** The handler that [authMiddleware] puts before [next]: [next] itself
    when the configured token is blank. *)
Definition authMiddleware (token : string) (path : string) (c : credentials)
  : auth_outcome :=
  if String.eqb (strings.TrimSpace token) "" then AuthForwarded
  else if String.eqb path "/healthz" then AuthForwarded
  else if negb (isAuthorized c token)
       then AuthRejected StatusUnauthorized "unauthorized"
       else AuthForwarded.

(** *** The key of a client *)

(** [strings.Split(s, ",")[0]]: the text before the first comma. *)
Fixpoint before_comma (s : string) : string :=
  match s with
  | EmptyString => EmptyString
  | String a s' =>
      if Ascii.eqb a ","%char then EmptyString else String a (before_comma s')
  end.

(** The headers and the address that [clientIP] reads. *)
Record peer : Type := mkPeer {
  peer_forwarded_for : string;
  peer_real_ip : string;
  peer_remote_addr : string
}.

Section ClientKey.
(** [net.SplitHostPort]; [None] is an error. *)
Variable SplitHostPort : string -> option (string * string).

(** [r] is [None] for the nil request. *)
Definition clientIP (r : option peer) : string :=
  match r with
  | None => "unknown"
  | Some r =>
      let fromForwarded :=
        if negb (String.eqb (peer_forwarded_for r) "")
        then
          let ip := strings.TrimSpace (before_comma (peer_forwarded_for r)) in
          if negb (String.eqb ip "") then Some ip else None
        else None in
      match fromForwarded with
      | Some ip => ip
      | None =>
          let xr := strings.TrimSpace (peer_real_ip r) in
          if negb (String.eqb xr "") then xr
          else
            match SplitHostPort (peer_remote_addr r) with
            | Some (host, _) =>
                if negb (String.eqb host "") then host
                else if negb (String.eqb (peer_remote_addr r) "")
                     then peer_remote_addr r else "unknown"
            | None =>
                if negb (String.eqb (peer_remote_addr r) "")
                then peer_remote_addr r else "unknown"
            end
      end
  end.
End ClientKey.

End api.

(** ** The writers of the job table

    The table is written by the creation handler, by the retry handler, by
    the worker and by the sweeper.  A worker task is not atomic: other
    writers may run between two of its updates.  The operations below
    therefore list, next to a whole task, each single update that
    [processJob] and [recordFailure] issue. *)

Module system.
Import store.

(** The shapes of the four [UpdateJobStatus] calls of the worker. *)
Inductive worker_write : Type :=
| WDownloading
| WTranscoding
| WReady (mp3Key : string)
| WFailed (msg : string).

Definition apply_write (now : Z) (fault : option error) (st : Store)
           (id : string) (wr : worker_write) : Store :=
  fst match wr with
      | WDownloading =>
          UpdateJobStatus now fault st id jobs.StatusDownloading None None
      | WTranscoding =>
          UpdateJobStatus now fault st id jobs.StatusTranscoding None None
      | WReady mp3Key =>
          UpdateJobStatus now fault st id jobs.StatusReady None (Some mp3Key)
      | WFailed msg =>
          UpdateJobStatus now fault st id jobs.StatusFailed (Some msg) None
      end.

Inductive sys_op : Type :=
| OpCreate (w : api.create_world)
| OpRetry (w : api.retry_world) (method path : string)
| OpProcess (w : worker.job_world) (p : queue.ProcessPayload)
| OpWorkerWrite (now : Z) (fault : option error) (id : string) (wr : worker_write)
| OpSweep (fault : option error) (before : Z).

Section Run.
Variable url_Parse : string -> option URL.
Variable extractURL : string -> option string.
Variable MapToLower : string -> string.
Variable cfg : config.Config.

Definition step (state : Store * api.TaskQueue) (op : sys_op)
  : Store * api.TaskQueue :=
  let '(st, q) := state in
  match op with
  | OpCreate w => (api.createHandler url_Parse extractURL MapToLower w st q).1
  | OpRetry w method path => (api.retryHandler w st q method path).1
  | OpProcess w p => ((worker.processJob w cfg st p).1, q)
  | OpWorkerWrite now fault id wr => (apply_write now fault st id wr, q)
  | OpSweep fault before => ((DeleteJobsBefore fault st before).1, q)
  end.

Definition run (ops : list sys_op) (state : Store * api.TaskQueue)
  : Store * api.TaskQueue :=
  fold_left step ops state.
End Run.

(** The invariant of a row: a result reference exactly in [ready], an error
    message exactly in [failed]. *)
Definition job_inv (j : Job) : Prop :=
  (MP3URL j <> None <-> Status j = jobs.StatusReady)
  /\ (Error j <> None <-> Status j = jobs.StatusFailed).

Definition store_inv (s : Store) : Prop := Forall job_inv s.

(** The same condition on the arguments of an update. *)
Definition write_ok (status : string) (errMsg mp3URL : option string) : Prop :=
  (mp3URL <> None <-> status = jobs.StatusReady)
  /\ (errMsg <> None <-> status = jobs.StatusFailed).

End system.

(** ** Reading the trace of a fetch *)

Module trace.
Import worker.

(** The attempts that sent a request, with the request. *)
Fixpoint requests (evs : list fetch_event) : list (Z * Request) :=
  match evs with
  | [] => []
  | Sent a r :: evs' => (a, r) :: requests evs'
  | _ :: evs' => requests evs'
  end.

(** The back-off timers that were armed, whether they fired or were
    overtaken by the cancellation. *)
Fixpoint backoffs (evs : list fetch_event) : list Z :=
  match evs with
  | [] => []
  | Slept d :: evs' => d :: backoffs evs'
  | Cancelled d :: evs' => d :: backoffs evs'
  | Sent _ _ :: evs' => backoffs evs'
  end.


End trace.

(** ** A limiter serving requests one after the other *)

Module limiter.
Import api.

(** A request as [allow] sees it: the key of the client and the two clock
    readings of the call. *)
Record arrival : Type := mkArrival {
  arr_key : string;
  arr_now : Z;
  arr_until : Z
}.

(** The limiter is shared by all requests and locked during [allow]: the
    calls happen one after the other, each on the state the previous one
    left.  The result pairs each key with the answer it got. *)
Fixpoint serve (rl : rateLimiter) (arrs : list arrival)
  : rateLimiter * list (string * (bool * Z * Z)) :=
  match arrs with
  | [] => (rl, [])
  | a :: arrs' =>
      let '(rl1, res) := allow rl (arr_key a) (arr_now a) (arr_until a) in
      let '(rl2, rest) := serve rl1 arrs' in
      (rl2, (arr_key a, res) :: rest)
  end.

(** The answers that went to one key, in order. *)
Definition answers_to (key : string) (l : list (string * (bool * Z * Z)))
  : list (bool * Z * Z) :=
  (List.filter (fun x => String.eqb x.1 key) l).*2.

End limiter.

(** ** Reading the output of a status stream *)

Module stream.
Import store api.

(** The snapshots among the things written, in order. *)
Fixpoint snapshots (out : list stream_output) : list jobResponse :=
  match out with
  | [] => []
  | Snapshot r :: out' => r :: snapshots out'
  | _ :: out' => snapshots out'
  end.

(** An event during which the observer learns nothing new about row [j]: a
    keep-alive tick, a poll that the driver fails, or a poll that reads the
    row [j] again. *)
Definition quiet (id : string) (j : Job) (e : stream_event) : Prop :=
  match e with
  | CtxDone => False
  | KeepaliveTick => True
  | PollTick fault st =>
      GetJob fault st id = Found j
      \/ exists err, GetJob fault st id = LookupErr err
  end.

(** The rows that the polls of a stream found, in order. *)
Fixpoint polled (id : string) (evs : list stream_event) : list Job :=
  match evs with
  | [] => []
  | PollTick fault st :: evs' =>
      match GetJob fault st id with
      | Found j => j :: polled id evs'
      | _ => polled id evs'
      end
  | _ :: evs' => polled id evs'
  end.

(** The same, with the first read of the handler in front. *)
Definition reads (id : string) (fault : option error) (st : Store)
           (evs : list stream_event) : list Job :=
  polled id (PollTick fault st :: evs).

End stream.

(** ** Stand-ins and sample data for the examples

    The functions of the Go library that the model takes as parameters are
    instantiated here on the inputs of the examples; the theorems hold for
    every instance. *)

Module sample.
Import store.

(** [scheme://host/path], or a bare path. *)
Definition parse (raw : string) : option URL :=
  match String.index 0 "://" raw with
  | Some i =>
      let after := String.substring (i + 3) (String.length raw) raw in
      match strings.SplitSlash2 after with
      | (host, Some path) => Some (mkURL (String.substring 0 i raw) host ("/" +:+ path))
      | (host, None) => Some (mkURL (String.substring 0 i raw) host "")
      end
  | None => Some (mkURL "" "" raw)
  end.

Definition extract (input : string) : option string :=
  let t := strings.TrimSpace input in
  if strings.HasPrefix t "http://" || strings.HasPrefix t "https://"
  then Some t else None.

(** A stand-in for [strings.Map(unicode.ToLower, s)]; the hosts of the
    examples are pure ASCII and never reach it. *)
Definition lower (s : string) : string := strings.ToLowerASCII s.

Definition format (t : Z) : string := pretty t.

Definition sign (objectKey : string) (expiry : Z) : error + string :=
  inr ("https://s3.example/v2m/" +:+ objectKey +:+ "?X-Amz-Expires="
         +:+ pretty (Z.quot expiry Second)).

Fixpoint digits (s : string) (acc : Z) : option Z :=
  match s with
  | EmptyString => Some acc
  | String a s' =>
      let n := nat_of_ascii a in
      if (48 <=? n)%nat && (n <=? 57)%nat
      then digits s' (acc * 10 + Z.of_nat (n - 48))
      else None
  end.

(** Decimal integers with an optional sign, within the range of [int]. *)
Definition atoi (s : string) : option Z :=
  let in_range v := if (- 2 ^ 63 <=? v) && (v <=? 2 ^ 63 - 1) then Some v else None in
  match s with
  | EmptyString => None
  | String "-" EmptyString | String "+" EmptyString => None
  | String "-" s' => v ← digits s' 0; in_range (- v)
  | String "+" s' => v ← digits s' 0; in_range v
  | _ => v ← digits s 0; in_range v
  end.

Definition cfg : config.Config :=
  config.mkConfig "/work" "http://parser:5001" (10 * Minute) "v2m"
                  (15 * Minute) 0 0.

Definition source : string := "https://www.douyin.com/video/123".

Definition job (id status : string) (err mp3 : option string) (created updated : Z)
  : Job :=
  mkJob id source "douyin" status err mp3 created updated.

(** *** Worlds of the fetcher *)

Definition answer (code : Z) (body : string) : worker.attempt_world :=
  worker.mkAttemptWorld None
    (fun _ => inr (worker.mkResponse code body None)) None.

(** A server that answers the first attempt with [first] and the later ones
    with 200 and [body]; the caller never cancels. *)
Definition fetch_then_ok (first : Z) (body : string) : worker.fetch_world :=
  worker.mkFetchWorld
    (fun attempt => if attempt =? 1 then answer first "" else answer 200 body)
    (fun _ => false)
    (errorString "context canceled").

(** A server that gives every attempt the same answer. *)
Definition fetch_always (code : Z) (body : string) : worker.fetch_world :=
  worker.mkFetchWorld (fun _ => answer code body) (fun _ => false)
                      (errorString "context canceled").

Definition media : string := "https://cdn.example/v/123.mp4".
Definition dest : string := "/work/j1/j1.mp4".

(** *** Worlds of the worker *)

Definition parser_ok : worker.parser_world :=
  worker.mkParserWorld None None None None
    (inr (200, inr (worker.mkParserResponse 200 "ok" "123" "douyin" "t"
                                           media "" "" true))).

Definition parser_http (code : Z) : worker.parser_world :=
  worker.mkParserWorld None None None None
    (inr (code, inl (errorString "unused"))).

Definition parser_unreachable : worker.parser_world :=
  worker.mkParserWorld None None None None
    (inl (errorString "dial tcp: connection refused")).

Definition parser_reports_failure : worker.parser_world :=
  worker.mkParserWorld None None None None
    (inr (200, inr (worker.mkParserResponse 404 "video not found" "" "" ""
                                           "" "" "" false))).

(** A resolver that reports a failure in the words of the worker. *)
Definition parser_reports_no_media : worker.parser_world :=
  worker.mkParserWorld None None None None
    (inr (200, inr (worker.mkParserResponse 500 "parser returned no media url"
                                           "" "" "" "" "" "" false))).

Definition parser_empty : worker.parser_world :=
  worker.mkParserWorld None None None None
    (inr (200, inr (worker.mkParserResponse 200 "ok" "123" "douyin" "t"
                                           "" "" "  " true))).

Definition job_world_with (pw : worker.parser_world) : worker.job_world :=
  worker.mkJobWorld "/tmp" None ∅
    (fun s => match s with
              | worker.AtDownloading => 10
              | worker.AtTranscoding => 20
              | worker.AtReady => 30
              | worker.AtFailed => 40
              end)
    (fun _ => None)
    pw (fetch_always 200 "mp4-bytes") (None, "") None.

Definition payload : queue.ProcessPayload := queue.mkPayload "j1" source.

Definition create_world : api.create_world :=
  api.mkCreateWorld (inr ("  " +:+ source)) "j1" 1 None None None.

(** *** A job that is faster than the poll of its observer

    The row is queued until 1s, downloading until 2s and ready from then on;
    the stream is opened at 0 and polls every 3 seconds. *)




(** *** A table with 200 rows *)

Definition old_row (n : nat) : Job :=
  job ("job-" +:+ pretty n) jobs.StatusQueued None None (Z.of_nat n) (Z.of_nat n).

Definition table200 : Store := List.map old_row (seq 0 200).

Definition healthy_sweep : api.sweep_world :=
  api.mkSweepWorld (fun _ => None) (fun _ _ => None) None.

(** *** More worlds and inputs *)

(** U+00A0, the no-break space, and U+3000, the ideographic space. *)
Definition nbsp : string :=
  String (ascii_of_nat 194) (String (ascii_of_nat 160) EmptyString).
Definition ideographic_space : string :=
  String (ascii_of_nat 227)
         (String (ascii_of_nat 128) (String (ascii_of_nat 128) EmptyString)).

(** A resolver whose audio link is an ideographic space. *)
Definition parser_blank_audio : worker.parser_world :=
  worker.mkParserWorld None None None None
    (inr (200, inr (worker.mkParserResponse 200 "ok" "123" "douyin" "t"
                                           media "" ideographic_space true))).

(** A server whose first body breaks off after [b1] and which answers the
    request for the rest with 206 and [b2]. *)
Definition fetch_cut (b1 b2 : string) : worker.fetch_world :=
  worker.mkFetchWorld
    (fun attempt =>
       if attempt =? 1
       then worker.mkAttemptWorld None
              (fun _ => inr (worker.mkResponse 200 b1
                               (Some (errorString "unexpected EOF"))))
              None
       else answer 206 b2)
    (fun _ => false)
    (errorString "context canceled").

(** *** Runes and random numbers *)

Definition ascii_letter (r : Z) : bool :=
  ((65 <=? r) && (r <=? 90)) || ((97 <=? r) && (r <=? 122)).
Definition ascii_upper (r : Z) : bool := (65 <=? r) && (r <=? 90).
Definition ascii_lower (r : Z) : Z := if ascii_upper r then r + 32 else r.

(** A source of random numbers that never fails. *)
Definition draw (m : nat) : error + Z := inr ((Z.of_nat m * 31 + 7) mod 52).

(** *** Requests *)

Definition sign_as (objectKey : string) (expiry : Z) (filename : string)
  : error + string :=
  inr ("https://s3.example/v2m/" +:+ objectKey +:+ "?X-Amz-Expires="
         +:+ pretty (Z.quot expiry Second) +:+ "&filename=" +:+ filename).

Definition bearer (token : string) : api.credentials :=
  api.mkCredentials ("Bearer " +:+ token) "" None.

(** *** A small table with stored objects *)

Definition swept_table : Store :=
  [job "a" jobs.StatusReady None (Some "jobs/a.mp3") 1 5;
   job "b" jobs.StatusFailed (Some "boom") None 2 6;
   job "c" jobs.StatusReady None (Some "jobs/c.mp3") 50 60].

Definition swept_bucket : gset string := {[ "jobs/a.mp3"; "jobs/c.mp3" ]}.

End sample.

(** * Properties *)

(** ** The job record store *)

Section StoreFacts.
Import store.

#[local] Instance newer_first_total : Total newer_first.
Proof. intros a b. unfold newer_first. lia. Qed.
#[local] Instance newer_first_trans : Transitive newer_first.
Proof. intros a b c. unfold newer_first. lia. Qed.
#[local] Instance older_first_total : Total older_first.
Proof. intros a b. unfold older_first. lia. Qed.
#[local] Instance older_first_trans : Transitive older_first.
Proof. intros a b c. unfold older_first. lia. Qed.

Lemma find_none_map_id (id : string) (f : Job -> Job) (s : Store) :
  List.find (has_id id) s = None ->
  List.map (fun j => if has_id id j then f j else j) s = s.
Proof.
  induction s as [|j s IH]; simpl; [done|].
  destruct (has_id id j) eqn:E; [done|].
  intros H. by rewrite IH.
Qed.

Lemma GetJob_no_rows (s : Store) (id : string) :
  GetJob None s id = ErrNoRows <-> List.find (has_id id) s = None.
Proof.
  unfold GetJob. destruct (List.find (has_id id) s); split; congruence.
Qed.

(** C10.  An update for an id that no row carries leaves the table as it
    is and surfaces nothing but the error of the driver: with a driver
    that executes the statement the caller gets [nil], never a
    not-found. *)
Theorem UpdateJobStatus_unknown_id
        (now : Z) (s : Store) (id status : string)
        (errMsg mp3URL : option string) :
  GetJob None s id = ErrNoRows ->
  UpdateJobStatus now None s id status errMsg mp3URL = (s, None)
  /\ forall fault,
      UpdateJobStatus now fault s id status errMsg mp3URL = (s, fault).
Proof.
  intros H%GetJob_no_rows.
  assert (Hok : UpdateJobStatus now None s id status errMsg mp3URL = (s, None)).
  { unfold UpdateJobStatus. by rewrite find_none_map_id. }
  split; [exact Hok|].
  intros [e|]; [reflexivity | exact Hok].
Qed.

Lemma ListJobs_sorted (s : Store) (limit : Z) :
  StronglySorted newer_first (ListJobs None s limit).1.
Proof.
  unfold ListJobs. simpl.
  set (l := merge_sort newer_first s).
  assert (Hs : StronglySorted newer_first l)
    by (apply Sorted_StronglySorted; [apply _ | apply Sorted_merge_sort; apply _]).
  rewrite <- (take_drop (Z.to_nat (if limit <=? 0 then 20 else limit)) l) in Hs.
  by apply StronglySorted_app_1_l in Hs.
Qed.

Lemma ListJobs_split (s : Store) (limit : Z) :
  exists rest,
    (ListJobs None s limit).1 ++ rest ≡ₚ s
    /\ forall i r, i ∈ (ListJobs None s limit).1 -> r ∈ rest ->
                   CreatedAt r <= CreatedAt i.
Proof.
  unfold ListJobs. simpl.
  set (n := Z.to_nat (if limit <=? 0 then 20 else limit)).
  set (l := merge_sort newer_first s).
  exists (drop n l). split.
  - rewrite take_drop. apply merge_sort_Permutation.
  - intros i r Hi Hr.
    assert (Hs : StronglySorted newer_first (take n l ++ drop n l)).
    { rewrite take_drop. apply Sorted_StronglySorted; [apply _|].
      apply Sorted_merge_sort; apply _. }
    by apply (StronglySorted_app_1_elem_of _ _ _ _ _ Hs).
Qed.

Lemma ListJobs_length (s : Store) (limit : Z) :
  List.length (ListJobs None s limit).1
  = Nat.min (Z.to_nat (if limit <=? 0 then 20 else limit)) (List.length s).
Proof.
  unfold ListJobs. simpl. rewrite length_take.
  by rewrite (Permutation_length (merge_sort_Permutation newer_first s)).
Qed.

End StoreFacts.

(** ** The retry gate *)

Section RetryGate.
Import store api.

Lemma retryHandler_not_retryable (w : retry_world) (st : Store) (q : TaskQueue)
      (method path : string) (j : Job) :
  GetJob None st (retry_id path) = Found j ->
  Status j <> jobs.StatusFailed ->
  Status j <> jobs.StatusExpired ->
  (retryHandler w st q method path).1 = (st, q)
  /\ reply_code (retryHandler w st q method path).2 <> StatusAccepted.
Proof.
  intros Hget Hf He. unfold retryHandler.
  destruct (negb (String.eqb method "POST")); [done|].
  destruct (String.eqb (retry_id path) "" || strings.Contains (retry_id path) "/");
    [done|].
  destruct (rw_get_fault w) as [e|]; [done|].
  rewrite Hget.
  apply String.eqb_neq in Hf, He. rewrite Hf, He. done.
Qed.

(** C2.  For a job that exists, a retry request while its status is neither
    [failed] nor [expired] (so in particular while it is queued,
    downloading, transcoding or ready) is never accepted and changes neither
    the table nor the task queue, whatever the method and the state of the
    driver; sent as a POST for a well-formed id, with a driver that answers,
    it is answered by 409 "job not retryable". *)
Theorem retry_only_from_failed_or_expired
        (w : retry_world) (st : Store) (q : TaskQueue) (path : string) (j : Job) :
  GetJob None st (retry_id path) = Found j ->
  Status j <> jobs.StatusFailed ->
  Status j <> jobs.StatusExpired ->
  (forall method,
      (retryHandler w st q method path).1 = (st, q)
      /\ reply_code (retryHandler w st q method path).2 <> StatusAccepted)
  /\ (retry_id path <> "" ->
      strings.Contains (retry_id path) "/" = false ->
      rw_get_fault w = None ->
      retryHandler w st q "POST" path
      = (st, q, mkReply StatusConflict (errorResponse "job not retryable"))).
Proof.
  intros Hget Hf He. split.
  - intros method. by apply (retryHandler_not_retryable w st q method path j).
  - intros Hid Hslash Hfault. unfold retryHandler.
    apply String.eqb_neq in Hid, Hf, He.
    by rewrite String.eqb_refl, Hid, Hslash, Hfault, Hget, Hf, He.
Qed.

(** The gate opens for [failed] and [expired]: the row goes back to [queued]
    with its error and result cleared, and a task is enqueued. *)
Lemma retryHandler_accepts (w : retry_world) (st : Store) (q : TaskQueue)
      (path : string) (j : Job) :
  retry_id path <> "" ->
  strings.Contains (retry_id path) "/" = false ->
  GetJob None st (retry_id path) = Found j ->
  Status j = jobs.StatusFailed \/ Status j = jobs.StatusExpired ->
  w = mkRetryWorld None None (rw_now w) None None ->
  retryHandler w st q "POST" path
  = ((UpdateJobStatus (rw_now w) None st (ID j) jobs.StatusQueued None None).1,
     q ++ [queue.mkPayload (ID j) (SourceURL j)],
     mkReply StatusAccepted (createJobResponse (ID j) jobs.StatusQueued)).
Proof.
  intros Hid Hslash Hget Hst ->. unfold retryHandler.
  apply String.eqb_neq in Hid.
  rewrite String.eqb_refl, Hid, Hslash. cbn [rw_get_fault negb orb].
  rewrite Hget.
  destruct Hst as [-> | ->]; reflexivity.
Qed.

End RetryGate.

(** ** The invariant of the job table *)

Section TableInvariant.
Import store system.

Lemma UpdateJobStatus_inv now fault (s : Store) id status errMsg mp3URL :
  write_ok status errMsg mp3URL ->
  store_inv s ->
  store_inv (UpdateJobStatus now fault s id status errMsg mp3URL).1.
Proof.
  intros Hw Hs. unfold UpdateJobStatus.
  destruct fault; [exact Hs|]. simpl.
  unfold store_inv in *. rewrite List.Forall_map.
  eapply Forall_impl; [exact Hs|].
  intros j Hj. simpl. destruct (has_id id j); [exact Hw | exact Hj].
Qed.

Lemma apply_write_inv now fault (s : Store) id wr :
  store_inv s -> store_inv (apply_write now fault s id wr).
Proof.
  intros Hs. unfold apply_write.
  destruct wr; apply UpdateJobStatus_inv; try exact Hs;
    unfold write_ok, jobs.StatusReady, jobs.StatusFailed,
      jobs.StatusDownloading, jobs.StatusTranscoding;
    (split; split; intros H; try done; try discriminate H).
Qed.

Lemma CreateJob_inv now fault (s : Store) (j : Job) :
  job_inv j -> store_inv s -> store_inv (CreateJob now fault s j).1.
Proof.
  intros Hj Hs. unfold CreateJob.
  destruct fault; [exact Hs|].
  destruct (existsb (has_id (ID j)) s); [exact Hs|]. simpl.
  apply Forall_app. split; [exact Hs|].
  constructor; [exact Hj | constructor].
Qed.

Lemma DeleteJobsBefore_inv fault (s : Store) before :
  store_inv s -> store_inv (DeleteJobsBefore fault s before).1.
Proof.
  intros Hs. unfold DeleteJobsBefore. destruct fault; [exact Hs|]. simpl.
  unfold store_inv in *. rewrite List.Forall_forall in *.
  intros j [Hin _]%List.filter_In. by apply Hs.
Qed.

Lemma recordFailure_store now fault (s : Store) id (e : error) :
  (worker.recordFailure now fault s id (Some e)).1
  = apply_write now fault s id (WFailed (worker.truncate (Error_msg e) 800)).
Proof.
  unfold worker.recordFailure. by destruct (worker.shouldSkipRetry (Some e)).
Qed.

(** The table after a task is the table after some of the four updates, in
    the order of the pipeline, all for the job of the task. *)
Lemma processJob_writes (w : worker.job_world) (cfg : config.Config)
      (st : Store) (p : queue.ProcessPayload) :
  exists ws : list (Z * option error * worker_write),
    (worker.processJob w cfg st p).1
    = fold_left (fun s x => apply_write x.1.1 x.1.2 s (queue.JobID p) x.2) ws st.
Proof.
  unfold worker.processJob. cbv zeta.
  destruct (worker.jw_mkdir w) as [e|].
  { rewrite recordFailure_store. by eexists [(_, _, WFailed _)]. }
  destruct (UpdateJobStatus _ _ st _ jobs.StatusDownloading None None)
    as [st1 [e|]] eqn:E1.
  { by exists []. }
  apply (f_equal fst) in E1. cbn [fst] in E1. subst st1.
  destruct (worker.downloadWithParser _ _ _ _ _ _ _) as [fs [e|videoPath]].
  { rewrite recordFailure_store.
    by eexists [(_, _, WDownloading); (_, _, WFailed _)]. }
  destruct (UpdateJobStatus _ _ _ _ jobs.StatusTranscoding None None)
    as [st2 [e|]] eqn:E2.
  { by eexists [(_, _, WDownloading)]. }
  apply (f_equal fst) in E2. cbn [fst] in E2. subst st2.
  destruct (worker.transcodeWithFFmpeg _) as [e|].
  { rewrite recordFailure_store.
    by eexists [(_, _, WDownloading); (_, _, WTranscoding); (_, _, WFailed _)]. }
  destruct (worker.UploadMP3 _ _) as [e|mp3Key].
  { rewrite recordFailure_store.
    by eexists [(_, _, WDownloading); (_, _, WTranscoding); (_, _, WFailed _)]. }
  destruct (UpdateJobStatus _ _ _ _ jobs.StatusReady None (Some mp3Key))
    as [st3 [e|]] eqn:E3.
  { by eexists [(_, _, WDownloading); (_, _, WTranscoding)]. }
  apply (f_equal fst) in E3. cbn [fst] in E3. subst st3.
  by eexists [(_, _, WDownloading); (_, _, WTranscoding); (_, _, WReady _)].
Qed.

Lemma processJob_inv (w : worker.job_world) (cfg : config.Config)
      (st : Store) (p : queue.ProcessPayload) :
  store_inv st -> store_inv (worker.processJob w cfg st p).1.
Proof.
  intros Hs. destruct (processJob_writes w cfg st p) as [ws ->].
  revert st Hs. induction ws as [|x ws IH]; intros st Hs; simpl; [exact Hs|].
  apply IH. by apply apply_write_inv.
Qed.

Lemma retryHandler_inv (w : api.retry_world) (st : Store) q method path :
  store_inv st -> store_inv (api.retryHandler w st q method path).1.1.
Proof.
  intros Hs. unfold api.retryHandler.
  repeat case_match; simpl; try exact Hs.
  all: match goal with
       | H : UpdateJobStatus ?n ?f ?s ?i ?stt ?e ?m = (?s', _) |- store_inv ?s' =>
           replace s' with (UpdateJobStatus n f s i stt e m).1 by (by rewrite H);
           apply UpdateJobStatus_inv; [|exact Hs]
       end.
  all: unfold write_ok, jobs.StatusQueued, jobs.StatusReady, jobs.StatusFailed;
    split; split; intros H'; try done; discriminate H'.
Qed.

Lemma createHandler_inv url_Parse extractURL MapToLower (w : api.create_world)
      (st : Store) q :
  store_inv st ->
  store_inv (api.createHandler url_Parse extractURL MapToLower w st q).1.1.
Proof.
  intros Hs. unfold api.createHandler.
  repeat case_match; simpl; try exact Hs.
  all: match goal with
       | H : CreateJob ?n ?f ?s ?j = (?s', _) |- store_inv ?s' =>
           replace s' with (CreateJob n f s j).1 by (by rewrite H);
           apply CreateJob_inv; [|exact Hs]
       end.
  all: unfold job_inv, jobs.StatusQueued, jobs.StatusReady, jobs.StatusFailed;
    simpl; split; split; intros H'; try done; discriminate H'.
Qed.

Lemma step_inv url_Parse extractURL MapToLower cfg state (op : sys_op) :
  store_inv state.1 ->
  store_inv (step url_Parse extractURL MapToLower cfg state op).1.
Proof.
  destruct state as [st q]. simpl. intros Hs. destruct op; simpl.
  - by apply createHandler_inv.
  - by apply retryHandler_inv.
  - by apply processJob_inv.
  - by apply apply_write_inv.
  - by apply DeleteJobsBefore_inv.
Qed.

Lemma run_inv url_Parse extractURL MapToLower cfg (ops : list sys_op) state :
  store_inv state.1 ->
  store_inv (run url_Parse extractURL MapToLower cfg ops state).1.
Proof.
  revert state. induction ops as [|op ops IH]; intros state Hs; simpl.
  - exact Hs.
  - apply IH. by apply step_inv.
Qed.

(** C1.  Starting from the empty table, after any sequence of job
    creations, retries, worker tasks, single worker updates interleaved with
    them, and sweeps, every row has a result reference exactly when its
    status is [ready] and an error message exactly when its status is
    [failed]. *)
Theorem result_iff_ready_error_iff_failed
        (url_Parse : string -> option URL)
        (extractURL : string -> option string)
        (MapToLower : string -> string)
        (cfg : config.Config) (ops : list sys_op) (j : Job) :
  j ∈ (run url_Parse extractURL MapToLower cfg ops ([], [])).1 ->
  (MP3URL j <> None <-> Status j = jobs.StatusReady)
  /\ (Error j <> None <-> Status j = jobs.StatusFailed).
Proof.
  intros Hin.
  assert (Hinv : store_inv (run url_Parse extractURL MapToLower cfg ops ([], [])).1)
    by (apply run_inv; constructor).
  unfold store_inv in Hinv. rewrite Forall_forall in Hinv.
  by apply Hinv.
Qed.

End TableInvariant.

(** ** Listing the recent jobs *)

Section Listing.
Import store api.
Variable url_Parse : string -> option URL.
Variable format_RFC3339 : Z -> string.
Variable PresignedGetObject : string -> Z -> error + string.
Variable Atoi : string -> option Z.

Lemma listLimit_range (raw : string) : 1 <= listLimit Atoi raw <= 100.
Proof.
  unfold listLimit.
  destruct (negb (String.eqb raw "")); [destruct (Atoi raw) as [v|]|];
    repeat case_match; lia.
Qed.

Lemma buildAll_Forall2 (cfg : config.Config) (items : list Job)
      (resp : list jobResponse) :
  buildAll url_Parse format_RFC3339 PresignedGetObject cfg items = inr resp ->
  Forall2 (fun j r =>
             buildJobResponse url_Parse format_RFC3339 PresignedGetObject cfg j
             = inr r) items resp.
Proof.
  revert resp. induction items as [|j items IH]; intros resp; simpl.
  - intros [= <-]. constructor.
  - destruct (buildJobResponse _ _ _ cfg j) as [e|item] eqn:Ej; [done|].
    destruct (buildAll _ _ _ cfg items) as [e|tl]; [done|].
    intros [= <-]. constructor; [exact Ej | by apply IH].
Qed.

(** C9.  The limit that GET /jobs hands to the store is 20 when the
    parameter is missing, unreadable or not positive, is never above 100,
    and is the requested number otherwise.  A successful answer lists the
    snapshots of rows of the table, newest first, exactly
    [min limit (number of rows)] of them, and no row left out is newer than
    a row listed. *)
Theorem list_recent_first_bounded
        (fault : option error) (cfg : config.Config) (st : Store)
        (raw : string) (resp : list jobResponse) :
  listHandler url_Parse format_RFC3339 PresignedGetObject Atoi fault cfg st raw
  = listJobsResponse resp ->
  let limit := listLimit Atoi raw in
  1 <= limit <= 100
  /\ (raw = "" \/ Atoi raw = None -> limit = 20)
  /\ (forall v, raw <> "" -> Atoi raw = Some v ->
                limit = if v <=? 0 then 20 else Z.min v 100)
  /\ exists items rest,
      Forall2 (fun j r =>
                 buildJobResponse url_Parse format_RFC3339 PresignedGetObject cfg j
                 = inr r) items resp
      /\ StronglySorted newer_first items
      /\ List.length resp = Nat.min (Z.to_nat limit) (List.length st)
      /\ items ++ rest ≡ₚ st
      /\ (forall i r, i ∈ items -> r ∈ rest -> CreatedAt r <= CreatedAt i).
Proof.
  intros Hh limit. split; [apply listLimit_range|].
  split.
  { unfold limit, listLimit. intros [-> | Hn]; [reflexivity|].
    rewrite Hn. by destruct (negb (String.eqb raw "")). }
  split.
  { intros v Hraw Hv. unfold limit, listLimit.
    apply String.eqb_neq in Hraw. rewrite Hraw, Hv. simpl.
    destruct (v <=? 0) eqn:E; [reflexivity|].
    destruct (v >? 100) eqn:E'; lia. }
  unfold listHandler in Hh. fold limit in Hh.
  destruct fault as [e|]; [done|].
  assert (El : ListJobs None st limit = ((ListJobs None st limit).1, None))
    by reflexivity.
  rewrite El in Hh. clear El.
  destruct (buildAll _ _ _ cfg _) as [e|resp'] eqn:Eb; [done|].
  injection Hh as ->.
  apply buildAll_Forall2 in Eb.
  destruct (ListJobs_split st limit) as (rest & Hperm & Hrest).
  exists (ListJobs None st limit).1, rest.
  repeat split.
  - exact Eb.
  - apply ListJobs_sorted.
  - rewrite <- (Forall2_length _ _ _ Eb), ListJobs_length.
    pose proof (listLimit_range raw) as Hr. fold limit in Hr.
    destruct (limit <=? 0) eqn:E; [lia | reflexivity].
  - exact Hperm.
  - exact Hrest.
Qed.

End Listing.

(** ** Failures of the video-resolution step *)

Section ResolutionFailure.
Import store worker.

Lemma UpdateJobStatus_lookup now (s : Store) id status errMsg mp3URL (j : Job) :
  GetJob None s id = Found j ->
  GetJob None (UpdateJobStatus now None s id status errMsg mp3URL).1 id
  = Found (set_status now status errMsg mp3URL j).
Proof.
  unfold GetJob, UpdateJobStatus. simpl.
  induction s as [|x s IH]; simpl; [done|].
  destruct (has_id id x) eqn:E.
  - intros [= ->]. simpl.
    assert (has_id id (set_status now status errMsg mp3URL j) = true) as ->
      by exact E.
    reflexivity.
  - rewrite E. exact IH.
Qed.

(** The empty-result failure of the resolver, and only a failure whose
    message carries one of the two phrases, is answered with
    [asynq.SkipRetry]. *)
Lemma recordFailure_result now fault (st : Store) id (e : error) :
  (recordFailure now fault st id (Some e)).2
  = Some (if shouldSkipRetry (Some e)
          then wrapSkipRetry (truncate (Error_msg e) 800)
          else e).
Proof.
  unfold recordFailure. by destruct (shouldSkipRetry (Some e)).
Qed.

Lemma processJob_resolution_failure (w : job_world) (cfg : config.Config)
      (st : Store) (p : queue.ProcessPayload) (e : error) :
  jw_mkdir w = None ->
  jw_dbfault w AtDownloading = None ->
  parseWithParser (jw_parser w) cfg (queue.SourceURL p) = inl e ->
  processJob w cfg st p
  = recordFailure (jw_now w AtFailed) (jw_dbfault w AtFailed)
      (UpdateJobStatus (jw_now w AtDownloading) None st (queue.JobID p)
                       jobs.StatusDownloading None None).1
      (queue.JobID p) (Some e).
Proof.
  intros Hmk Hdb Hparse. unfold processJob, downloadWithParser.
  rewrite Hmk, Hdb, Hparse. reflexivity.
Qed.

(** A resolver that answers 200 with [succ] and [retcode = 200] but with
    blank video and audio links. *)
Lemma parseWithParser_no_media (w : parser_world) (cfg : config.Config)
      (sourceURL : string) (parsed : parserResponse) :
  strings.TrimSpace (config.ParserAPIURL cfg) <> "" ->
  pw_joinpath w = None -> pw_random w = None ->
  pw_marshal w = None -> pw_newreq w = None ->
  pw_do w = inr (200, inr parsed) ->
  Succ parsed = true -> Retcode parsed = 200 ->
  strings.TrimSpace (Data_VideoURL parsed) = "" ->
  strings.TrimSpace (Data_AudioURL parsed) = "" ->
  parseWithParser w cfg sourceURL
  = inl (errorString "parser returned no media url").
Proof.
  intros Hb%String.eqb_neq H1 H2 H3 H4 Hdo Hs Hr Hv Ha.
  unfold parseWithParser.
  rewrite Hb, H1, H2, H3, H4, Hdo, Hs, Hr, Hv, Ha. reflexivity.
Qed.

(** An occurrence that cannot begin inside [pre] lies in what follows. *)
Lemma prefix_incompatible (t rest sub : string) :
  compatible t sub = false -> String.prefix sub (t +:+ rest) = false.
Proof.
  revert sub. induction t as [|a t IH]; intros [|c sub]; cbn [compatible];
    try discriminate.
  change (String a t +:+ rest) with (String a (t +:+ rest)).
  cbn [String.prefix].
  destruct (ascii_dec c a) as [->|Hne].
  - rewrite Ascii.eqb_refl. cbn [andb]. apply IH.
  - reflexivity.
Qed.

Lemma Contains_no_overlap (pre rest sub : string) :
  overlaps pre sub = false ->
  strings.Contains (pre +:+ rest) sub = strings.Contains rest sub.
Proof.
  induction pre as [|a pre IH]; [reflexivity|].
  cbn [overlaps]. intros [Hc Ho]%orb_false_elim.
  change (String a pre +:+ rest) with (String a (pre +:+ rest)).
  cbn [strings.Contains].
  change (String a (pre +:+ rest)) with (String a pre +:+ rest).
  rewrite (prefix_incompatible _ rest _ Hc). cbn [orb]. by apply IH.
Qed.

Lemma overlaps_without (c : ascii) (d sub : string) :
  without c d = true -> overlaps d (String c sub) = false.
Proof.
  induction d as [|a d IH]; [reflexivity|]. cbn [without overlaps compatible].
  intros [Ha Hd]%andb_prop. apply negb_true_iff in Ha. rewrite Ha.
  cbn [andb orb]. by apply IH.
Qed.

Lemma Contains_without (c : ascii) (d sub : string) :
  without c d = true -> strings.Contains d (String c sub) = false.
Proof.
  induction d as [|a d IH]; [reflexivity|]. cbn [without strings.Contains].
  intros [Ha Hd]%andb_prop. apply negb_true_iff, Ascii.eqb_neq in Ha.
  rewrite (IH Hd), orb_false_r. cbn [String.prefix].
  by destruct (ascii_dec c a).
Qed.

(** [%d] writes decimal digits and at most a minus sign. *)
Lemma pretty_N_go_without (c : ascii) (x : N) :
  (forall k, c <> pretty_N_char k) ->
  forall s, without c s = true -> without c (pretty_N_go x s) = true.
Proof.
  intros Hc. induction (N.lt_wf_0 x) as [x _ IH]; intros s Hs.
  assert (x = 0 \/ 0 < x)%N as [->|Hx] by lia.
  - by rewrite pretty_N_go_0.
  - rewrite pretty_N_go_step by done. apply IH; [by apply N.div_lt|].
    cbn [without]. rewrite Hs, andb_true_r.
    apply negb_true_iff, Ascii.eqb_neq, Hc.
Qed.

Lemma fmt_d_without_p (n : Z) : without "p" (fmt_d n) = true.
Proof.
  assert (Hc : forall k, "p"%char <> pretty_N_char k).
  { intros k. unfold pretty_N_char. by repeat case_match. }
  assert (HN : forall x : N, without "p" (pretty x) = true).
  { intros x. unfold pretty, pretty_N. case_decide; [reflexivity|].
    by apply pretty_N_go_without. }
  unfold fmt_d, pretty, pretty_Z. destruct n as [|q|q]; [reflexivity|..].
  - apply HN.
  - change ("-" +:+ pretty q) with (String "-" (pretty q)).
    cbn [without]. apply HN.
Qed.

(** A resolver that answers with a status other than 200 is never
    answered with [asynq.SkipRetry]. *)
Lemma shouldSkipRetry_http_status (code : Z) :
  shouldSkipRetry (Some (errorString ("parser http status " +:+ fmt_d code)))
  = false.
Proof.
  unfold shouldSkipRetry. cbn [Error_msg].
  rewrite !(Contains_no_overlap "parser http status ") by reflexivity.
  by rewrite !Contains_without by apply fmt_d_without_p.
Qed.

(** For a failure that the resolver reports, the text that it sent along
    decides. *)
Lemma shouldSkipRetry_reported (retcode : Z) (retdesc : string) :
  shouldSkipRetry (Some (errorString ("parser error: " +:+ fmt_d retcode
                                        +:+ " " +:+ retdesc)))
  = strings.Contains retdesc "parser returned no media url"
    || strings.Contains retdesc "parser returned empty media url".
Proof.
  unfold shouldSkipRetry. cbn [Error_msg].
  rewrite !(Contains_no_overlap "parser error: ") by reflexivity.
  rewrite !(Contains_no_overlap (fmt_d retcode))
    by (apply overlaps_without, fmt_d_without_p).
  rewrite !(Contains_no_overlap " ") by reflexivity.
  by destruct (strings.Contains retdesc "parser returned no media url"),
       (strings.Contains retdesc "parser returned empty media url").
Qed.

(** The ways in which a resolution call fails. *)
Lemma parseWithParser_failure (w : parser_world) (cfg : config.Config)
      (sourceURL : string) (e : error) :
  parseWithParser w cfg sourceURL = inl e ->
  e = errorString "PARSER_API_URL is required"
  \/ (pw_joinpath w = Some e \/ pw_random w = Some e
      \/ pw_marshal w = Some e \/ pw_newreq w = Some e)
  \/ pw_do w = inl e
  \/ (exists code body,
         pw_do w = inr (code, body) /\ code <> 200
         /\ e = errorString ("parser http status " +:+ fmt_d code))
  \/ pw_do w = inr (200, inl e)
  \/ (exists parsed,
         pw_do w = inr (200, inr parsed)
         /\ (Succ parsed = false \/ Retcode parsed <> 200)
         /\ e = errorString ("parser error: " +:+ fmt_d (Retcode parsed)
                               +:+ " " +:+ Retdesc parsed))
  \/ (exists parsed,
         pw_do w = inr (200, inr parsed)
         /\ Succ parsed = true /\ Retcode parsed = 200
         /\ strings.TrimSpace (Data_VideoURL parsed) = ""
         /\ strings.TrimSpace (Data_AudioURL parsed) = ""
         /\ e = errorString "parser returned no media url").
Proof.
  unfold parseWithParser.
  destruct (String.eqb (strings.TrimSpace (config.ParserAPIURL cfg)) "");
    [intros [= <-]; by left|].
  destruct (pw_joinpath w) as [e1|]; [intros [= <-]; right; left; tauto|].
  destruct (pw_random w) as [e1|]; [intros [= <-]; right; left; tauto|].
  destruct (pw_marshal w) as [e1|]; [intros [= <-]; right; left; tauto|].
  destruct (pw_newreq w) as [e1|]; [intros [= <-]; right; left; tauto|].
  destruct (pw_do w) as [e1|[code body]];
    [intros [= <-]; right; right; by left|].
  unfold StatusOK.
  destruct (code =? 200) eqn:Ecode; cbn [negb].
  2:{ intros [= <-]. do 3 right. left. exists code, body.
      split; [done|]. split; [lia | done]. }
  apply Z.eqb_eq in Ecode as ->.
  destruct body as [e1|parsed]; [intros [= <-]; do 4 right; by left|].
  destruct (Succ parsed) eqn:Es; cbn [negb orb].
  2:{ intros [= <-]. do 5 right. left. exists parsed.
      split; [done|]. split; [by left | done]. }
  destruct (Retcode parsed =? 200) eqn:Er; cbn [negb].
  2:{ intros [= <-]. do 5 right. left. exists parsed.
      split; [done|]. split; [right; lia | done]. }
  apply Z.eqb_eq in Er.
  destruct (String.eqb (strings.TrimSpace (Data_VideoURL parsed)) "") eqn:Ev;
    cbn [andb]; [|discriminate].
  destruct (String.eqb (strings.TrimSpace (Data_AudioURL parsed)) "") eqn:Ea;
    [|discriminate].
  apply String.eqb_eq in Ev, Ea.
  intros [= <-]. do 6 right. exists parsed. by repeat split.
Qed.

(** C3, as the code has it.  When the resolution call fails with [e] (the
    scratch directory and the first status update being in order), the
    worker issues the update to [failed] with the message of [e] cut at 800
    bytes and drops the outcome of that update, so that an existing row
    reads [failed] afterwards if the driver executes it.  The dispatcher is
    told not to requeue exactly when the message of [e] contains "parser
    returned no media url" or "parser returned empty media url"; otherwise
    [e] itself goes back to the dispatcher.  So an answer without media is
    never requeued; a status other than 200 is always handed back as it is;
    a failure that the resolver reports is handed back as it is unless the
    description it sent contains one of the two phrases; and [e] is one of
    the errors listed by [parseWithParser_failure]. *)
Theorem resolution_failure_marks_failed
        (w : job_world) (cfg : config.Config) (st : Store)
        (p : queue.ProcessPayload) (e : error) :
  jw_mkdir w = None ->
  jw_dbfault w AtDownloading = None ->
  parseWithParser (jw_parser w) cfg (queue.SourceURL p) = inl e ->
  let id := queue.JobID p in
  let msg := truncate (Error_msg e) 800 in
  let st1 := (UpdateJobStatus (jw_now w AtDownloading) None st id
                              jobs.StatusDownloading None None).1 in
  let res := processJob w cfg st p in
  let pw := jw_parser w in
  res.1 = (UpdateJobStatus (jw_now w AtFailed) (jw_dbfault w AtFailed) st1 id
                           jobs.StatusFailed (Some msg) None).1
  /\ (forall j, jw_dbfault w AtFailed = None ->
                GetJob None st id = Found j ->
                exists j', GetJob None res.1 id = Found j'
                           /\ Status j' = jobs.StatusFailed
                           /\ Error j' = Some msg /\ MP3URL j' = None)
  /\ (jw_dbfault w AtFailed <> None -> res.1 = st1)
  /\ res.2 = Some (if shouldSkipRetry (Some e) then wrapSkipRetry msg else e)
  /\ (shouldSkipRetry (Some e) = true <->
      strings.Contains (Error_msg e) "parser returned no media url" = true
      \/ strings.Contains (Error_msg e) "parser returned empty media url" = true)
  /\ (e = errorString "parser returned no media url" ->
      res.2 = Some (wrapSkipRetry "parser returned no media url"))
  /\ (forall code,
         e = errorString ("parser http status " +:+ fmt_d code) ->
         res.2 = Some e)
  /\ (forall retcode retdesc,
         e = errorString ("parser error: " +:+ fmt_d retcode
                            +:+ " " +:+ retdesc) ->
         res.2 = Some (if strings.Contains retdesc "parser returned no media url"
                          || strings.Contains retdesc
                                              "parser returned empty media url"
                       then wrapSkipRetry msg else e))
  /\ (e = errorString "PARSER_API_URL is required"
      \/ (pw_joinpath pw = Some e \/ pw_random pw = Some e
          \/ pw_marshal pw = Some e \/ pw_newreq pw = Some e)
      \/ pw_do pw = inl e
      \/ (exists code body,
             pw_do pw = inr (code, body) /\ code <> 200
             /\ e = errorString ("parser http status " +:+ fmt_d code))
      \/ pw_do pw = inr (200, inl e)
      \/ (exists parsed,
             pw_do pw = inr (200, inr parsed)
             /\ (Succ parsed = false \/ Retcode parsed <> 200)
             /\ e = errorString ("parser error: " +:+ fmt_d (Retcode parsed)
                                   +:+ " " +:+ Retdesc parsed))
      \/ (exists parsed,
             pw_do pw = inr (200, inr parsed)
             /\ Succ parsed = true /\ Retcode parsed = 200
             /\ strings.TrimSpace (Data_VideoURL parsed) = ""
             /\ strings.TrimSpace (Data_AudioURL parsed) = ""
             /\ e = errorString "parser returned no media url")).
Proof.
  intros Hmk Hdb Hparse id msg st1 res pw.
  assert (Hres : res = recordFailure (jw_now w AtFailed) (jw_dbfault w AtFailed)
                                     st1 id (Some e))
    by (by apply processJob_resolution_failure).
  assert (H1 : res.1 = (UpdateJobStatus (jw_now w AtFailed) (jw_dbfault w AtFailed)
                          st1 id jobs.StatusFailed (Some msg) None).1).
  { rewrite Hres. unfold recordFailure.
    by destruct (shouldSkipRetry (Some e)). }
  assert (H2 : res.2 = Some (if shouldSkipRetry (Some e)
                             then wrapSkipRetry msg else e))
    by (rewrite Hres; apply recordFailure_result).
  split; [exact H1|]. split.
  { intros j Hf Hget. rewrite H1, Hf. eexists. split.
    - apply UpdateJobStatus_lookup. unfold st1.
      apply UpdateJobStatus_lookup. exact Hget.
    - done. }
  split.
  { intros Hf. rewrite H1. unfold UpdateJobStatus.
    by destruct (jw_dbfault w AtFailed). }
  split; [exact H2|]. split.
  { unfold shouldSkipRetry.
    destruct (strings.Contains (Error_msg e) "parser returned no media url");
      destruct (strings.Contains (Error_msg e) "parser returned empty media url");
      intuition congruence. }
  split; [intros ->; rewrite H2; reflexivity|].
  split; [intros code ->; by rewrite H2, shouldSkipRetry_http_status|].
  split; [intros retcode retdesc ->; by rewrite H2, shouldSkipRetry_reported|].
  by apply (parseWithParser_failure pw cfg (queue.SourceURL p)).
Qed.

End ResolutionFailure.

(** ** The resumable fetcher *)

Section Fetcher.
Import worker trace.

Lemma downloadOnce_requests (w : attempt_world) (fs : FS)
      (sourceURL destPath referer : string) (timeout : Z) :
  (downloadOnce w fs sourceURL destPath referer timeout).1.2 = []
  \/ (downloadOnce w fs sourceURL destPath referer timeout).1.2
     = [build_request fs sourceURL destPath referer timeout].
Proof.
  unfold downloadOnce. repeat case_match; simpl; auto.
Qed.

Lemma stat_offset_absent (fs : FS) (destPath : string) :
  fs !! destPath = None -> stat_offset fs destPath = 0.
Proof. unfold stat_offset. by intros ->. Qed.

Lemma build_request_no_file (fs : FS) (sourceURL destPath referer : string)
      (timeout : Z) :
  fs !! destPath = None ->
  req_range (build_request fs sourceURL destPath referer timeout) = None.
Proof.
  intros H. unfold build_request. simpl. by rewrite stat_offset_absent.
Qed.

(** An attempt that starts without a file and is answered by 200 or 206
    leaves exactly the body in the file. *)
Lemma downloadOnce_from_zero (w : attempt_world) (fs : FS)
      (sourceURL destPath referer : string) (timeout : Z) (resp : Response) :
  fs !! destPath = None ->
  aw_newreq w = None ->
  aw_do w (build_request fs sourceURL destPath referer timeout) = inr resp ->
  StatusCode resp = StatusOK \/ StatusCode resp = StatusPartialContent ->
  aw_open w = None ->
  (downloadOnce w fs sourceURL destPath referer timeout).1.1 !! destPath
  = Some (Body resp).
Proof.
  intros Hfs Hnew Hdo Hcode Hopen. unfold downloadOnce.
  rewrite Hnew, Hdo, Hopen, (stat_offset_absent _ _ Hfs).
  destruct Hcode as [-> | ->]; simpl;
    destruct (BodyErr resp); simpl; by rewrite lookup_insert_eq.
Qed.

Lemma downloadOnce_416 (w : attempt_world) (fs : FS)
      (sourceURL destPath referer : string) (timeout : Z) (resp : Response) :
  aw_newreq w = None ->
  aw_do w (build_request fs sourceURL destPath referer timeout) = inr resp ->
  StatusCode resp = StatusRequestedRangeNotSatisfiable ->
  downloadOnce w fs sourceURL destPath referer timeout
  = (delete destPath fs,
     [build_request fs sourceURL destPath referer timeout],
     Some (downloadError (http_status_error 416) true)).
Proof.
  intros Hnew Hdo Hcode. unfold downloadOnce.
  rewrite Hnew, Hdo, Hcode. reflexivity.
Qed.

(** C5.  An attempt that is answered by 416 removes the file at [destPath]
    and fails with a retryable error.  Whatever the next attempt meets, its
    request carries no Range header, and if it is answered by 200 or 206 the
    file is the body of that answer, written from byte 0.  In the retry
    loop, unless this was the last attempt or the caller cancelled during
    the back-off, that next attempt follows. *)
Theorem range_not_satisfiable_restarts_from_zero
        (w : attempt_world) (fs : FS)
        (sourceURL destPath referer : string) (timeout : Z) (resp : Response) :
  aw_newreq w = None ->
  aw_do w (build_request fs sourceURL destPath referer timeout) = inr resp ->
  StatusCode resp = StatusRequestedRangeNotSatisfiable ->
  let res := downloadOnce w fs sourceURL destPath referer timeout in
  let fs' := res.1.1 in
  fs' = delete destPath fs
  /\ fs' !! destPath = None
  /\ res.2 = Some (downloadError (http_status_error 416) true)
  /\ isRetryableDownload res.2 = true
  /\ (forall w2 : attempt_world,
        let next := downloadOnce w2 fs' sourceURL destPath referer timeout in
        req_range (build_request fs' sourceURL destPath referer timeout) = None
        /\ (forall r, r ∈ next.1.2 -> req_range r = None)
        /\ (forall resp2,
              aw_newreq w2 = None ->
              aw_do w2 (build_request fs' sourceURL destPath referer timeout)
              = inr resp2 ->
              StatusCode resp2 = StatusOK
              \/ StatusCode resp2 = StatusPartialContent ->
              aw_open w2 = None ->
              next.1.1 !! destPath = Some (Body resp2)))
  /\ (forall (fw : fetch_world) (n : nat) (attempt : Z) (lastErr : option error),
        fw_attempt fw attempt = w ->
        attempt <> maxAttempts ->
        fw_cancelled fw attempt = false ->
        downloadLoop fw (S n) attempt lastErr fs
                     sourceURL destPath referer timeout
        = let '(fs2, evs, r) :=
            downloadLoop fw n (attempt + 1) res.2 fs'
                         sourceURL destPath referer timeout in
          (fs2,
           Sent attempt (build_request fs sourceURL destPath referer timeout)
             :: Slept (attempt * Second) :: evs,
           r)).
Proof.
  intros Hnew Hdo Hcode res fs'.
  assert (Hres : res = (delete destPath fs,
                        [build_request fs sourceURL destPath referer timeout],
                        Some (downloadError (http_status_error 416) true)))
    by (by apply (downloadOnce_416 w fs _ _ _ _ resp)).
  assert (Hfs : fs' = delete destPath fs) by (unfold fs'; by rewrite Hres).
  assert (Hnone : fs' !! destPath = None)
    by (rewrite Hfs; apply lookup_delete_eq).
  split; [exact Hfs|]. split; [exact Hnone|].
  split; [by rewrite Hres|]. split; [by rewrite Hres|]. split.
  - intros w2 next.
    assert (Hrange : req_range (build_request fs' sourceURL destPath referer timeout)
                     = None) by (by apply build_request_no_file).
    split; [exact Hrange|]. split.
    + intros r Hr. unfold next in Hr.
      destruct (downloadOnce_requests w2 fs' sourceURL destPath referer timeout)
        as [E | E]; rewrite E in Hr.
      * by apply elem_of_nil in Hr.
      * apply list_elem_of_singleton in Hr. by subst r.
    + intros resp2 H1 H2 H3 H4. by apply (downloadOnce_from_zero w2 fs').
  - intros fw n attempt lastErr Hw Hlast Hcancel.
    cbn [downloadLoop]. rewrite Hw. fold res. rewrite Hres. cbn [fst snd].
    assert ((attempt =? maxAttempts) = false) as -> by (by apply Z.eqb_neq).
    rewrite Hcancel. cbn [isRetryableDownload negb orb List.map].
    unfold fs'. rewrite Hres. cbn [fst snd].
    destruct (downloadLoop fw n (attempt + 1) _ _ _ _ _ _) as [[fs2 evs] r].
    reflexivity.
Qed.

Lemma requests_app (l1 l2 : list fetch_event) :
  requests (l1 ++ l2) = requests l1 ++ requests l2.
Proof.
  induction l1 as [|[a r|d|d] l1 IH]; simpl; [done| |done|done].
  by rewrite IH.
Qed.









End Fetcher.

(** ** The rate limiter *)

Section RateLimiter.
Import api limiter.

Lemma cleanupLocked_params (rl : rateLimiter) (now : Z) :
  limit (cleanupLocked rl now) = limit rl
  /\ window (cleanupLocked rl now) = window rl.
Proof. unfold cleanupLocked. by case_match. Qed.

(** The sweep of expired windows keeps every window that is still open. *)
Lemma cleanupLocked_keeps (rl : rateLimiter) (now : Z) (k : string)
      (e : rateEntry) :
  entries rl !! k = Some e ->
  now <= reset e ->
  entries (cleanupLocked rl now) !! k = Some e.
Proof.
  intros He Hopen. unfold cleanupLocked. case_match; [exact He|].
  cbn [entries]. apply map_lookup_filter_Some. split; [exact He|].
  unfold Time_After. simpl. lia.
Qed.

Lemma allow_params (rl : rateLimiter) (key : string) (now untilNow : Z) :
  limit (allow rl key now untilNow).1 = limit rl
  /\ window (allow rl key now untilNow).1 = window rl.
Proof.
  unfold allow. case_match; [done|].
  repeat case_match; cbn [fst];
    (split; [rewrite (proj1 (cleanupLocked_params _ _))
            | rewrite (proj2 (cleanupLocked_params _ _))]; done).
Qed.

(** The first request of a window: no entry for the key, or one whose
    window has elapsed. *)
Lemma allow_opens (rl : rateLimiter) (key : string) (now untilNow : Z) :
  0 < limit rl -> 0 < window rl ->
  (entries rl !! key = None
   \/ exists e, entries rl !! key = Some e /\ reset e < now) ->
  (allow rl key now untilNow).2 = (true, 0, limit rl - 1)
  /\ entries (allow rl key now untilNow).1 !! key
     = Some (mkRateEntry 1 (now + window rl)).
Proof.
  intros HL HW Hfresh. unfold allow.
  assert (((limit rl <=? 0) || (window rl <=? 0)) = false) as ->
    by (apply orb_false_iff; lia).
  assert (match entries rl !! key with
          | None => (mkRateEntry 0 (now + window rl),
                     <[key := mkRateEntry 0 (now + window rl)]> (entries rl))
          | Some e =>
              if Time_After now (reset e)
              then (mkRateEntry 0 (now + window rl),
                    <[key := mkRateEntry 0 (now + window rl)]> (entries rl))
              else (e, entries rl)
          end
          = (mkRateEntry 0 (now + window rl),
             <[key := mkRateEntry 0 (now + window rl)]> (entries rl))) as ->.
  { destruct Hfresh as [-> | (e & -> & He)]; [done|].
    unfold Time_After. by assert ((now >? reset e) = true) as -> by lia. }
  cbn [count reset].
  assert ((0 >=? limit rl) = false) as -> by lia.
  cbn [fst snd]. split; [f_equal; lia|].
  apply cleanupLocked_keeps; cbn [entries reset]; [|lia].
  by rewrite lookup_insert_eq.
Qed.

(** A request inside the window of its key. *)
Lemma allow_in_window (rl : rateLimiter) (key : string) (now untilNow : Z)
      (e : rateEntry) :
  0 < limit rl -> 0 < window rl ->
  entries rl !! key = Some e ->
  now <= reset e ->
  let res := allow rl key now untilNow in
  (count e < limit rl ->
   res.2 = (true, 0, limit rl - (count e + 1))
   /\ entries res.1 !! key = Some (mkRateEntry (count e + 1) (reset e)))
  /\ (limit rl <= count e ->
      res.2 = (false, Z.max 0 (Time_Sub (reset e) untilNow), 0)
      /\ entries res.1 !! key = Some e).
Proof.
  intros HL HW He Hopen res. unfold res, allow.
  assert (((limit rl <=? 0) || (window rl <=? 0)) = false) as ->
    by (apply orb_false_iff; lia).
  rewrite He. unfold Time_After.
  assert ((now >? reset e) = false) as -> by lia.
  split; intros Hc.
  - assert ((count e >=? limit rl) = false) as -> by lia.
    cbn [fst snd count reset]. split; [done|].
    apply cleanupLocked_keeps; cbn [entries reset]; [|lia].
    by rewrite lookup_insert_eq.
  - assert ((count e >=? limit rl) = true) as -> by lia.
    cbn [fst snd]. split.
    + f_equal. f_equal. case_match; lia.
    + by apply cleanupLocked_keeps.
Qed.

(** A request of another client leaves an open window alone. *)
Lemma allow_other_key (rl : rateLimiter) (key other : string)
      (now untilNow : Z) (e : rateEntry) :
  other <> key ->
  entries rl !! key = Some e ->
  now <= reset e ->
  entries (allow rl other now untilNow).1 !! key = Some e.
Proof.
  intros Hne He Hopen. unfold allow. case_match; [exact He|].
  repeat case_match; simplify_eq; cbn [fst];
    apply cleanupLocked_keeps; cbn [entries]; try done;
    rewrite ?lookup_insert_ne by done; done.
Qed.

Lemma Time_Sub_floor_bound (r untilNow W : Z) :
  0 < W -> r - W <= untilNow ->
  0 <= Z.max 0 (Time_Sub r untilNow) <= W.
Proof.
  intros HW Hu. unfold Time_Sub, maxDuration, minDuration.
  repeat case_match; lia.
Qed.

Lemma answers_to_cons_same (k : string) (res : bool * Z * Z)
      (l : list (string * (bool * Z * Z))) :
  answers_to k ((k, res) :: l) = res :: answers_to k l.
Proof. unfold answers_to. cbn [List.filter fst]. by rewrite String.eqb_refl. Qed.

Lemma answers_to_cons_other (k other : string) (res : bool * Z * Z)
      (l : list (string * (bool * Z * Z))) :
  other <> k -> answers_to k ((other, res) :: l) = answers_to k l.
Proof.
  intros H%String.eqb_neq. unfold answers_to. cbn [List.filter fst].
  by rewrite H.
Qed.

(** The answers to one key while its window [(c, r)] is open, with the
    requests of other clients in between. *)
Lemma serve_in_window (k : string) (r : Z) (arrs : list arrival) :
  forall (rl : rateLimiter) (c : Z),
    0 < limit rl -> 0 < window rl ->
    entries rl !! k = Some (mkRateEntry c r) ->
    Forall (fun a => arr_now a <= r /\ r - window rl <= arr_until a) arrs ->
    (forall (i : nat) res,
        answers_to k (serve rl arrs).2 !! i = Some res ->
        (c + Z.of_nat i < limit rl ->
         res = (true, 0, limit rl - (c + Z.of_nat i) - 1))
        /\ (limit rl <= c + Z.of_nat i ->
            exists ra, res = (false, ra, 0) /\ 0 <= ra <= window rl))
    /\ (exists c', entries (serve rl arrs).1 !! k = Some (mkRateEntry c' r))
    /\ limit (serve rl arrs).1 = limit rl
    /\ window (serve rl arrs).1 = window rl.
Proof.
  induction arrs as [|a arrs IH]; intros rl c HL HW He Hall.
  { simpl. split; [intros i res Hi; by destruct i|]. split; [by exists c|done]. }
  apply Forall_cons in Hall as [[Hnow Huntil] Hall].
  cbn [serve].
  pose proof (allow_params rl (arr_key a) (arr_now a) (arr_until a)) as [HpL HpW].
  destruct (allow rl (arr_key a) (arr_now a) (arr_until a)) as [rl1 res1] eqn:Ea.
  cbn [fst] in HpL, HpW.
  destruct (String.eqb (arr_key a) k) eqn:Ek.
  - apply String.eqb_eq in Ek.
    pose proof (allow_in_window rl k (arr_now a) (arr_until a) _ HL HW He Hnow)
      as [Hless Hfull].
    rewrite <- Ek, Ea in Hless, Hfull. cbn [fst snd count reset] in Hless, Hfull.
    destruct (Z_lt_le_dec c (limit rl)) as [Hc | Hc].
    + destruct (Hless Hc) as [-> He1].
      rewrite Ek in He1.
      destruct (IH rl1 (c + 1) ltac:(lia) ltac:(lia) He1
                   ltac:(by rewrite HpW)) as (Hans & Hent & HL' & HW').
      destruct (serve rl1 arrs) as [rl2 rest]. cbn [fst snd] in *.
      split; [|split; [exact Hent | split; congruence]].
      intros i res. rewrite Ek, answers_to_cons_same, lookup_cons.
      destruct i as [|i].
      * intros [= <-]. split; [intros _; f_equal; lia | lia].
      * intros Hi. specialize (Hans i res Hi). rewrite HpL, HpW in Hans.
        destruct Hans as [H1 H2]. split; intros H.
        -- rewrite H1 by lia. f_equal. lia.
        -- apply H2. lia.
    + destruct (Hfull Hc) as [-> He1].
      rewrite Ek in He1.
      destruct (IH rl1 c ltac:(lia) ltac:(lia) He1
                   ltac:(by rewrite HpW)) as (Hans & Hent & HL' & HW').
      destruct (serve rl1 arrs) as [rl2 rest]. cbn [fst snd] in *.
      split; [|split; [exact Hent | split; congruence]].
      intros i res. rewrite Ek, answers_to_cons_same, lookup_cons.
      destruct i as [|i].
      * intros [= <-]. split; [lia|]. intros _. eexists. split; [reflexivity|].
        by apply Time_Sub_floor_bound.
      * intros Hi. specialize (Hans i res Hi). rewrite HpL, HpW in Hans.
        destruct Hans as [H1 H2]. split; intros H; [lia|]. apply H2. lia.
  - apply String.eqb_neq in Ek.
    pose proof (allow_other_key rl k (arr_key a) (arr_now a) (arr_until a) _
                  Ek He Hnow) as He1.
    rewrite Ea in He1. cbn [fst] in He1.
    destruct (IH rl1 c ltac:(lia) ltac:(lia) He1
                 ltac:(by rewrite HpW)) as (Hans & Hent & HL' & HW').
    destruct (serve rl1 arrs) as [rl2 rest]. cbn [fst snd] in *.
    split; [|split; [exact Hent | split; congruence]].
    intros i res. rewrite answers_to_cons_other by done.
    intros Hi. specialize (Hans i res Hi). by rewrite HpL, HpW in Hans.
Qed.

(** The [Retry-After] header for a wait of at most one minute is between 1
    and 60 seconds. *)
Lemma retry_after_seconds_bound (retryAfter : Z) :
  0 <= retryAfter <= Minute ->
  let seconds := Duration_Seconds (Duration_Round retryAfter Second) in
  1 <= (if seconds <? 1 then 1 else seconds) <= 60.
Proof.
  intros Hr. unfold Duration_Seconds, Duration_Round, Minute, Second,
    maxDuration, minDuration in *.
  assert ((1000000000 <=? 0) = false) as -> by reflexivity.
  assert ((retryAfter <? 0) = false) as -> by lia.
  rewrite Z.rem_mod_nonneg by lia.
  pose proof (Z.div_mod retryAfter 1000000000 ltac:(lia)) as Hdm.
  pose proof (Z.mod_pos_bound retryAfter 1000000000 ltac:(lia)) as Hm.
  set (q := retryAfter / 1000000000) in *.
  set (m := retryAfter mod 1000000000) in *.
  assert (Hq : 0 <= q <= 60) by (unfold q; split;
    [apply Z.div_pos; lia | apply Z.div_le_upper_bound; lia]).
  destruct (m + m <? 1000000000) eqn:Eh.
  - replace (retryAfter - m) with (q * 1000000000) by lia.
    rewrite Z.quot_mul by lia. case_match; lia.
  - assert ((retryAfter + 1000000000 - m >? 2 ^ 63 - 1) = false) as -> by lia.
    replace (retryAfter + 1000000000 - m) with ((q + 1) * 1000000000) by lia.
    rewrite Z.quot_mul by lia.
    assert (q < 60) by lia. case_match; lia.
Qed.

(** C7.  Let no window be open for a key when its request arrives at [t0].
    Whatever requests follow while that window lasts (those of the key and
    those of other clients, in any order), the answers to the key are: the
    first [limit] ones admitted, with the remaining budget counting down
    from [limit - 1] to 0; every later one rejected with a wait between 0
    and the width of the window (for the one-minute window of the
    middleware a [Retry-After] between 1 and 60 seconds).  A request of the
    key after the window has elapsed is admitted again. *)
Theorem rate_limit_fixed_window
        (rl : rateLimiter) (k : string) (t0 u0 : Z) (rest : list arrival) :
  0 < limit rl ->
  0 < window rl ->
  (entries rl !! k = None
   \/ exists e, entries rl !! k = Some e /\ reset e < t0) ->
  Forall (fun a => t0 <= arr_now a <= t0 + window rl
                   /\ arr_now a <= arr_until a) rest ->
  let out := serve rl (mkArrival k t0 u0 :: rest) in
  (forall (i : nat) res,
      answers_to k out.2 !! i = Some res ->
      (Z.of_nat i < limit rl -> res = (true, 0, limit rl - 1 - Z.of_nat i))
      /\ (limit rl <= Z.of_nat i ->
          exists ra, res = (false, ra, 0) /\ 0 <= ra <= window rl))
  /\ (forall t u, t0 + window rl < t ->
                  (allow out.1 k t u).2 = (true, 0, limit rl - 1))
  /\ (forall ra, 0 <= ra <= Minute ->
                 1 <= (let seconds := Duration_Seconds (Duration_Round ra Second) in
                       if seconds <? 1 then 1 else seconds) <= 60).
Proof.
  intros HL HW Hfresh Hall out.
  split; [|split; [|apply retry_after_seconds_bound]].
  - unfold out. cbn [serve arr_key arr_now arr_until].
    pose proof (allow_opens rl k t0 u0 HL HW Hfresh) as [Hres He1].
    pose proof (allow_params rl k t0 u0) as [HpL HpW].
    destruct (allow rl k t0 u0) as [rl1 res1]. cbn [fst snd] in *. subst res1.
    assert (Hall' : Forall (fun a => arr_now a <= t0 + window rl
                                     /\ t0 + window rl - window rl1 <= arr_until a)
                           rest).
    { eapply Forall_impl; [exact Hall|]. intros a Ha. simpl in Ha |- *. lia. }
    destruct (serve_in_window k (t0 + window rl) rest rl1 1
                ltac:(lia) ltac:(lia) He1 Hall') as (Hans & _).
    destruct (serve rl1 rest) as [rl2 answers]. cbn [fst snd] in *.
    intros i res. rewrite answers_to_cons_same, lookup_cons.
    destruct i as [|i].
    + intros [= <-]. split; [intros _; f_equal; lia | lia].
    + intros Hi. specialize (Hans i res Hi). rewrite HpL, HpW in Hans.
      destruct Hans as [H1 H2]. split; intros H.
      * rewrite H1 by lia. f_equal. lia.
      * apply H2. lia.
  - intros t u Ht. unfold out. cbn [serve arr_key arr_now arr_until].
    pose proof (allow_opens rl k t0 u0 HL HW Hfresh) as [_ He1].
    pose proof (allow_params rl k t0 u0) as [HpL HpW].
    destruct (allow rl k t0 u0) as [rl1 res1]. cbn [fst snd] in *.
    assert (Hall' : Forall (fun a => arr_now a <= t0 + window rl
                                     /\ t0 + window rl - window rl1 <= arr_until a)
                           rest).
    { eapply Forall_impl; [exact Hall|]. intros a Ha. simpl in Ha |- *. lia. }
    destruct (serve_in_window k (t0 + window rl) rest rl1 1
                ltac:(lia) ltac:(lia) He1 Hall') as (_ & [c' He2] & HL2 & HW2).
    destruct (serve rl1 rest) as [rl2 answers]. cbn [fst snd] in *.
    destruct (allow_opens rl2 k t u) as [Hr _]; [lia | lia | |].
    + right. eexists. split; [exact He2|]. simpl. lia.
    + rewrite Hr. f_equal. lia.
Qed.

End RateLimiter.

(** ** The status stream *)

Section StatusStream.
Import store api stream.
Variable url_Parse : string -> option URL.
Variable format_RFC3339 : Z -> string.
Variable PresignedGetObject : string -> Z -> error + string.

Local Abbreviation build :=
  (buildJobResponse url_Parse format_RFC3339 PresignedGetObject).
Local Abbreviation loop :=
  (streamLoop url_Parse format_RFC3339 PresignedGetObject).
Local Abbreviation events :=
  (streamJobEvents url_Parse format_RFC3339 PresignedGetObject).







End StatusStream.

(** ** The retention sweeper *)

Section RetentionSweeper.
Import store api.
Variable url_Parse : string -> option URL.

Local Abbreviation matching before st :=
  (List.filter (created_before before) st).

Lemma ListJobsBefore_page (st : Store) (before : Z) :
  ListJobsBefore None st before 200
  = (take 200 (merge_sort older_first (matching before st)), None).
Proof. reflexivity. Qed.

Lemma ListJobsBefore_page_length (st : Store) (before : Z) :
  List.length (ListJobsBefore None st before 200).1
  = Nat.min 200 (List.length (matching before st)).
Proof.
  rewrite ListJobsBefore_page. cbn [fst]. rewrite length_take.
  by rewrite (Permutation_length (merge_sort_Permutation older_first _)).
Qed.

(** With 200 or more rows before the cutoff, every page query returns a
    full page, the same one each time, and the loop goes round again. *)
Lemma sweepLoop_full_page (w : sweep_world) (cfg : config.Config)
      (st : Store) (before : Z) :
  (forall page, sw_list_fault w page = None) ->
  (200 <= List.length (matching before st))%nat ->
  forall (fuel page : nat) (bucket : gset string) (deletedObjects : Z),
    sweepLoop url_Parse fuel w cfg st before page bucket deletedObjects = None.
Proof.
  intros Hhealthy Hmany.
  induction fuel as [|fuel IH]; intros page bucket deleted; [reflexivity|].
  cbn [sweepLoop]. rewrite Hhealthy.
  pose proof (ListJobsBefore_page_length st before) as Hlen.
  destruct (ListJobsBefore None st before 200) as [items oe] eqn:El.
  rewrite ListJobsBefore_page in El. injection El as <- <-.
  cbn [fst] in Hlen. rewrite Hlen, Nat.min_l by exact Hmany.
  cbn [Nat.eqb Nat.ltb Nat.leb].
  destruct (sweepPage _ _ _ _ _ _) as [bucket' deleted'].
  apply IH.
Qed.

(** C4 does not hold of the code.  When 200 or more rows are older than the
    cutoff and the database answers every page query, [cleanupJobs] does not
    return, however many iterations it is given: the page query has no
    offset and nothing is deleted inside the loop, so the loop reads the
    same full page for ever and never reaches the bulk delete. *)
Theorem cleanupJobs_does_not_return
        (w : sweep_world) (cfg : config.Config) (st : Store)
        (bucket : gset string) (before : Z) :
  (forall page, sw_list_fault w page = None) ->
  (200 <= List.length (matching before st))%nat ->
  forall fuel : nat, cleanupJobs url_Parse fuel w cfg st bucket before = None.
Proof.
  intros Hhealthy Hmany fuel. unfold cleanupJobs.
  by rewrite sweepLoop_full_page.
Qed.

(** With fewer than 200 rows before the cutoff one page is enough: the
    sweep returns, the rows before the cutoff are gone and counted, and no
    other row is touched, whatever the object store answered. *)
Lemma cleanupJobs_short_table (w : sweep_world) (cfg : config.Config)
      (st : Store) (bucket : gset string) (before : Z) (fuel : nat) :
  sw_list_fault w 0%nat = None ->
  sw_delete_fault w = None ->
  (List.length (matching before st) < 200)%nat ->
  exists bucket' deletedObjects,
    cleanupJobs url_Parse (S fuel) w cfg st bucket before
    = Some (List.filter (fun j => negb (created_before before j)) st, bucket',
            (Z.of_nat (List.length (matching before st)), deletedObjects, None))
    /\ bucket' ⊆ bucket
    /\ 0 <= deletedObjects <= Z.of_nat (List.length (matching before st)).
Proof.
  intros Hlist Hdel Hfew. unfold cleanupJobs. cbn [sweepLoop].
  rewrite Hlist.
  pose proof (ListJobsBefore_page_length st before) as Hlen.
  destruct (ListJobsBefore None st before 200) as [items oe] eqn:El.
  rewrite ListJobsBefore_page in El. injection El as <- <-.
  cbn [fst] in Hlen. rewrite Nat.min_r in Hlen by lia.
  set (items := take 200 _) in *.
  assert (Hpage : forall (l : list Job) b d,
             (sweepPage url_Parse (sw_remove w 0%nat) cfg l b d).1 ⊆ b
             /\ d <= (sweepPage url_Parse (sw_remove w 0%nat) cfg l b d).2
                <= d + Z.of_nat (List.length l)).
  { induction l as [|j l IHl]; intros b d; cbn [sweepPage].
    { simpl. split; [done|lia]. }
    destruct (negb (String.eqb (objectKeyFromJob url_Parse cfg j) "")).
    - unfold DeleteObject. destruct (String.eqb _ "").
      + specialize (IHl b d). cbn [length]. split; [apply IHl|lia].
      + destruct (sw_remove w 0%nat _).
        * specialize (IHl b d). cbn [length]. split; [apply IHl|lia].
        * destruct (IHl (b ∖ {[objectKeyFromJob url_Parse cfg j]}) (d + 1))
            as [Hsub Hcount].
          cbn [length]. split; [|lia].
          etransitivity; [exact Hsub|]. apply subseteq_difference_l. done.
    - specialize (IHl b d). cbn [length]. split; [apply IHl|lia]. }
  specialize (Hpage items bucket 0).
  destruct (List.length items =? 0)%nat eqn:E0.
  - apply Nat.eqb_eq in E0. unfold DeleteJobsBefore. rewrite Hdel.
    exists bucket, 0. rewrite <- Hlen, E0. split; [done|]. split; [done|lia].
  - destruct (sweepPage _ _ _ _ _ _) as [bucket' deleted'].
    assert ((List.length items <? 200)%nat = true) as ->
      by (apply Nat.ltb_lt; lia).
    unfold DeleteJobsBefore. rewrite Hdel.
    exists bucket', deleted'. cbn [fst snd] in Hpage.
    split; [done|]. split; [apply Hpage|lia].
Qed.

End RetentionSweeper.

(** * Further properties of the code *)

(** ** The job record store: keys, lookups and frames *)

Section StoreRoundTrips.
Import store.

#[local] Instance older_first_is_total : Total older_first.
Proof. intros a b. unfold older_first. lia. Qed.
#[local] Instance older_first_is_transitive : Transitive older_first.
Proof. intros a b c. unfold older_first. lia. Qed.

Lemma existsb_has_id_find (id : string) (s : Store) :
  existsb (has_id id) s = false <-> List.find (has_id id) s = None.
Proof.
  induction s as [|x s IH]; simpl; [done|].
  destruct (has_id id x); simpl; [split; discriminate | exact IH].
Qed.

Lemma find_app_none (id : string) (s t : Store) :
  List.find (has_id id) s = None ->
  List.find (has_id id) (s ++ t) = List.find (has_id id) t.
Proof.
  induction s as [|x s IH]; simpl; [done|].
  destruct (has_id id x); [discriminate | exact IH].
Qed.

Lemma find_app_some (id : string) (s t : Store) (j : Job) :
  List.find (has_id id) s = Some j ->
  List.find (has_id id) (s ++ t) = Some j.
Proof.
  induction s as [|x s IH]; simpl; [discriminate|].
  destruct (has_id id x); [done | exact IH].
Qed.

Lemma CreateJob_fresh_lookup (now : Z) (s : Store) (j : Job) :
  GetJob None s (ID j) = ErrNoRows ->
  GetJob None (CreateJob now None s j).1 (ID j)
  = Found (mkJob (ID j) (SourceURL j) (Platform j) (Status j)
                 (Error j) (MP3URL j) now now).
Proof.
  intros Hfree%GetJob_no_rows.
  pose proof (proj2 (existsb_has_id_find (ID j) s) Hfree) as Hex.
  unfold CreateJob. rewrite Hex. cbn [fst snd].
  unfold GetJob. rewrite find_app_none by exact Hfree.
  cbn [List.find]. unfold has_id at 1. cbn [ID].
  by rewrite String.eqb_refl.
Qed.

(** X1.  Creating a job whose id is not in the table succeeds; the job can
    then be looked up, with both timestamps set to the [NOW()] of the
    insert and every other column as given, and the lookups of all other
    ids answer as before. *)
Theorem CreateJob_then_GetJob (now : Z) (s : Store) (j : Job) :
  GetJob None s (ID j) = ErrNoRows ->
  (CreateJob now None s j).2 = None
  /\ GetJob None (CreateJob now None s j).1 (ID j)
     = Found (mkJob (ID j) (SourceURL j) (Platform j) (Status j)
                    (Error j) (MP3URL j) now now)
  /\ (forall id, id <> ID j ->
                 GetJob None (CreateJob now None s j).1 id = GetJob None s id).
Proof.
  intros Hget. split; [|split; [by apply CreateJob_fresh_lookup|]].
  all: apply GetJob_no_rows in Hget as Hfree.
  all: pose proof (proj2 (existsb_has_id_find (ID j) s) Hfree) as Hex.
  all: unfold CreateJob; rewrite Hex; cbn [fst snd].
  - reflexivity.
  - intros id Hid. unfold GetJob.
    destruct (List.find (has_id id) s) as [x|] eqn:Ef.
    + by rewrite (find_app_some _ _ _ _ Ef).
    + rewrite find_app_none by exact Ef. cbn [List.find].
      unfold has_id at 1. cbn [ID].
      apply not_eq_sym in Hid. apply String.eqb_neq in Hid. by rewrite Hid.
Qed.

(** X2.  Creating a job under an id that a row already carries is refused
    with an error and leaves the table as it is. *)
Theorem CreateJob_duplicate_id (now : Z) (s : Store) (j existing : Job) :
  GetJob None s (ID j) = Found existing ->
  (CreateJob now None s j).1 = s
  /\ exists e, (CreateJob now None s j).2 = Some e.
Proof.
  intros Hget. unfold CreateJob.
  destruct (existsb (has_id (ID j)) s) eqn:Ex.
  - split; [reflexivity | by eexists].
  - apply existsb_has_id_find in Ex. unfold GetJob in Hget.
    by rewrite Ex in Hget.
Qed.

Lemma UpdateJobStatus_columns
      (now : Z) (fault : option error) (s : Store) (id status : string)
      (errMsg mp3URL : option string) :
  let s' := (UpdateJobStatus now fault s id status errMsg mp3URL).1 in
  List.map ID s' = List.map ID s
  /\ List.map SourceURL s' = List.map SourceURL s
  /\ List.map Platform s' = List.map Platform s
  /\ List.map CreatedAt s' = List.map CreatedAt s.
Proof.
  unfold UpdateJobStatus. destruct fault as [e|]; cbn [fst]; [done|].
  repeat split.
  all: rewrite List.map_map; apply List.map_ext; intros j;
       by destruct (has_id id j).
Qed.

Lemma UpdateJobStatus_other_lookup
      (now : Z) (fault : option error) (s : Store) (id status : string)
      (errMsg mp3URL : option string) (other : string) :
  other <> id ->
  GetJob None (UpdateJobStatus now fault s id status errMsg mp3URL).1 other
  = GetJob None s other.
Proof.
  unfold UpdateJobStatus. destruct fault as [e|]; cbn [fst]; [done|].
  intros Hother. unfold GetJob.
    induction s as [|j s IH]; [done|]. cbn [List.map List.find].
    destruct (has_id id j) eqn:E.
    + assert (Hj : has_id other j = false).
      { unfold has_id in *. apply String.eqb_eq in E. apply String.eqb_neq.
        congruence. }
      assert (has_id other (set_status now status errMsg mp3URL j) = false) as ->
        by exact Hj.
      rewrite Hj. exact IH.
    + destruct (has_id other j); [done | exact IH].
Qed.

(** X3.  A status update touches nothing but the status, the error, the
    result reference and the update time: the rows keep their number, their
    order, their ids, source links, platforms and creation times, and the
    lookup of every other id answers with the very same row as before. *)
Theorem UpdateJobStatus_frame
        (now : Z) (fault : option error) (s : Store) (id status : string)
        (errMsg mp3URL : option string) :
  let s' := (UpdateJobStatus now fault s id status errMsg mp3URL).1 in
  List.map ID s' = List.map ID s
  /\ List.map SourceURL s' = List.map SourceURL s
  /\ List.map Platform s' = List.map Platform s
  /\ List.map CreatedAt s' = List.map CreatedAt s
  /\ List.filter (fun j => negb (has_id id j)) s'
     = List.filter (fun j => negb (has_id id j)) s
  /\ (forall other, other <> id -> GetJob None s' other = GetJob None s other).
Proof.
  cbv zeta.
  destruct (UpdateJobStatus_columns now fault s id status errMsg mp3URL)
    as (C1 & C2 & C3 & C4).
  do 4 (split; [assumption|]). clear C1 C2 C3 C4. split.
  - unfold UpdateJobStatus. destruct fault as [e|]; cbn [fst]; [done|].
    induction s as [|j s IH]; [done|]. cbn [List.map List.filter].
    destruct (has_id id j) eqn:E.
    + assert (has_id id (set_status now status errMsg mp3URL j) = true) as ->
        by exact E.
      exact IH.
    + rewrite E. cbn [negb]. by rewrite IH.
  - intros other Hother. by apply UpdateJobStatus_other_lookup.
Qed.

Lemma GetJob_found_id (s : Store) (id : string) (j : Job) :
  GetJob None s id = Found j -> ID j = id.
Proof.
  unfold GetJob. destruct (List.find (has_id id) s) eqn:Ef; [|done].
  intros [= ->]. apply List.find_some in Ef as [_ Ef].
  by apply String.eqb_eq in Ef.
Qed.

(** X4.  After a status update that the driver executed, the lookup of the
    job answers with the new status, error, result reference and update
    time, and with the id, source link, platform and creation time it had
    before. *)
Theorem UpdateJobStatus_then_GetJob
        (now : Z) (s : Store) (id status : string)
        (errMsg mp3URL : option string) (j : Job) :
  GetJob None s id = Found j ->
  GetJob None (UpdateJobStatus now None s id status errMsg mp3URL).1 id
  = Found (mkJob (ID j) (SourceURL j) (Platform j) status errMsg mp3URL
                 (CreatedAt j) now)
  /\ ID j = id.
Proof.
  intros Hget. split.
  - by rewrite (UpdateJobStatus_lookup now s id status errMsg mp3URL j Hget).
  - by apply GetJob_found_id in Hget.
Qed.

(** X5.  A page of old rows holds only rows created before the cutoff,
    oldest first; it has [min limit n] rows, where [n] is the number of rows
    before the cutoff and a limit that is not positive counts as 200; and
    every row before the cutoff that is not on the page is no older than
    the rows on it. *)
Theorem ListJobsBefore_page_contents (s : Store) (before limit : Z) :
  let page := (ListJobsBefore None s before limit).1 in
  let n := List.length (List.filter (created_before before) s) in
  Forall (fun j => CreatedAt j < before) page
  /\ StronglySorted older_first page
  /\ List.length page
     = Nat.min (Z.to_nat (if limit <=? 0 then 200 else limit)) n
  /\ exists rest,
      page ++ rest ≡ₚ List.filter (created_before before) s
      /\ (forall i r, i ∈ page -> r ∈ rest -> CreatedAt i <= CreatedAt r).
Proof.
  unfold ListJobsBefore. cbn [fst].
  set (k := Z.to_nat (if limit <=? 0 then 200 else limit)).
  set (f := List.filter (created_before before) s).
  set (l := merge_sort older_first f).
  assert (Hperm : l ≡ₚ f) by apply merge_sort_Permutation.
  assert (Hsorted : StronglySorted older_first (take k l ++ drop k l)).
  { rewrite take_drop. apply Sorted_StronglySorted; [apply _|].
    apply Sorted_merge_sort; apply _. }
  repeat split.
  - apply Forall_forall. intros j Hj.
    assert (Hin : j ∈ f).
    { rewrite <- Hperm. eapply elem_of_sublist; [exact Hj|].
      apply sublist_take. }
    apply list_elem_of_In, List.filter_In in Hin as [_ Hb].
    unfold created_before in Hb. lia.
  - by apply StronglySorted_app_1_l in Hsorted.
  - rewrite length_take. by rewrite (Permutation_length Hperm).
  - exists (drop k l). split; [by rewrite take_drop|].
    intros i r Hi Hr.
    by apply (StronglySorted_app_1_elem_of _ _ _ _ _ Hsorted).
Qed.

Lemma DeleteJobsBefore_rows (s : Store) (before : Z) (j : Job) :
  j ∈ (DeleteJobsBefore None s before).1 <-> j ∈ s /\ before <= CreatedAt j.
Proof.
  unfold DeleteJobsBefore. cbn [fst snd].
  rewrite !list_elem_of_In, List.filter_In. unfold created_before.
  split; intros [H1 H2]; (split; [exact H1|]).
  - apply negb_true_iff in H2. lia.
  - apply negb_true_iff. lia.
Qed.

Lemma DeleteJobsBefore_sublist (s : Store) (before : Z) :
  (DeleteJobsBefore None s before).1 `sublist_of` s.
Proof.
  unfold DeleteJobsBefore. cbn [fst snd].
  induction s as [|j s IH]; [done|]. cbn [List.filter].
  destruct (negb (created_before before j)).
  - by apply sublist_skip.
  - by apply sublist_cons.
Qed.

Lemma DeleteJobsBefore_count (s : Store) (before : Z) :
  (DeleteJobsBefore None s before).2.1
  + Z.of_nat (List.length (DeleteJobsBefore None s before).1)
  = Z.of_nat (List.length s).
Proof.
  unfold DeleteJobsBefore. cbn [fst snd].
  induction s as [|j s IH]; [done|]. cbn [List.filter].
  destruct (created_before before j); cbn [negb length]; lia.
Qed.

(** X6.  The bulk delete removes exactly the rows created before the cutoff
    and reports their number: what is left are the rows at or after the
    cutoff, in their order, so no such row is ever deleted, and rows deleted
    plus rows left make up the table. *)
Theorem DeleteJobsBefore_exact (s : Store) (before : Z) :
  let s' := (DeleteJobsBefore None s before).1 in
  let deleted := (DeleteJobsBefore None s before).2.1 in
  (DeleteJobsBefore None s before).2.2 = None
  /\ (forall j, j ∈ s' <-> j ∈ s /\ before <= CreatedAt j)
  /\ s' `sublist_of` s
  /\ deleted = Z.of_nat (List.length (List.filter (created_before before) s))
  /\ deleted + Z.of_nat (List.length s') = Z.of_nat (List.length s).
Proof.
  cbv zeta. split; [reflexivity|].
  split; [intros j; apply DeleteJobsBefore_rows|].
  split; [apply DeleteJobsBefore_sublist|].
  split; [reflexivity | apply DeleteJobsBefore_count].
Qed.

(** X7.  The bulk delete is idempotent: run again with the same cutoff on
    the table it left, it deletes nothing and reports zero, and a page
    query for that cutoff comes back empty. *)
Theorem DeleteJobsBefore_idempotent (s : Store) (before limit : Z) :
  let s' := (DeleteJobsBefore None s before).1 in
  DeleteJobsBefore None s' before = (s', (0, None))
  /\ ListJobsBefore None s' before limit = ([], None).
Proof.
  cbn zeta.
  assert (Hnone : List.filter (created_before before)
                    (DeleteJobsBefore None s before).1 = []).
  { unfold DeleteJobsBefore. cbn [fst].
    induction s as [|j s IH]; [done|]. cbn [List.filter].
    destruct (created_before before j) eqn:E; cbn [negb]; [exact IH|].
    cbn [List.filter]. by rewrite E. }
  assert (Hall : List.filter (fun j => negb (created_before before j))
                   (DeleteJobsBefore None s before).1
                 = (DeleteJobsBefore None s before).1).
  { clear Hnone. unfold DeleteJobsBefore. cbn [fst].
    induction s as [|j s IH]; [done|]. cbn [List.filter].
    destruct (created_before before j) eqn:E; cbn [negb]; [exact IH|].
    cbn [List.filter]. rewrite E. cbn [negb]. by rewrite IH. }
  split.
  - unfold DeleteJobsBefore at 1. by rewrite Hnone, Hall.
  - unfold ListJobsBefore. rewrite Hnone.
    change (merge_sort older_first []) with (@nil Job). by rewrite take_nil.
Qed.

End StoreRoundTrips.

(** ** Byte strings *)

Section StringFacts.

Lemma string_length_app (s t : string) :
  String.length (s +:+ t) = (String.length s + String.length t)%nat.
Proof. induction s as [|a s IH]; simpl; [done|]. by rewrite IH. Qed.

Lemma string_app_nil_r (s : string) : s +:+ "" = s.
Proof.
  induction s as [|a s IH]; [done|].
  change (String a (s +:+ "") = String a s). by rewrite IH.
Qed.

Lemma string_app_snoc (s t : string) (a : ascii) :
  (s +:+ String a EmptyString) +:+ t = s +:+ String a t.
Proof.
  induction s as [|b s IH]; [done|].
  change (String b ((s +:+ String a EmptyString) +:+ t)
          = String b (s +:+ String a t)).
  by rewrite IH.
Qed.

Lemma substring_0_length (n : nat) (s : string) :
  String.length (String.substring 0 n s) = Nat.min n (String.length s).
Proof.
  revert n. induction s as [|a s IH]; intros [|n]; simpl; try done.
  by rewrite IH.
Qed.

Lemma substring_0_prefix (n : nat) (s : string) :
  String.prefix (String.substring 0 n s) s = true.
Proof.
  revert n. induction s as [|a s IH]; intros [|n]; simpl; try done.
  destruct (ascii_dec a a); [apply IH | done].
Qed.

Lemma substring_0_all (n : nat) (s : string) :
  (String.length s <= n)%nat -> String.substring 0 n s = s.
Proof.
  revert n. induction s as [|a s IH]; intros [|n] H; simpl in *; try done;
    try lia.
  rewrite IH by lia. done.
Qed.

Lemma prefix_app (p s : string) : String.prefix p (p +:+ s) = true.
Proof.
  induction p as [|a p IH]; simpl; [by destruct s|].
  destruct (ascii_dec a a); [exact IH | done].
Qed.

Lemma substring_skip_app (p s : string) :
  String.substring (String.length p) (String.length s) (p +:+ s) = s.
Proof.
  induction p as [|a p IH]; simpl; [|exact IH].
  by apply substring_0_all.
Qed.

Lemma prefix_split (p s : string) :
  String.prefix p s = true ->
  s = p +:+ String.substring (String.length p)
                             (String.length s - String.length p) s.
Proof.
  revert s. induction p as [|a p IH]; intros s H.
  - simpl. rewrite Nat.sub_0_r. by rewrite substring_0_all.
  - destruct s as [|b s]; [done|]. simpl in H.
    destruct (ascii_dec a b) as [->|]; [|done].
    change (String b s
            = String b (p +:+ String.substring (String.length p)
                                (String.length s - String.length p) s)).
    f_equal. by apply IH.
Qed.

End StringFacts.

(** ** The worker: bounded messages, the choice of the media link, the
    outcome of a task *)

Section WorkerOutcome.
Import store worker system.

Lemma truncate_cut (s : string) (max : Z) :
  0 < max ->
  len (truncate s max) <= max + 3
  /\ String.prefix (String.substring 0 (Z.to_nat max) s) (truncate s max) = true.
Proof.
  intros Hmax. unfold truncate, len.
  assert ((max <=? 0) = false) as -> by lia. cbn [orb].
  destruct (Z.of_nat (String.length s) <=? max) eqn:E.
  - split; [lia | apply substring_0_prefix].
  - rewrite string_length_app, substring_0_length.
    split; [simpl; lia | apply prefix_app].
Qed.

(** X8.  For a positive bound, [truncate] returns a string of at most
    [max + 3] bytes that starts with the first [max] bytes of its argument:
    the argument itself when it fits, and otherwise its first [max] bytes
    followed by three dots. *)
Theorem truncate_bounded (s : string) (max : Z) :
  0 < max ->
  len (truncate s max) <= max + 3
  /\ (len s <= max -> truncate s max = s)
  /\ (max < len s ->
      truncate s max = String.substring 0 (Z.to_nat max) s +:+ "..."
      /\ len (truncate s max) = max + 3)
  /\ String.prefix (String.substring 0 (Z.to_nat max) s) (truncate s max) = true.
Proof.
  intros Hmax. destruct (truncate_cut s max Hmax) as [Hb Hp].
  split; [exact Hb|]. split; [|split; [|exact Hp]]; clear Hb Hp.
  all: unfold truncate, len.
  all: assert ((max <=? 0) = false) as -> by lia; cbn [orb].
  all: destruct (Z.of_nat (String.length s) <=? max) eqn:E; try lia.
  - done.
  - intros _. split; [done|].
    rewrite string_length_app, substring_0_length. simpl. lia.
Qed.

(** X9.  Recording a failure always hands an error back to the dispatcher,
    and, when the driver executes the update, leaves the row of the job in
    [failed] with no result reference and with an error message of at most
    803 bytes, whatever the length of the error. *)
Theorem recordFailure_bounded_message
        (now : Z) (fault : option error) (st : Store) (id : string)
        (e : error) (j : Job) :
  GetJob None st id = Found j ->
  (recordFailure now fault st id (Some e)).2 <> None
  /\ (fault = None ->
      exists msg,
        GetJob None (recordFailure now fault st id (Some e)).1 id
        = Found (mkJob (ID j) (SourceURL j) (store.Platform j) jobs.StatusFailed
                       (Some msg) None (CreatedAt j) now)
        /\ len msg <= 803
        /\ String.prefix (String.substring 0 800 (Error_msg e)) msg = true).
Proof.
  intros Hget. split.
  { rewrite recordFailure_result. discriminate. }
  intros ->. exists (truncate (Error_msg e) 800).
  destruct (truncate_cut (Error_msg e) 800 ltac:(lia)) as (Hb & Hp).
  split; [|split; [lia | exact Hp]].
  rewrite recordFailure_store. unfold apply_write.
  exact (UpdateJobStatus_lookup now st id _ _ _ j Hget).
Qed.

Lemma parseWithParser_has_media (w : parser_world) (cfg : config.Config)
      (sourceURL : string) (parsed : parserResult) :
  parseWithParser w cfg sourceURL = inr parsed ->
  strings.TrimSpace (VideoURL parsed) <> ""
  \/ strings.TrimSpace (AudioURL parsed) <> "".
Proof.
  unfold parseWithParser. repeat case_match; try discriminate.
  all: intros [= <-]; cbn [VideoURL AudioURL].
  all: try match goal with
         | H : (_ =? _)%string && (_ =? _)%string = false |- _ =>
             apply andb_false_iff in H as [H|H]
         end.
  all: repeat match goal with
         | H : (_ =? _)%string = false |- _ => apply String.eqb_neq in H
         end; auto.
Qed.

(** X10.  Once the resolver has answered, the worker fetches the audio link
    when that is not blank and the video link otherwise, into
    [filepath.Join(workDir, jobID + ".m4a")] or [".mp4"]; the link it
    fetches is never blank, so the "empty media url" error cannot come out
    of a resolution that succeeded, and the outcome is that of the fetch. *)
Theorem downloadWithParser_picks_media
        (pw : parser_world) (fw : fetch_world) (fs : FS)
        (cfg : config.Config) (workDir sourceURL jobID : string)
        (parsed : parserResult) :
  parseWithParser pw cfg sourceURL = inr parsed ->
  let audio := negb (String.eqb (strings.TrimSpace (AudioURL parsed)) "") in
  let link := if audio then AudioURL parsed else VideoURL parsed in
  let outPath := filepath.Join workDir
                   (jobID +:+ (if audio then ".m4a" else ".mp4")) in
  let fetch := downloadToFile fw fs link outPath sourceURL
                              (config.JobTimeout cfg) in
  strings.TrimSpace link <> ""
  /\ downloadWithParser pw fw fs cfg workDir sourceURL jobID
     = (fetch.1.1, match fetch.2 with
                   | Some e => inl e
                   | None => inr outPath
                   end).
Proof.
  intros Hparse audio link outPath fetch.
  pose proof (parseWithParser_has_media _ _ _ _ Hparse) as Hmedia.
  assert (Hlink : strings.TrimSpace link <> "").
  { unfold link, audio.
    destruct (String.eqb (strings.TrimSpace (AudioURL parsed)) "") eqn:E;
      cbn [negb].
    - apply String.eqb_eq in E. destruct Hmedia; congruence.
    - by apply String.eqb_neq in E. }
  split; [exact Hlink|].
  unfold downloadWithParser. rewrite Hparse.
  unfold fetch, outPath, link, audio in *.
  destruct (negb (String.eqb (strings.TrimSpace (AudioURL parsed)) ""));
    apply String.eqb_neq in Hlink; rewrite Hlink;
    destruct (downloadToFile _ _ _ _ _ _) as [[fs' evs] [e|]]; reflexivity.
Qed.

Lemma UpdateJobStatus_ok_inv now fault (s s' : Store) id status errMsg mp3URL :
  UpdateJobStatus now fault s id status errMsg mp3URL = (s', None) ->
  fault = None
  /\ s' = (UpdateJobStatus now None s id status errMsg mp3URL).1.
Proof.
  unfold UpdateJobStatus. destruct fault; [discriminate|].
  by intros [= <-].
Qed.

(** X11.  A task that reports success has written all three stages: the
    row of its job, if there is one, is [ready], carries the object key
    [jobs/<id>.mp3] and no error, and keeps its id, source link, platform
    and creation time. *)
Theorem processJob_success_is_ready
        (w : job_world) (cfg : config.Config) (st : Store)
        (p : queue.ProcessPayload) (j : Job) :
  (processJob w cfg st p).2 = None ->
  GetJob None st (queue.JobID p) = Found j ->
  GetJob None (processJob w cfg st p).1 (queue.JobID p)
  = Found (mkJob (ID j) (SourceURL j) (store.Platform j) jobs.StatusReady None
                 (Some ("jobs/" +:+ queue.JobID p +:+ ".mp3"))
                 (CreatedAt j) (jw_now w AtReady)).
Proof.
  unfold processJob. cbv zeta.
  destruct (jw_mkdir w) as [e|].
  { intros H. by rewrite recordFailure_result in H. }
  destruct (UpdateJobStatus _ _ st _ jobs.StatusDownloading None None)
    as [st1 [e|]] eqn:E1; [discriminate|].
  apply UpdateJobStatus_ok_inv in E1 as [_ ->].
  destruct (downloadWithParser _ _ _ _ _ _ _) as [fs [e|videoPath]].
  { intros H. by rewrite recordFailure_result in H. }
  destruct (UpdateJobStatus _ _ _ _ jobs.StatusTranscoding None None)
    as [st2 [e|]] eqn:E2; [discriminate|].
  apply UpdateJobStatus_ok_inv in E2 as [_ ->].
  destruct (transcodeWithFFmpeg _) as [e|].
  { intros H. by rewrite recordFailure_result in H. }
  unfold UploadMP3. destruct (jw_upload w) as [e|].
  { intros H. by rewrite recordFailure_result in H. }
  destruct (UpdateJobStatus _ _ _ _ jobs.StatusReady None _)
    as [st3 [e|]] eqn:E3; [discriminate|].
  apply UpdateJobStatus_ok_inv in E3 as [_ ->].
  intros _ Hget. cbn [fst].
  apply (UpdateJobStatus_lookup (jw_now w AtDownloading) st _
           jobs.StatusDownloading None None j) in Hget.
  apply (UpdateJobStatus_lookup (jw_now w AtTranscoding) _ _
           jobs.StatusTranscoding None None _) in Hget.
  apply (UpdateJobStatus_lookup (jw_now w AtReady) _ _
           jobs.StatusReady None (Some ("jobs/" +:+ queue.JobID p +:+ ".mp3")) _)
    in Hget.
  exact Hget.
Qed.

Lemma writes_frame (id : string) (ws : list (Z * option error * worker_write)) :
  forall st : Store,
    let st' := fold_left (fun s x => apply_write x.1.1 x.1.2 s id x.2) ws st in
    List.map ID st' = List.map ID st
    /\ List.map SourceURL st' = List.map SourceURL st
    /\ List.map store.Platform st' = List.map store.Platform st
    /\ List.map CreatedAt st' = List.map CreatedAt st
    /\ (forall other, other <> id ->
                      GetJob None st' other = GetJob None st other).
Proof.
  induction ws as [|x ws IH]; intros st; cbn [fold_left]; [done|].
  specialize (IH (apply_write x.1.1 x.1.2 st id x.2)).
  destruct IH as (I1 & I2 & I3 & I4 & I5).
  assert (Hw : exists status errMsg mp3URL,
             apply_write x.1.1 x.1.2 st id x.2
             = (UpdateJobStatus x.1.1 x.1.2 st id status errMsg mp3URL).1).
  { unfold apply_write. destruct x.2; by do 3 eexists. }
  destruct Hw as (status & errMsg & mp3URL & Hw). rewrite Hw in *.
  destruct (UpdateJobStatus_columns x.1.1 x.1.2 st id status errMsg mp3URL)
    as (F1 & F2 & F3 & F4).
  repeat split; try congruence.
  intros other Hother. rewrite (I5 other Hother).
  by apply UpdateJobStatus_other_lookup.
Qed.

(** X12.  A task, however it ends, changes no row of another job and
    neither adds nor removes rows: ids, source links, platforms and
    creation times stay as they are, column by column, and the lookup of
    every other id answers with the same row as before. *)
Theorem processJob_frame
        (w : job_world) (cfg : config.Config) (st : Store)
        (p : queue.ProcessPayload) :
  let st' := (processJob w cfg st p).1 in
  List.map ID st' = List.map ID st
  /\ List.map SourceURL st' = List.map SourceURL st
  /\ List.map store.Platform st' = List.map store.Platform st
  /\ List.map CreatedAt st' = List.map CreatedAt st
  /\ (forall other, other <> queue.JobID p ->
                    GetJob None st' other = GetJob None st other).
Proof.
  cbv zeta. destruct (processJob_writes w cfg st p) as [ws ->].
  apply writes_frame.
Qed.

End WorkerOutcome.

(** ** The primary key *)

Section PrimaryKey.
Import store system.

Local Abbreviation unique_ids s := (NoDup (List.map ID s)).

Lemma CreateJob_unique now fault (s : Store) (j : Job) :
  unique_ids s -> unique_ids (CreateJob now fault s j).1.
Proof.
  intros Hs. unfold CreateJob. destruct fault; [exact Hs|].
  destruct (existsb (has_id (ID j)) s) eqn:Ex; [exact Hs|]. cbn [fst].
  rewrite List.map_app. cbn [List.map ID].
  apply NoDup_app. split; [exact Hs|]. split; [|apply NoDup_singleton].
  intros id Hin Hid. apply list_elem_of_singleton in Hid. subst id.
  apply list_elem_of_In, List.in_map_iff in Hin as (x & Hx & Hin).
  assert (existsb (has_id (ID j)) s = true); [|congruence].
  apply List.existsb_exists. exists x. split; [exact Hin|].
  unfold has_id. by apply String.eqb_eq.
Qed.

Lemma UpdateJobStatus_unique now fault (s : Store) id status errMsg mp3URL :
  unique_ids s ->
  unique_ids (UpdateJobStatus now fault s id status errMsg mp3URL).1.
Proof.
  by rewrite (proj1 (UpdateJobStatus_columns now fault s id status errMsg mp3URL)).
Qed.

Lemma DeleteJobsBefore_unique fault (s : Store) before :
  unique_ids s -> unique_ids (DeleteJobsBefore fault s before).1.
Proof.
  intros Hs. destruct fault as [e|]; [exact Hs|].
  exact (sublist_NoDup _ _ Hs
           (fmap_sublist ID _ _ (DeleteJobsBefore_sublist s before))).
Qed.

Lemma step_unique url_Parse extractURL MapToLower cfg state (op : sys_op) :
  unique_ids state.1 ->
  unique_ids (step url_Parse extractURL MapToLower cfg state op).1.
Proof.
  destruct state as [st q]. cbn [fst]. intros Hs. destruct op; cbn [step].
  - unfold api.createHandler. repeat case_match; cbn [fst]; try exact Hs.
    all: match goal with
         | H : CreateJob ?n ?f ?s ?j = (?s', _) |- unique_ids ?s' =>
             replace s' with (CreateJob n f s j).1 by (by rewrite H);
             by apply CreateJob_unique
         end.
  - unfold api.retryHandler. repeat case_match; cbn [fst]; try exact Hs.
    all: match goal with
         | H : UpdateJobStatus ?n ?f ?s ?i ?stt ?e ?m = (?s', _)
           |- unique_ids ?s' =>
             replace s' with (UpdateJobStatus n f s i stt e m).1
               by (by rewrite H);
             by apply UpdateJobStatus_unique
         end.
  - cbn [fst].
    destruct (processJob_writes w cfg st p) as [ws ->].
    by rewrite (proj1 (writes_frame (queue.JobID p) ws st)).
  - cbn [fst]. unfold apply_write.
    destruct wr; by apply UpdateJobStatus_unique.
  - cbn [fst]. by apply DeleteJobsBefore_unique.
Qed.

Lemma GetJob_unique_row (s : Store) (j : Job) :
  unique_ids s -> j ∈ s -> GetJob None s (ID j) = Found j.
Proof.
  unfold GetJob.
  induction s as [|x s IH]; intros Hnd Hin; [by apply elem_of_nil in Hin|].
  cbn [List.map] in Hnd. apply NoDup_cons in Hnd as [Hx Hnd].
  cbn [List.find]. destruct (has_id (ID j) x) eqn:E.
  - apply elem_of_cons in Hin as [-> | Hin]; [done|].
    exfalso. apply Hx. unfold has_id in E. apply String.eqb_eq in E.
    rewrite E. apply list_elem_of_In, List.in_map. by apply list_elem_of_In.
  - apply elem_of_cons in Hin as [-> | Hin].
    + unfold has_id in E. by rewrite String.eqb_refl in E.
    + by apply IH.
Qed.

(** X13.  Ids are unique: starting from the empty table, after any
    sequence of job creations, retries, worker tasks, single worker updates
    and sweeps, no two rows carry the same id, so that a lookup by the id of
    a row answers with that very row. *)
Theorem ids_stay_unique
        (url_Parse : string -> option URL)
        (extractURL : string -> option string)
        (MapToLower : string -> string)
        (cfg : config.Config) (ops : list sys_op) :
  let table := (run url_Parse extractURL MapToLower cfg ops ([], [])).1 in
  NoDup (List.map ID table)
  /\ (forall j, j ∈ table -> GetJob None table (ID j) = Found j).
Proof.
  cbv zeta.
  assert (H : forall state, unique_ids state.1 ->
                            unique_ids (run url_Parse extractURL MapToLower cfg ops state).1).
  { induction ops as [|op ops IH]; intros state Hs; cbn [run fold_left];
      [exact Hs|].
    apply IH. by apply step_unique. }
  specialize (H ([], []) ltac:(constructor)).
  split; [exact H|]. intros j Hj. by apply GetJob_unique_row.
Qed.

End PrimaryKey.

(** ** The fetcher: resuming, and what a fetch leaves on disk *)

Section FetcherFiles.
Import worker trace.

(** X14.  Resume: the first attempt starts without a file and its body
    breaks off after the bytes [b1]; the caller does not cancel; the second
    attempt asks for the range from [len b1] on and is answered by 206 with
    [b2].  The fetch then succeeds after exactly two requests and one
    back-off of one second, and the file holds [b1] followed by [b2]. *)
Theorem resume_after_truncated_body
        (fw : fetch_world) (fs : FS)
        (sourceURL destPath referer : string) (timeout : Z)
        (b1 b2 : string) (cut : error) :
  strings.TrimSpace sourceURL <> "" ->
  fs !! destPath = None ->
  b1 <> "" ->
  let req1 := build_request fs sourceURL destPath referer timeout in
  let req2 := build_request (<[destPath := b1]> fs)
                            sourceURL destPath referer timeout in
  aw_newreq (fw_attempt fw 1) = None ->
  aw_open (fw_attempt fw 1) = None ->
  aw_do (fw_attempt fw 1) req1 = inr (mkResponse 200 b1 (Some cut)) ->
  fw_cancelled fw 1 = false ->
  aw_newreq (fw_attempt fw 2) = None ->
  aw_open (fw_attempt fw 2) = None ->
  aw_do (fw_attempt fw 2) req2 = inr (mkResponse 206 b2 None) ->
  let res := downloadToFile fw fs sourceURL destPath referer timeout in
  res.2 = None
  /\ res.1.2 = [Sent 1 req1; Slept (1 * Second); Sent 2 req2]
  /\ req_range req1 = None
  /\ req_range req2 = Some (len b1)
  /\ res.1.1 !! destPath = Some (b1 +:+ b2).
Proof.
  intros Hurl Hfs Hb1 req1 req2 N1 O1 D1 C1 N2 O2 D2 res.
  assert (Hlen : 0 < len b1).
  { unfold len. destruct b1; [done|]. simpl. lia. }
  assert (Hoff : stat_offset (<[destPath := b1]> fs) destPath = len b1).
  { unfold stat_offset. rewrite lookup_insert_eq.
    assert ((len b1 <? 0) = false) as -> by lia. done. }
  assert (R1 : req_range req1 = None) by (by apply build_request_no_file).
  assert (R2 : req_range req2 = Some (len b1)).
  { unfold req2, build_request. cbn [req_range]. rewrite Hoff.
    by assert ((len b1 >? 0) = true) as -> by lia. }
  assert (Hres : res = (<[destPath := b1 +:+ b2]> (<[destPath := b1]> fs),
                        [Sent 1 req1; Slept (1 * Second); Sent 2 req2], None)).
  { assert (A1 : downloadOnce (fw_attempt fw 1) fs sourceURL destPath referer
                              timeout
                 = (<[destPath := b1]> fs, [req1],
                    Some (downloadError cut true))).
    { unfold downloadOnce. fold req1. rewrite N1, D1, O1.
      by rewrite (stat_offset_absent _ _ Hfs). }
    assert (A2 : downloadOnce (fw_attempt fw 2) (<[destPath := b1]> fs)
                              sourceURL destPath referer timeout
                 = (<[destPath := b1 +:+ b2]> (<[destPath := b1]> fs), [req2],
                    None)).
    { unfold downloadOnce. fold req2. rewrite N2, D2, O2, Hoff.
      cbn [StatusCode Body BodyErr].
      assert ((len b1 >? 0) = true) as -> by lia.
      by rewrite lookup_insert_eq. }
    unfold res, downloadToFile. apply String.eqb_neq in Hurl. rewrite Hurl.
    change (Z.to_nat maxAttempts) with 3%nat.
    cbn [downloadLoop]. rewrite A1.
    cbn [isRetryableDownload negb orb List.map].
    change (1 =? maxAttempts) with false. rewrite C1.
    change (1 + 1) with 2. cbn iota. rewrite A2. reflexivity. }
  rewrite Hres. cbn [fst snd].
  repeat split; try done. by rewrite lookup_insert_eq.
Qed.

Lemma downloadOnce_other_paths (w : attempt_world) (fs : FS)
      (sourceURL destPath referer : string) (timeout : Z) (path : string) :
  path <> destPath ->
  (downloadOnce w fs sourceURL destPath referer timeout).1.1 !! path
  = fs !! path.
Proof.
  intros Hne. unfold downloadOnce.
  repeat case_match; cbn [fst]; try done.
  all: by rewrite ?lookup_insert_ne, ?lookup_delete_ne by done.
Qed.

Lemma downloadOnce_success_file (w : attempt_world) (fs : FS)
      (sourceURL destPath referer : string) (timeout : Z) :
  (downloadOnce w fs sourceURL destPath referer timeout).2 = None ->
  is_Some ((downloadOnce w fs sourceURL destPath referer timeout).1.1
             !! destPath)
  /\ (downloadOnce w fs sourceURL destPath referer timeout).1.2
     = [build_request fs sourceURL destPath referer timeout].
Proof.
  unfold downloadOnce. repeat case_match; cbn [fst snd]; try discriminate.
  all: intros _; split; [|reflexivity]; rewrite lookup_insert_eq; by eexists.
Qed.

(** X15.  A fetch touches no file but its destination: every other path of
    the file system holds after the fetch what it held before, however the
    attempts went. *)
Theorem downloadToFile_touches_only_dest
        (fw : fetch_world) (fs : FS)
        (sourceURL destPath referer : string) (timeout : Z) (path : string) :
  path <> destPath ->
  (downloadToFile fw fs sourceURL destPath referer timeout).1.1 !! path
  = fs !! path.
Proof.
  intros Hne. unfold downloadToFile. case_match; [done|].
  generalize (Z.to_nat maxAttempts) 1 (@None error).
  intros n. revert fs.
  induction n as [|n IH]; intros fs attempt lastErr; cbn [downloadLoop]; [done|].
  pose proof (downloadOnce_other_paths (fw_attempt fw attempt) fs sourceURL
                destPath referer timeout path Hne) as Hone.
  destruct (downloadOnce _ fs _ _ _ _) as [[fs1 reqs] err]. cbn [fst] in Hone.
  destruct err as [e|]; [|done].
  destruct (negb _ || _); [done|].
  destruct (fw_cancelled fw attempt); [done|].
  specialize (IH fs1 (attempt + 1) (Some e)).
  destruct (downloadLoop fw n _ _ _ _ _ _ _) as [[fs2 evs] r].
  cbn [fst] in *. congruence.
Qed.

Lemma downloadLoop_S (fw : fetch_world) (n : nat) (attempt : Z)
      (lastErr : option error) (fs : FS)
      (sourceURL destPath referer : string) (timeout : Z) :
  downloadLoop fw (S n) attempt lastErr fs sourceURL destPath referer timeout
  = let '(fs1, reqs, err) :=
      downloadOnce (fw_attempt fw attempt) fs sourceURL destPath referer timeout in
    let sent := List.map (Sent attempt) reqs in
    match err with
    | None => (fs1, sent, None)
    | Some e =>
        if negb (isRetryableDownload err) || (attempt =? maxAttempts)
        then (fs1, sent, Some e)
        else
          if fw_cancelled fw attempt
          then (fs1, sent ++ [Cancelled (attempt * Second)], Some (fw_ctx_err fw))
          else
            let '(fs2, evs, r) :=
              downloadLoop fw n (attempt + 1) err fs1
                           sourceURL destPath referer timeout in
            (fs2, sent ++ Slept (attempt * Second) :: evs, r)
    end.
Proof. reflexivity. Qed.

(** X16.  A fetch that reports success has sent at least one request and
    has left a file at its destination. *)
Theorem downloadToFile_success_leaves_file
        (fw : fetch_world) (fs : FS)
        (sourceURL destPath referer : string) (timeout : Z) :
  (downloadToFile fw fs sourceURL destPath referer timeout).2 = None ->
  is_Some ((downloadToFile fw fs sourceURL destPath referer timeout).1.1
             !! destPath)
  /\ requests (downloadToFile fw fs sourceURL destPath referer timeout).1.2
     <> [].
Proof.
  unfold downloadToFile. case_match; [discriminate|].
  change (Z.to_nat maxAttempts) with 3%nat.
  assert (Hgen : forall (n : nat) (fs : FS) (attempt : Z) (lastErr : option error),
             (downloadLoop fw (S n) attempt lastErr fs sourceURL destPath
                           referer timeout).2 = None ->
             is_Some ((downloadLoop fw (S n) attempt lastErr fs sourceURL
                                    destPath referer timeout).1.1 !! destPath)
             /\ requests (downloadLoop fw (S n) attempt lastErr fs sourceURL
                                       destPath referer timeout).1.2 <> []).
  { induction n as [|n IH]; intros fs0 attempt lastErr.
    all: rewrite downloadLoop_S.
    all: pose proof (downloadOnce_success_file (fw_attempt fw attempt) fs0
                       sourceURL destPath referer timeout) as Hone.
    all: destruct (downloadOnce _ fs0 _ _ _ _) as [[fs1 reqs] err].
    all: cbn [fst snd] in Hone; destruct err as [e|].
    - destruct (negb _ || _); [done|].
      destruct (fw_cancelled fw attempt); done.
    - intros _. destruct (Hone eq_refl) as [Hf ->].
      cbn [fst snd List.map requests]. split; [exact Hf | done].
    - destruct (negb _ || _); [done|].
      destruct (fw_cancelled fw attempt); [done|].
      specialize (IH fs1 (attempt + 1) (Some e)).
      destruct (downloadLoop fw (S n) _ _ _ _ _ _ _) as [[fs2 evs] r].
      cbn [fst snd] in *. intros Hnone.
      destruct (IH Hnone) as [Hf Hr].
      split; [exact Hf|]. rewrite requests_app. intros Heq.
      apply app_eq_nil in Heq as [_ Heq]. cbn [requests] in Heq. done.
    - intros _. destruct (Hone eq_refl) as [Hf ->].
      cbn [fst snd List.map requests]. split; [exact Hf | done]. }
  apply Hgen.
Qed.

End FetcherFiles.

(** ** The signature of the resolver request *)

Section RequestSignature.
Import worker.

Local Abbreviation is_digit r := (48 <= r <= 57).
Local Abbreviation is_ascii_letter r := (65 <= r <= 90 \/ 97 <= r <= 122).

Lemma timestampToKey_digit (r : Z) :
  is_digit r ->
  default 63 (byte_at digitsToLetters (r - 48)) = 97 + (r - 48).
Proof.
  intros Hr.
  assert (H : r = 48 \/ r = 49 \/ r = 50 \/ r = 51 \/ r = 52 \/ r = 53
              \/ r = 54 \/ r = 55 \/ r = 56 \/ r = 57) by lia.
  repeat destruct H as [-> | H]; try subst r; reflexivity.
Qed.

Lemma timestampToKey_lookup (ts : list Z) (i : nat) (r : Z) :
  ts !! i = Some r ->
  timestampToKey ts !! i
  = Some (if (r <? 48) || (r >? 57) then 63 else 97 + (r - 48)).
Proof.
  unfold timestampToKey.
  intros Hi. rewrite list_lookup_fmap, Hi. cbn [fmap option_fmap option_map].
  f_equal. destruct ((r <? 48) || (r >? 57)) eqn:E; [done|].
  apply timestampToKey_digit. lia.
Qed.

(** X17.  The key of a timestamp has one rune per rune of the timestamp:
    the letter [a + d] for the decimal digit [d] and a question mark for
    anything else; so the key of a string of digits is made of the letters
    a to j. *)
Theorem timestampToKey_letters (ts : list Z) :
  List.length (timestampToKey ts) = List.length ts
  /\ (forall i r, ts !! i = Some r ->
                  timestampToKey ts !! i
                  = Some (if (r <? 48) || (r >? 57) then 63 else 97 + (r - 48)))
  /\ (Forall (fun r => is_digit r) ts ->
      Forall (fun c => 97 <= c <= 106) (timestampToKey ts)).
Proof.
  split; [apply length_map|]. split; [apply timestampToKey_lookup|].
  unfold timestampToKey.
  - intros Hd. apply Forall_fmap. eapply Forall_impl; [exact Hd|].
    intros r Hr. unfold compose. cbn beta in Hr.
    assert (((r <? 48) || (r >? 57)) = false) as -> by lia.
    rewrite timestampToKey_digit by exact Hr. lia.
Qed.

Section WithUnicode.
Variable IsLetter IsUpper : Z -> bool.
Variable ToLowerRune : Z -> Z.

Local Abbreviation encrypt := (vigenereEncrypt IsLetter IsUpper ToLowerRune).
Local Abbreviation vloop := (vigenereLoop IsLetter IsUpper).

Lemma vigenereLoop_shape (keyRunes : list Z) (text : list Z) :
  forall keyIndex : nat,
    List.length (vloop keyRunes keyIndex text) = List.length text
    /\ (forall i r, text !! i = Some r -> IsLetter r = false ->
                    vloop keyRunes keyIndex text !! i = Some r).
Proof.
  induction text as [|r text IH]; intros keyIndex; cbn [vigenereLoop].
  { split; [done|]. intros i r H. by destruct i. }
  destruct (IsLetter r) eqn:El; cbn [negb].
  - destruct (IH (S keyIndex)) as [Hlen Hkeep]. cbn [length]. split; [lia|].
    intros [|i] r' Hi Hr'; cbn in Hi.
    + injection Hi as ->. congruence.
    + by apply Hkeep.
  - destruct (IH keyIndex) as [Hlen Hkeep]. cbn [length]. split; [lia|].
    intros [|i] r' Hi Hr'; cbn in Hi.
    + by injection Hi as ->.
    + by apply Hkeep.
Qed.

(** X18.  Whatever the key, the cipher keeps the number of runes and
    leaves every rune that is not a letter where and as it is; with the
    empty key it returns the text. *)
Theorem vigenereEncrypt_keeps_shape (text key : list Z) :
  List.length (vigenereEncrypt IsLetter IsUpper ToLowerRune text key)
  = List.length text
  /\ (forall i r, text !! i = Some r -> IsLetter r = false ->
                  vigenereEncrypt IsLetter IsUpper ToLowerRune text key !! i
                  = Some r)
  /\ vigenereEncrypt IsLetter IsUpper ToLowerRune text [] = text.
Proof.
  unfold vigenereEncrypt. destruct key as [|k key]; [done|].
  destruct (vigenereLoop_shape (List.map ToLowerRune (k :: key)) text 0%nat)
    as [H1 H2].
  done.
Qed.

Lemma vigenereLoop_letters (keyRunes : list Z) (text : list Z) :
  (forall r, is_ascii_letter r -> IsLetter r = true) ->
  (forall r, 65 <= r <= 90 -> IsUpper r = true) ->
  (forall r, 97 <= r <= 122 -> IsUpper r = false) ->
  Forall (fun r => is_ascii_letter r) text ->
  forall (keyIndex i : nat) (r : Z),
    text !! i = Some r ->
    vloop keyRunes keyIndex text !! i
    = Some (let base := if r <=? 90 then 65 else 97 in
            Z.rem (r - base
                   + (nth ((keyIndex + i) mod List.length keyRunes) keyRunes 0
                      - 97)) 26 + base).
Proof.
  intros Hl Hu Hlo Htext. induction Htext as [|x text Hx Htext IH];
    intros keyIndex i r Hi; [by destruct i|].
  cbn [vigenereLoop]. rewrite (Hl x Hx). cbn [negb].
  rewrite lookup_cons in Hi. rewrite lookup_cons.
  destruct i as [|i].
  - injection Hi as ->. rewrite Nat.add_0_r. f_equal. cbv zeta.
    destruct Hx as [Hx | Hx].
    + rewrite (Hu r Hx). by assert ((r <=? 90) = true) as -> by lia.
    + rewrite (Hlo r Hx). by assert ((r <=? 90) = false) as -> by lia.
  - rewrite (IH (S keyIndex) i r Hi).
    by replace (S keyIndex + i)%nat with (keyIndex + S i)%nat by lia.
Qed.

(** X19.  With the key of a timestamp made of decimal digits, a text made
    of ASCII letters is enciphered letter by letter: the letter at position
    [i] is moved forward in its own alphabet, upper or lower case, by the
    digit at position [i mod n] of the timestamp, wrapping round after z;
    the result is again a letter of the same case. *)
Theorem vigenereEncrypt_timestamp_key (text ts : list Z) :
  (forall r, is_ascii_letter r -> IsLetter r = true) ->
  (forall r, 65 <= r <= 90 -> IsUpper r = true) ->
  (forall r, 97 <= r <= 122 -> IsUpper r = false) ->
  (forall r, 97 <= r <= 122 -> ToLowerRune r = r) ->
  ts <> [] ->
  Forall (fun r => is_digit r) ts ->
  Forall (fun r => is_ascii_letter r) text ->
  forall (i : nat) (r : Z),
    text !! i = Some r ->
    exists d,
      ts !! (i mod List.length ts)%nat = Some d
      /\ is_digit d
      /\ (let base := if r <=? 90 then 65 else 97 in
          encrypt text (timestampToKey ts) !! i
          = Some (base + (r - base + (d - 48)) mod 26)
          /\ base <= base + (r - base + (d - 48)) mod 26 <= base + 25).
Proof.
  intros Hl Hu Hlo Hlow Hne Hts Htext i r Hi.
  assert (Hn : (List.length ts <> 0)%nat) by (by destruct ts).
  assert (Hlt : (i mod List.length ts < List.length ts)%nat)
    by (by apply Nat.mod_upper_bound).
  destruct (lookup_lt_is_Some_2 ts _ Hlt) as [d Hd].
  assert (Hdig : is_digit d).
  { rewrite Forall_forall in Hts. apply Hts.
    by apply list_elem_of_lookup_2 in Hd. }
  exists d. split; [exact Hd|]. split; [exact Hdig|]. cbv zeta.
  assert (Hr : is_ascii_letter r).
  { rewrite Forall_forall in Htext. apply Htext.
    by apply list_elem_of_lookup_2 in Hi. }
  pose proof (timestampToKey_lookup ts) as Kget.
  assert (Klen : List.length (timestampToKey ts) = List.length ts)
    by apply length_map.
  assert (Hkey : nth (i mod List.length ts)
                     (List.map ToLowerRune (timestampToKey ts)) 0
                 = 97 + (d - 48)).
  { apply nth_lookup_Some with (d := 0).
    rewrite list_lookup_fmap, (Kget _ _ Hd).
    assert (((d <? 48) || (d >? 57)) = false) as -> by lia.
    cbn. f_equal. apply Hlow. lia. }
  assert (Henc : encrypt text (timestampToKey ts) !! i
                 = Some (let base := if r <=? 90 then 65 else 97 in
                         Z.rem (r - base + (97 + (d - 48) - 97)) 26 + base)).
  { assert (Hk : timestampToKey ts <> []).
    { intros E. rewrite E in Klen. by destruct ts. }
    assert (Hdef : encrypt text (timestampToKey ts)
                   = vloop (List.map ToLowerRune (timestampToKey ts)) 0 text).
    { unfold vigenereEncrypt. by destruct (timestampToKey ts). }
    rewrite Hdef.
    rewrite (vigenereLoop_letters _ text Hl Hu Hlo Htext 0%nat i r Hi).
    cbn [Nat.add]. rewrite length_map, Klen, Hkey. reflexivity. }
  rewrite Henc. cbv zeta.
  set (base := if r <=? 90 then 65 else 97).
  assert (Hbase : 0 <= r - base <= 25) by (unfold base; case_match; lia).
  replace (r - base + (97 + (d - 48) - 97)) with (r - base + (d - 48)) by lia.
  rewrite Z.rem_mod_nonneg by lia.
  pose proof (Z.mod_pos_bound (r - base + (d - 48)) 26 ltac:(lia)).
  split; [f_equal; lia | lia].
Qed.

End WithUnicode.

Lemma letters_get (k : nat) :
  (k < 52)%nat ->
  exists a, String.get k letters = Some a
            /\ is_ascii_letter (Z.of_nat (nat_of_ascii a)).
Proof.
  intros Hk.
  do 52 (destruct k as [|k];
         [eexists; split;
          [reflexivity
          |vm_compute; first [left; split; discriminate
                             |right; split; discriminate]]|]).
  lia.
Qed.

Lemma randomLoop_ok (draw : nat -> error + Z) (k : nat) :
  forall (i : nat) (acc : string),
    (forall m, (i <= m < i + k)%nat ->
               exists r, draw m = inr r /\ 0 <= r < 52) ->
    exists s,
      randomLoop draw i k acc = Some (inr (acc +:+ s))
      /\ String.length s = k
      /\ Forall (fun a => is_ascii_letter (Z.of_nat (nat_of_ascii a)))
                (list_ascii_of_string s).
Proof.
  induction k as [|k IH]; intros i acc Hdraw; cbn [randomLoop].
  { exists "". split; [|by split]. by rewrite string_app_nil_r. }
  destruct (Hdraw i ltac:(lia)) as (r & -> & Hr).
  assert ((r <? 0) = false) as -> by lia.
  destruct (letters_get (Z.to_nat r) ltac:(lia)) as (a & -> & Ha).
  destruct (IH (S i) (acc +:+ String a EmptyString)) as (s & Hs & Hlen & Hall).
  { intros m Hm. apply Hdraw. lia. }
  exists (String a s). rewrite Hs. split; [|split].
  - by rewrite string_app_snoc.
  - cbn [String.length]. by rewrite Hlen.
  - cbn [list_ascii_of_string]. by constructor.
Qed.

Lemma randomLoop_err (draw : nat -> error + Z) (e : error) (j : nat) :
  forall (k i : nat) (acc : string),
    (j < k)%nat ->
    (forall m, (i <= m < i + j)%nat ->
               exists r, draw m = inr r /\ 0 <= r < 52) ->
    draw (i + j)%nat = inl e ->
    randomLoop draw i k acc = Some (inl e).
Proof.
  induction j as [|j IH]; intros k i acc Hk Hok He.
  - destruct k as [|k]; [lia|]. cbn [randomLoop].
    rewrite Nat.add_0_r in He. by rewrite He.
  - destruct k as [|k]; [lia|]. cbn [randomLoop].
    destruct (Hok i ltac:(lia)) as (r & -> & Hr).
    assert ((r <? 0) = false) as -> by lia.
    destruct (letters_get (Z.to_nat r) ltac:(lia)) as (a & -> & _).
    apply IH; [lia| |].
    + intros m Hm. apply Hok. lia.
    + by replace (S i + j)%nat with (i + S j)%nat by lia.
Qed.

(** X20.  While the random source answers, with numbers below 52,
    [randomLetters n] returns exactly [n] bytes, each one an ASCII letter
    (none for an [n] that is not positive); the first draw that fails ends
    it with that error and no text. *)
Theorem randomLetters_ok (draw : nat -> error + Z) (n : Z) :
  (forall m, (m < Z.to_nat n)%nat ->
             exists r, draw m = inr r /\ 0 <= r < 52) ->
  (exists s,
     randomLetters draw n = Some (inr s)
     /\ len s = Z.max 0 n
     /\ Forall (fun a => is_ascii_letter (Z.of_nat (nat_of_ascii a)))
               (list_ascii_of_string s))
  /\ (forall draw' (j : nat) e,
        (j < Z.to_nat n)%nat ->
        (forall m, (m < j)%nat -> exists r, draw' m = inr r /\ 0 <= r < 52) ->
        draw' j = inl e ->
        randomLetters draw' n = Some (inl e)).
Proof.
  intros Hdraw. split.
  - unfold randomLetters. destruct (n <=? 0) eqn:E.
    + exists "". split; [done|]. split; [unfold len; simpl; lia | constructor].
    + destruct (randomLoop_ok draw (Z.to_nat n) 0%nat "") as (s & Hs & Hlen & Hall).
      { intros m Hm. apply Hdraw. lia. }
      exists s. split; [exact Hs|]. split; [unfold len; lia | exact Hall].
  - intros draw' j e Hj Hok He. unfold randomLetters.
    assert ((n <=? 0) = false) as -> by lia.
    apply (randomLoop_err draw' e j); [exact Hj| |exact He].
    intros m Hm. apply Hok. lia.
Qed.

End RequestSignature.

(** ** Creating, reading and downloading a job *)

Section ReadPaths.
Import store api.
Variable url_Parse : string -> option URL.
Variable extractURL : string -> option string.
Variable MapToLower : string -> string.
Variable format_RFC3339 : Z -> string.
Variable PresignedGetObject : string -> Z -> error + string.
Variable PresignedGetObjectAs : string -> Z -> string -> error + string.

Local Abbreviation create := (createHandler url_Parse extractURL MapToLower).
Local Abbreviation get :=
  (getHandler url_Parse format_RFC3339 PresignedGetObject).
Local Abbreviation download :=
  (downloadHandler url_Parse PresignedGetObjectAs).

Lemma CreateJob_ok_inv now fault (s s' : Store) (j : Job) :
  CreateJob now fault s j = (s', None) ->
  fault = None /\ GetJob None s (ID j) = ErrNoRows
  /\ s' = s ++ [mkJob (ID j) (SourceURL j) (store.Platform j) (Status j)
                      (Error j) (MP3URL j) now now].
Proof.
  unfold CreateJob. destruct fault; [discriminate|].
  destruct (existsb (has_id (ID j)) s) eqn:Ex; [discriminate|].
  intros [= <-]. split; [done|]. split; [|done].
  apply GetJob_no_rows. by apply existsb_has_id_find.
Qed.

(** X21.  When the creation handler answers 202, the body of the request
    was decoded, its [url] field is not blank, [extractURL] cut a link out
    of that field and [Detect] found a platform for that link; the answer
    names the new id and [queued]; the table is the old one with one more
    row, which is [queued], has neither error nor result, carries that link
    and that platform, and has both timestamps at the [NOW()] of the insert;
    one task for that id and link has been put at the end of the queue; and
    reading the job back right away (for a non-empty id) gives that snapshot
    with status 200. *)
Theorem create_then_get
        (w : create_world) (cfg : config.Config) (st st' : Store)
        (q q' : TaskQueue) (id status : string) :
  create w st q
  = (st', q', mkReply StatusAccepted (createJobResponse id status)) ->
  id = cw_uuid w /\ status = jobs.StatusQueued
  /\ exists raw src plat,
      cw_body w = inr raw
      /\ strings.TrimSpace raw <> ""
      /\ extractURL raw = Some src
      /\ platform.Detect url_Parse MapToLower src = Some plat
      /\ st' = st ++ [mkJob id src plat jobs.StatusQueued None None
                            (cw_now w) (cw_now w)]
      /\ q' = q ++ [queue.mkPayload id src]
      /\ GetJob None st' id
         = Found (mkJob id src plat jobs.StatusQueued None None
                        (cw_now w) (cw_now w))
      /\ (id <> "" ->
          get None cfg st' "GET" id
          = GetJSON 200 (mkJobResponse id src plat jobs.StatusQueued None None
                                       (format_RFC3339 (cw_now w))
                                       (format_RFC3339 (cw_now w)))).
Proof.
  unfold createHandler.
  destruct (cw_body w) as [e|url]; [discriminate|].
  destruct (String.eqb (strings.TrimSpace url) "") eqn:Eblank; [discriminate|].
  apply String.eqb_neq in Eblank.
  destruct (extractURL url) as [src|] eqn:Ex; [|discriminate].
  destruct (platform.Detect url_Parse MapToLower src) as [plat|] eqn:Ed;
    [|discriminate].
  destruct (CreateJob _ _ st _) as [st1 [e|]] eqn:Ec; [discriminate|].
  destruct (cw_task_err w); [discriminate|].
  destruct (cw_enqueue_err w); [discriminate|].
  intros [= <- <- <- <-].
  apply CreateJob_ok_inv in Ec as (_ & Hfree & Hst). cbn [ID] in Hfree.
  split; [done|]. split; [done|]. exists url, src, plat.
  do 4 (split; [done|]). split; [exact Hst|]. split; [done|].
  assert (Hget : GetJob None st1 (cw_uuid w)
                 = Found (mkJob (cw_uuid w) src plat jobs.StatusQueued None None
                                (cw_now w) (cw_now w))).
  { pose proof (CreateJob_fresh_lookup (cw_now w) st
                  (mkJob (cw_uuid w) src plat jobs.StatusQueued None None 0 0)
                  Hfree) as Hg.
    cbn [ID SourceURL store.Platform Status Error MP3URL] in Hg.
    rewrite <- Hg. f_equal. rewrite Hst. unfold CreateJob.
    apply GetJob_no_rows, existsb_has_id_find in Hfree. cbn [ID].
    by rewrite Hfree. }
  split; [exact Hget|].
  intros Hid. unfold getHandler. apply String.eqb_neq in Hid.
  rewrite String.eqb_refl, Hid. cbn [negb]. rewrite Hget. reflexivity.
Qed.

(** X22.  A creation request that is answered with 400 has changed neither
    the table nor the queue; a task is only ever enqueued together with the
    answer 202; and whatever the answer, the table is either as before or
    has gained exactly one queued row. *)
Theorem createHandler_effects
        (w : create_world) (st : Store) (q : TaskQueue) :
  let res := create w st q in
  (reply_code res.2 = StatusBadRequest -> res.1 = (st, q))
  /\ (res.1.2 <> q -> reply_code res.2 = StatusAccepted)
  /\ (res.1.1 = st
      \/ exists src plat,
          res.1.1 = st ++ [mkJob (cw_uuid w) src plat jobs.StatusQueued
                                 None None (cw_now w) (cw_now w)]).
Proof.
  cbv zeta. unfold createHandler.
  assert (Hsame : forall r : reply,
             (reply_code (st, q, r).2 = StatusBadRequest -> (st, q, r).1 = (st, q))
             /\ ((st, q, r).1.2 <> q -> reply_code (st, q, r).2 = StatusAccepted)
             /\ ((st, q, r).1.1 = st
                 \/ exists src plat,
                     (st, q, r).1.1
                     = st ++ [mkJob (cw_uuid w) src plat jobs.StatusQueued
                                    None None (cw_now w) (cw_now w)])).
  { intros r. cbn [fst snd]. split; [done|]. split; [|by left].
    intros H. by destruct H. }
  destruct (cw_body w) as [e|url]; [apply Hsame|].
  destruct (String.eqb (strings.TrimSpace url) ""); [apply Hsame|].
  destruct (extractURL url) as [src|]; [|apply Hsame].
  destruct (platform.Detect url_Parse MapToLower src) as [plat|]; [|apply Hsame].
  destruct (CreateJob _ _ st _) as [st1 [e|]] eqn:Ec; [apply Hsame|].
  apply CreateJob_ok_inv in Ec as (_ & _ & Hst).
  cbn [ID SourceURL store.Platform Status Error MP3URL] in Hst.
  destruct (cw_task_err w); [|destruct (cw_enqueue_err w)];
    cbn [fst snd reply_code].
  all: split; [discriminate|]; split;
    [try done; intros H; by destruct H|]; right; by exists src, plat.
Qed.

(** X23.  The download of an existing job: while the status is not [ready]
    no request is answered with a redirect, and a GET that reaches the
    table is answered with 409 "job not ready"; a redirect, when there is
    one, has status 302, belongs to a job that is [ready] and has a stored
    reference, and leads either to the stored link itself or to a link
    signed for the file name [video2mp3-<id>.mp3]. *)
Theorem download_redirects_only_when_ready
        (cfg : config.Config) (st : Store) (path : string) (j : Job) :
  download_id path <> "" ->
  strings.Contains (download_id path) "/" = false ->
  GetJob None st (download_id path) = Found j ->
  (Status j <> jobs.StatusReady ->
   (forall fault method code location,
       download fault cfg st method path <> Redirect code location)
   /\ download None cfg st "GET" path
      = DownloadError StatusConflict "job not ready")
  /\ (forall code location,
         download None cfg st "GET" path = Redirect code location ->
         code = 302 /\ Status j = jobs.StatusReady
         /\ exists stored,
             MP3URL j = Some stored
             /\ strings.TrimSpace stored <> ""
             /\ (location = strings.TrimSpace stored
                 \/ exists key,
                     PresignMP3Download PresignedGetObjectAs key
                       (config.MP3URLTTL cfg)
                       ("video2mp3-" +:+ ID j +:+ ".mp3")
                     = inr location)).
Proof.
  intros Hid Hslash Hget. apply String.eqb_neq in Hid. split.
  - intros Hst. apply String.eqb_neq in Hst. split.
    + intros fault method code location. unfold downloadHandler.
      destruct (negb (String.eqb method "GET")); [discriminate|].
      rewrite Hid, Hslash. cbn [orb].
      destruct fault; [discriminate|]. rewrite Hget, Hst. discriminate.
    + unfold downloadHandler.
      by rewrite String.eqb_refl, Hid, Hslash, Hget, Hst.
  - intros code location. unfold downloadHandler.
    rewrite String.eqb_refl, Hid, Hslash, Hget. cbn [negb orb].
    destruct (String.eqb (Status j) jobs.StatusReady) eqn:Est; [|discriminate].
    apply String.eqb_eq in Est. cbn [negb].
    unfold mp3DownloadURLForJob.
    destruct (MP3URL j) as [stored|]; [|discriminate].
    destruct (String.eqb (strings.TrimSpace stored) "") eqn:Eb; [discriminate|].
    apply String.eqb_neq in Eb.
    destruct (isHTTPURL url_Parse (strings.TrimSpace stored)).
    + destruct (objectKeyFromURL url_Parse _ _) as [key|].
      * destruct (PresignMP3Download _ key _ _) as [e|signed] eqn:Es;
          [discriminate|].
        intros [= <- <-]. split; [done|]. split; [done|].
        exists stored. split; [done|]. split; [done|]. right. by exists key.
      * intros [= <- <-]. split; [done|]. split; [done|].
        exists stored. split; [done|]. split; [done|]. by left.
    + destruct (PresignMP3Download _ _ _ _) as [e|signed] eqn:Es;
        [discriminate|].
      intros [= <- <-]. split; [done|]. split; [done|].
      exists stored. split; [done|]. split; [done|]. right. by eexists.
Qed.

End ReadPaths.

(** ** Authentication and the key of a client *)

Section Gatekeeping.
Import api.

Lemma bearer_token_iff (auth token : string) :
  strings.HasPrefix auth "Bearer "
  && String.eqb (strings.TrimPrefix auth "Bearer ") token = true
  <-> auth = "Bearer " +:+ token.
Proof.
  unfold strings.TrimPrefix, strings.HasPrefix. split.
  - intros [Hp Ht]%andb_true_iff. rewrite Hp in Ht.
    apply String.eqb_eq in Ht. rewrite <- Ht. by apply prefix_split.
  - intros ->. rewrite prefix_app. cbn [andb]. apply String.eqb_eq.
    rewrite string_length_app.
    replace (String.length "Bearer " + String.length token
             - String.length "Bearer ")%nat
      with (String.length token) by lia.
    apply substring_skip_app.
Qed.

(** X24.  With a token configured, a request gets past the authentication
    exactly when it is for [/healthz], or carries [Authorization: Bearer
    <token>], or carries the token in [X-API-KEY], or carries it in the
    [token] query parameter; every other request is answered with 401.
    With a blank token every request gets past. *)
Theorem authMiddleware_forwards_iff (token path : string) (c : credentials) :
  strings.TrimSpace token <> "" ->
  (authMiddleware token path c = AuthForwarded
   <-> path = "/healthz"
       \/ cred_authorization c = "Bearer " +:+ token
       \/ cred_api_key c = token
       \/ cred_query_token c = Some token)
  /\ (authMiddleware token path c = AuthForwarded
      \/ authMiddleware token path c
         = AuthRejected StatusUnauthorized "unauthorized")
  /\ (forall blank, strings.TrimSpace blank = "" ->
                    authMiddleware blank path c = AuthForwarded).
Proof.
  intros Htok.
  assert (Hne : token <> "") by (intros ->; by apply Htok).
  apply String.eqb_neq in Htok, Hne.
  split; [|split].
  - unfold authMiddleware, isAuthorized. rewrite Htok, Hne.
    destruct (String.eqb path "/healthz") eqn:Ep.
    { apply String.eqb_eq in Ep. split; [by left | done]. }
    apply String.eqb_neq in Ep.
    destruct (strings.HasPrefix (cred_authorization c) "Bearer "
              && String.eqb (strings.TrimPrefix (cred_authorization c) "Bearer ")
                            token) eqn:Eb.
    { apply bearer_token_iff in Eb. split; [by right; left | done]. }
    assert (Hb : cred_authorization c <> "Bearer " +:+ token).
    { intros H%bearer_token_iff. congruence. }
    destruct (String.eqb (cred_api_key c) token) eqn:Ek.
    { apply String.eqb_eq in Ek. split; [by right; right; left | done]. }
    apply String.eqb_neq in Ek.
    destruct (cred_query_token c) as [qt|].
    + destruct (String.eqb qt token) eqn:Eq.
      * apply String.eqb_eq in Eq. subst qt. rewrite Hne. cbn [negb andb].
        split; [by right; right; right | done].
      * apply String.eqb_neq in Eq. rewrite andb_false_r. cbn [negb].
        split; [discriminate|]. intros [?|[?|[?|[= ?]]]]; congruence.
    + cbn [negb]. split; [discriminate|].
      intros [?|[?|[?|?]]]; congruence.
  - unfold authMiddleware. repeat case_match; auto.
  - intros blank Hblank. unfold authMiddleware. by rewrite Hblank.
Qed.

Section WithSplit.
Variable SplitHostPort : string -> option (string * string).

(** X25.  The key of a client is never empty.  It is the first element of
    [X-Forwarded-For], trimmed, when that is not blank; otherwise the
    trimmed [X-Real-IP] when that is not blank; otherwise it is taken from
    the address of the connection, and is "unknown" when that is empty
    too. *)
Theorem clientIP_never_empty (r : option peer) :
  clientIP SplitHostPort r <> ""
  /\ (forall p, r = Some p ->
        let first := strings.TrimSpace (before_comma (peer_forwarded_for p)) in
        let real := strings.TrimSpace (peer_real_ip p) in
        (first <> "" -> clientIP SplitHostPort r = first)
        /\ (first = "" -> real <> "" -> clientIP SplitHostPort r = real)
        /\ (first = "" -> real = "" ->
            (forall host port,
                SplitHostPort (peer_remote_addr p) = Some (host, port) ->
                host <> "" -> clientIP SplitHostPort r = host)
            /\ (SplitHostPort (peer_remote_addr p) = None ->
                clientIP SplitHostPort r
                = if String.eqb (peer_remote_addr p) "" then "unknown"
                  else peer_remote_addr p))).
Proof.
  split.
  - unfold clientIP. destruct r as [p|]; [|discriminate].
    repeat case_match; simplify_eq; try discriminate;
      repeat match goal with
        | H : negb (String.eqb _ _) = true |- _ =>
            apply negb_true_iff, String.eqb_neq in H
        end; done.
  - intros p -> first real.
    assert (Hxff : peer_forwarded_for p = "" -> first = "").
    { unfold first. by intros ->. }
    unfold clientIP. fold first. fold real.
    split; [|split].
    + intros Hf. destruct (String.eqb (peer_forwarded_for p) "") eqn:Ex.
      { apply String.eqb_eq in Ex. by apply Hxff in Ex. }
      apply String.eqb_neq in Hf. by rewrite Hf.
    + intros Hf Hr. apply String.eqb_neq in Hr.
      rewrite Hf, Hr. by destruct (negb (String.eqb (peer_forwarded_for p) "")).
    + intros Hf Hr. rewrite Hf, Hr.
      assert (Hfw : (if negb (String.eqb (peer_forwarded_for p) "")
                     then if negb (String.eqb "" "") then Some "" else None
                     else None) = @None string)
        by (by destruct (negb (String.eqb (peer_forwarded_for p) ""))).
      rewrite Hfw. cbn [negb String.eqb]. split.
      * intros host port -> Hh. apply String.eqb_neq in Hh. by rewrite Hh.
      * intros ->. by destruct (String.eqb (peer_remote_addr p) "").
Qed.

End WithSplit.

End Gatekeeping.

(** ** The limiter: what every state and every answer satisfy *)

Section LimiterInvariant.
Import api limiter.

Local Abbreviation counts_ok rl :=
  (forall k e, entries rl !! k = Some e -> 1 <= count e <= limit rl).

Lemma cleanupLocked_entries (rl : rateLimiter) (now : Z) (k : string)
      (e : rateEntry) :
  entries (cleanupLocked rl now) !! k = Some e -> entries rl !! k = Some e.
Proof.
  unfold cleanupLocked. case_match; [done|]. cbn [entries].
  by intros [Hin _]%map_lookup_filter_Some.
Qed.

Lemma allow_counts (rl : rateLimiter) (key : string) (now untilNow : Z) :
  0 < limit rl -> 0 < window rl ->
  counts_ok rl ->
  counts_ok (allow rl key now untilNow).1
  /\ (let '(ok, retryAfter, remaining) := (allow rl key now untilNow).2 in
      if ok then retryAfter = 0 /\ 0 <= remaining < limit rl
      else remaining = 0 /\ 0 <= retryAfter).
Proof.
  intros HL HW Hinv.
  pose proof (allow_params rl key now untilNow) as [HpL _].
  unfold allow in *.
  assert (((limit rl <=? 0) || (window rl <=? 0)) = false) as Hen
    by (apply orb_false_iff; lia).
  rewrite Hen in *.
  set (fresh := mkRateEntry 0 (now + window rl)) in *.
  destruct (match entries rl !! key with
            | None => (fresh, <[key := fresh]> (entries rl))
            | Some e => if Time_After now (reset e)
                        then (fresh, <[key := fresh]> (entries rl))
                        else (e, entries rl)
            end) as [entry ents] eqn:Ee.
  assert (Hentry : 0 <= count entry <= limit rl).
  { destruct (entries rl !! key) as [e0|] eqn:E0.
    - destruct (Time_After now (reset e0)); injection Ee as <- <-.
      + cbn. lia.
      + specialize (Hinv key e0 E0). lia.
    - injection Ee as <- <-. cbn. lia. }
  assert (Hents : forall k e, ents !! k = Some e -> k <> key ->
                              1 <= count e <= limit rl).
  { intros k e Hk Hne. apply (Hinv k e).
    destruct (entries rl !! key) as [e0|] eqn:E0.
    - destruct (Time_After now (reset e0)); injection Ee as <- <-;
        [by rewrite lookup_insert_ne in Hk | done].
    - injection Ee as <- <-. by rewrite lookup_insert_ne in Hk. }
  destruct (count entry >=? limit rl) eqn:Ec; cbn [fst snd] in *.
  - split.
    + intros k e Hk%cleanupLocked_entries. cbn [entries] in Hk. rewrite HpL.
      destruct (decide (k = key)) as [->|Hne]; [|by apply (Hents k e)].
      destruct (entries rl !! key) as [e0|] eqn:E0.
      * destruct (Time_After now (reset e0)); injection Ee as <- <-.
        -- cbn in Ec. lia.
        -- rewrite E0 in Hk. injection Hk as <-. by apply (Hinv key e0).
      * injection Ee as <- <-. cbn in Ec. lia.
    + split; [done|].
      destruct (Time_Sub (reset entry) untilNow <? 0) eqn:Et;
        [done | by apply Z.ltb_ge in Et].
  - split.
    + intros k e Hk%cleanupLocked_entries. cbn [entries] in Hk. rewrite HpL.
      destruct (decide (k = key)) as [->|Hne].
      * rewrite lookup_insert_eq in Hk. injection Hk as <-. cbn. lia.
      * rewrite lookup_insert_ne in Hk by done. by apply (Hents k e).
    + cbn. lia.
Qed.

(** X26.  A limiter that starts empty keeps, whatever requests it serves,
    the count of every entry between 1 and the limit; every admission
    reports a remaining budget between 0 and [limit - 1] and no wait, and
    every rejection reports no budget and a wait that is not negative. *)
Theorem limiter_counts_within_limit
        (L W : Z) (arrs : list arrival) :
  0 < L -> 0 < W ->
  let out := serve (newLimiter L W) arrs in
  (forall k e, entries out.1 !! k = Some e -> 1 <= count e <= L)
  /\ Forall (fun answer : string * (bool * Z * Z) =>
               let '(ok, retryAfter, remaining) := answer.2 in
               if ok then retryAfter = 0 /\ 0 <= remaining < L
               else remaining = 0 /\ 0 <= retryAfter)
            out.2.
Proof.
  intros HL HW.
  assert (Hgen : forall rl, limit rl = L -> window rl = W -> counts_ok rl ->
             counts_ok (serve rl arrs).1
             /\ limit (serve rl arrs).1 = L
             /\ Forall (fun answer : string * (bool * Z * Z) =>
                          let '(ok, retryAfter, remaining) := answer.2 in
                          if ok then retryAfter = 0 /\ 0 <= remaining < L
                          else remaining = 0 /\ 0 <= retryAfter)
                       (serve rl arrs).2).
  { induction arrs as [|a arrs IH]; intros rl Hl Hw Hinv; cbn [serve].
    { cbn [fst snd]. split; [exact Hinv|]. split; [exact Hl | constructor]. }
    pose proof (allow_params rl (arr_key a) (arr_now a) (arr_until a))
      as [HpL HpW].
    pose proof (allow_counts rl (arr_key a) (arr_now a) (arr_until a)
                  ltac:(lia) ltac:(lia) Hinv) as [Hinv1 Hans].
    destruct (allow rl (arr_key a) (arr_now a) (arr_until a)) as [rl1 res1].
    cbn [fst snd] in *.
    destruct (IH rl1 ltac:(congruence) ltac:(congruence) Hinv1)
      as (Hinv2 & Hl2 & Hall).
    destruct (serve rl1 arrs) as [rl2 rest]. cbn [fst snd] in *.
    split; [exact Hinv2|]. split; [exact Hl2|].
    constructor; [|exact Hall]. cbn [snd]. by rewrite <- Hl. }
  destruct (Hgen (newLimiter L W) eq_refl eq_refl) as (H1 & H2 & H3).
  { intros k e Hk. cbn in Hk. by rewrite lookup_empty in Hk. }
  cbv zeta. split; [|exact H3].
  intros k e Hk. specialize (H1 k e Hk). by rewrite H2 in H1.
Qed.

(** X27.  The sweep of expired windows inside [allow]: when less than a
    window has passed since the last sweep, the time of the last sweep
    stays; otherwise it becomes the time of the call and the map is left
    with open windows only.  Either way no entry appears for any key but
    the one of the call. *)
Theorem allow_sweeps_expired_windows
        (rl : rateLimiter) (key : string) (now untilNow : Z) :
  0 < limit rl -> 0 < window rl ->
  let rl' := (allow rl key now untilNow).1 in
  (Time_Sub now (lastCleanup rl) < window rl ->
   lastCleanup rl' = lastCleanup rl)
  /\ (window rl <= Time_Sub now (lastCleanup rl) ->
      lastCleanup rl' = now
      /\ forall k e, entries rl' !! k = Some e -> now <= reset e)
  /\ (forall k, k <> key -> is_Some (entries rl' !! k) ->
                entries rl' !! k = entries rl !! k).
Proof.
  intros HL HW. cbv zeta. unfold allow.
  assert (((limit rl <=? 0) || (window rl <=? 0)) = false) as ->
    by (apply orb_false_iff; lia).
  set (fresh := mkRateEntry 0 (now + window rl)).
  destruct (match entries rl !! key with
            | None => (fresh, <[key := fresh]> (entries rl))
            | Some e => if Time_After now (reset e)
                        then (fresh, <[key := fresh]> (entries rl))
                        else (e, entries rl)
            end) as [entry ents] eqn:Ee.
  assert (Hother : forall k, k <> key -> ents !! k = entries rl !! k).
  { intros k Hne. destruct (entries rl !! key) as [e0|].
    - destruct (Time_After now (reset e0)); injection Ee as <- <-;
        [by rewrite lookup_insert_ne | done].
    - injection Ee as <- <-. by rewrite lookup_insert_ne. }
  assert (Hclean : forall m,
             let c := cleanupLocked
                        (mkRateLimiter (limit rl) (window rl) m (lastCleanup rl))
                        now in
             (Time_Sub now (lastCleanup rl) < window rl ->
              lastCleanup c = lastCleanup rl)
             /\ (window rl <= Time_Sub now (lastCleanup rl) ->
                 lastCleanup c = now
                 /\ forall k e, entries c !! k = Some e -> now <= reset e)
             /\ (forall k, is_Some (entries c !! k) -> entries c !! k = m !! k)).
  { intros m. cbv zeta. unfold cleanupLocked. cbn [lastCleanup window entries limit].
    destruct (Time_Sub now (lastCleanup rl) <? window rl) eqn:Ed;
      cbn [lastCleanup entries].
    - split; [done|]. split; [lia | done].
    - split; [lia|]. split.
      + intros _. split; [done|].
        intros k e [_ Hopen]%map_lookup_filter_Some.
        unfold Time_After in Hopen. cbn in Hopen. lia.
      + intros k [e He]. rewrite He.
        by apply map_lookup_filter_Some in He as [-> _]. }
  destruct (count entry >=? limit rl); cbn [fst].
  - destruct (Hclean ents) as (C1 & C2 & C3).
    split; [exact C1|]. split; [exact C2|].
    intros k Hne Hsome. rewrite (C3 k Hsome). by apply Hother.
  - destruct (Hclean (<[key := mkRateEntry (count entry + 1) (reset entry)]> ents))
      as (C1 & C2 & C3).
    split; [exact C1|]. split; [exact C2|].
    intros k Hne Hsome. rewrite (C3 k Hsome).
    rewrite lookup_insert_ne by done. by apply Hother.
Qed.

End LimiterInvariant.

(** ** The status stream: nothing is made up *)

Section StreamReads.
Import store api stream.
Variable url_Parse : string -> option URL.
Variable format_RFC3339 : Z -> string.
Variable PresignedGetObject : string -> Z -> error + string.

Local Abbreviation build :=
  (buildJobResponse url_Parse format_RFC3339 PresignedGetObject).
Local Abbreviation loop :=
  (streamLoop url_Parse format_RFC3339 PresignedGetObject).
Local Abbreviation events :=
  (streamJobEvents url_Parse format_RFC3339 PresignedGetObject).

Lemma streamLoop_reads (cfg : config.Config) (id : string)
      (evs : list stream_event) :
  forall (j : Job) (lastUpdated : Z),
  exists rows,
    rows `sublist_of` polled id evs
    /\ Forall2 (fun row r => build cfg row = inr r) rows
               (snapshots (loop cfg id evs j lastUpdated).1).
Proof.
  induction evs as [|e evs IH]; intros j lu; cbn [streamLoop polled].
  { exists []. split; [done | constructor]. }
  destruct e as [| |fault st].
  - exists []. split; [apply sublist_nil_l | constructor].
  - destruct (IH j lu) as (rows & Hsub & Hall).
    destruct (streamLoop _ _ _ cfg id evs j lu) as [o c].
    exists rows. by split.
  - destruct (GetJob fault st id) as [next| |err].
    + destruct (negb (UpdatedAt next >? lu) && String.eqb (Status next) (Status j)).
      { destruct (IH j lu) as (rows & Hsub & Hall).
        exists rows. split; [by apply sublist_cons | exact Hall]. }
      destruct (buildJobResponse _ _ _ cfg next) as [err|resp] eqn:Eb.
      { destruct (IH next (UpdatedAt next)) as (rows & Hsub & Hall).
        exists rows. split; [by apply sublist_cons | exact Hall]. }
      destruct (isTerminal (Status next)).
      * exists [next]. split.
        -- apply sublist_skip, sublist_nil_l.
        -- cbn [fst snapshots]. by repeat constructor.
      * destruct (IH next (UpdatedAt next)) as (rows & Hsub & Hall).
        destruct (streamLoop _ _ _ cfg id evs next (UpdatedAt next)) as [o c].
        exists (next :: rows). split; [by apply sublist_skip|].
        cbn [fst snapshots] in *. by constructor.
    + exists []. split; [apply sublist_nil_l | constructor].
    + apply IH.
Qed.

(** X28.  A stream never shows a state that was not read and never shows
    states out of order: its snapshots, in the order written, are the
    snapshots of some of the rows that its reads of the store found, taken
    in the order of the reads. *)
Theorem stream_snapshots_are_reads
        (cfg : config.Config) (id : string) (fault : option error)
        (st : Store) (flusher : bool) (evs : list stream_event) :
  exists rows,
    rows `sublist_of` reads id fault st evs
    /\ Forall2 (fun row r => build cfg row = inr r) rows
               (snapshots (events cfg id fault st flusher evs).1).
Proof.
  unfold streamJobEvents, reads. cbn [polled].
  destruct (GetJob fault st id) as [j| |err].
  - destruct flusher; cbn [negb].
    2:{ exists []. split; [apply sublist_nil_l | constructor]. }
    destruct (buildJobResponse _ _ _ cfg j) as [err|resp] eqn:Eb.
    { exists []. split; [apply sublist_nil_l | constructor]. }
    destruct (isTerminal (Status j)).
    + exists [j]. split; [apply sublist_skip, sublist_nil_l|].
      cbn [fst snapshots]. by repeat constructor.
    + destruct (streamLoop_reads cfg id evs j (UpdatedAt j))
        as (rows & Hsub & Hall).
      destruct (streamLoop _ _ _ cfg id evs j (UpdatedAt j)) as [o c].
      exists (j :: rows). split; [by apply sublist_skip|].
      cbn [fst snapshots] in *. by constructor.
  - exists []. split; [apply sublist_nil_l | constructor].
  - exists []. split; [apply sublist_nil_l | constructor].
Qed.

End StreamReads.

(** ** The sweeper and the object keys *)

Section SweeperOutcome.
Import store api.
Variable url_Parse : string -> option URL.
Variable PresignedGetObject : string -> Z -> error + string.
Variable PresignedGetObjectAs : string -> Z -> string -> error + string.

Local Abbreviation key_of := (objectKeyFromJob url_Parse).

Lemma ListJobsBefore_rows (fault : option error) (st : Store)
      (before limit : Z) (items : list Job) :
  ListJobsBefore fault st before limit = (items, None) ->
  forall j, j ∈ items -> j ∈ st /\ CreatedAt j < before.
Proof.
  unfold ListJobsBefore. destruct fault; [discriminate|].
  intros [= <-] j Hj.
  assert (Hin : j ∈ List.filter (created_before before) st).
  { rewrite <- (merge_sort_Permutation older_first).
    eapply elem_of_sublist; [exact Hj | apply sublist_take]. }
  apply list_elem_of_In, List.filter_In in Hin as [Hin Hb].
  split; [by apply list_elem_of_In|]. unfold created_before in Hb. lia.
Qed.

Lemma sweepPage_effect (remove : string -> option error) (cfg : config.Config)
      (items : list Job) :
  forall (bucket : gset string) (deleted : Z),
    let out := sweepPage url_Parse remove cfg items bucket deleted in
    out.1 ⊆ bucket
    /\ deleted <= out.2
    /\ (forall key, key ∈ bucket -> key ∉ out.1 ->
                    exists j, j ∈ items /\ key_of cfg j = key).
Proof.
  induction items as [|j items IH]; intros bucket deleted; cbn [sweepPage].
  { cbn [fst snd]. split; [done|]. split; [lia|]. intros key H1 H2. done. }
  assert (Hkeep : let out := sweepPage url_Parse remove cfg items bucket deleted in
                  out.1 ⊆ bucket /\ deleted <= out.2
                  /\ (forall key, key ∈ bucket -> key ∉ out.1 ->
                                  exists j0, j0 ∈ j :: items /\ key_of cfg j0 = key)).
  { destruct (IH bucket deleted) as (I1 & I2 & I3).
    split; [exact I1|]. split; [exact I2|].
    intros key H1 H2. destruct (I3 key H1 H2) as (j0 & Hj0 & Hk).
    exists j0. split; [by apply elem_of_cons; right | exact Hk]. }
  destruct (negb (String.eqb (key_of cfg j) "")); [|exact Hkeep].
  unfold DeleteObject.
  destruct (String.eqb (strings.TrimSpace (key_of cfg j)) ""); [exact Hkeep|].
  destruct (remove (key_of cfg j)); [exact Hkeep|].
  destruct (IH (bucket ∖ {[key_of cfg j]}) (deleted + 1)) as (I1 & I2 & I3).
  split; [|split; [lia|]].
  - etransitivity; [exact I1|]. by apply subseteq_difference_l.
  - intros key H1 H2.
    destruct (decide (key = key_of cfg j)) as [->|Hne].
    + exists j. split; [apply elem_of_cons; by left | done].
    + destruct (I3 key) as (j0 & Hj0 & Hk); [| exact H2 |].
      { apply elem_of_difference. split; [exact H1|].
        by intros ?%elem_of_singleton. }
      exists j0. split; [by apply elem_of_cons; right | exact Hk].
Qed.

Lemma sweepLoop_effect (w : sweep_world) (cfg : config.Config) (st : Store)
      (before : Z) (fuel : nat) :
  forall (page : nat) (bucket bucket' : gset string) (deleted deleted' : Z)
         (err : option error),
    sweepLoop url_Parse fuel w cfg st before page bucket deleted
    = Some (bucket', deleted', err) ->
    bucket' ⊆ bucket
    /\ deleted <= deleted'
    /\ (forall key, key ∈ bucket -> key ∉ bucket' ->
                    exists j, j ∈ st /\ CreatedAt j < before
                              /\ key_of cfg j = key).
Proof.
  induction fuel as [|fuel IH]; intros page bucket bucket' deleted deleted' err;
    cbn [sweepLoop]; [discriminate|].
  destruct (ListJobsBefore _ st before 200) as [items [e|]] eqn:El.
  { intros [= <- <- <-]. split; [done|]. split; [lia|]. intros key H1 H2. done. }
  pose proof (ListJobsBefore_rows _ _ _ _ _ El) as Hrows.
  destruct (List.length items =? 0)%nat.
  { intros [= <- <- <-]. split; [done|]. split; [lia|]. intros key H1 H2. done. }
  pose proof (sweepPage_effect (sw_remove w page) cfg items bucket deleted)
    as (P1 & P2 & P3).
  destruct (sweepPage _ _ _ _ _ _) as [b1 d1]. cbn [fst snd] in *.
  assert (Hfrom : forall key, key ∈ bucket -> key ∉ b1 ->
                              exists j, j ∈ st /\ CreatedAt j < before
                                        /\ key_of cfg j = key).
  { intros key H1 H2. destruct (P3 key H1 H2) as (j & Hj & Hk).
    destruct (Hrows j Hj). by exists j. }
  destruct (List.length items <? 200)%nat.
  { intros [= <- <- <-]. by split; [|split]. }
  intros Hloop. destruct (IH _ _ _ _ _ _ Hloop) as (I1 & I2 & I3).
  split; [by etransitivity|]. split; [lia|].
  intros key H1 H2.
  destruct (decide (key ∈ b1)) as [Hin|Hout]; [by apply I3 | by apply Hfrom].
Qed.

(** X29.  Whenever a sweep returns: the bucket has lost nothing but keys
    of rows created before the cutoff, and the tally of removed objects is
    not negative; if it returns without error, the table has lost exactly
    the rows created before the cutoff, all of them, and their number is
    reported; if it returns an error, the table is as before and zero rows
    are reported. *)
Theorem cleanupJobs_outcome
        (fuel : nat) (w : sweep_world) (cfg : config.Config) (st st' : Store)
        (bucket bucket' : gset string) (before : Z)
        (deletedJobs deletedObjects : Z) (err : option error) :
  cleanupJobs url_Parse fuel w cfg st bucket before
  = Some (st', bucket', (deletedJobs, deletedObjects, err)) ->
  bucket' ⊆ bucket
  /\ 0 <= deletedObjects
  /\ (forall key, key ∈ bucket -> key ∉ bucket' ->
                  exists j, j ∈ st /\ CreatedAt j < before
                            /\ key_of cfg j = key)
  /\ match err with
     | None =>
         (forall j, j ∈ st' <-> j ∈ st /\ before <= CreatedAt j)
         /\ st' `sublist_of` st
         /\ deletedJobs + Z.of_nat (List.length st') = Z.of_nat (List.length st)
     | Some _ => st' = st /\ deletedJobs = 0
     end.
Proof.
  unfold cleanupJobs.
  destruct (sweepLoop url_Parse fuel w cfg st before 0 bucket 0)
    as [[[b1 d1] e1]|] eqn:El; [|discriminate].
  apply sweepLoop_effect in El as (L1 & L2 & L3).
  destruct e1 as [e|].
  { intros [= <- <- <- <- <-]. by repeat split. }
  destruct (sw_delete_fault w) as [e|] eqn:Ef.
  { cbn. intros [= <- <- <- <- <-]. by repeat split. }
  pose proof (DeleteJobsBefore_rows st before) as D1.
  pose proof (DeleteJobsBefore_sublist st before) as D2.
  pose proof (DeleteJobsBefore_count st before) as D3.
  cbn [DeleteJobsBefore fst snd] in *.
  intros [= <- <- <- <- <-].
  split; [exact L1|]. split; [exact L2|]. split; [exact L3|].
  split; [exact D1|]. split; [exact D2 | exact D3].
Qed.

(** X30.  The reads and the sweep agree on the object of a job: whenever
    the sweeper finds a key for a job, that key is the one the status
    reads have signed and the one the download has signed under the file
    name [video2mp3-<id>.mp3]; and a job without a stored reference has no
    key and no link. *)
Theorem reads_sign_the_key_the_sweep_deletes
        (format_RFC3339 : Z -> string) (cfg : config.Config) (j : Job) :
  (key_of cfg j <> "" ->
   mp3URLForJob url_Parse PresignedGetObject cfg j
   = match PresignMP3 PresignedGetObject (key_of cfg j)
                      (config.MP3URLTTL cfg) with
     | inl e => inl e
     | inr signed => inr (Some signed)
     end
   /\ mp3DownloadURLForJob url_Parse PresignedGetObjectAs cfg j
      = match PresignMP3Download PresignedGetObjectAs (key_of cfg j)
                                 (config.MP3URLTTL cfg)
                                 ("video2mp3-" +:+ ID j +:+ ".mp3") with
        | inl e => inl e
        | inr signed => inr (Some signed)
        end)
  /\ (MP3URL j = None ->
      key_of cfg j = ""
      /\ mp3URLForJob url_Parse PresignedGetObject cfg j = inr None
      /\ mp3DownloadURLForJob url_Parse PresignedGetObjectAs cfg j = inr None
      /\ forall r,
          buildJobResponse url_Parse format_RFC3339 PresignedGetObject cfg j
          = inr r -> resp_MP3URL r = None).
Proof.
  unfold objectKeyFromJob, mp3URLForJob, mp3DownloadURLForJob, buildJobResponse,
    mp3URLForJob.
  split.
  - destruct (MP3URL j) as [stored|]; [|done].
    destruct (String.eqb (strings.TrimSpace stored) ""); [done|].
    destruct (isHTTPURL url_Parse (strings.TrimSpace stored)); [|done].
    by destruct (objectKeyFromURL url_Parse _ _).
  - intros ->. repeat split. by intros r [= <-].
Qed.

End SweeperOutcome.

(** * Worked examples *)

(** ** The store *)

Lemma UpdateJobStatus_unknown_id_witness :
  store.GetJob None [sample.job "j1" "queued" None None 1 1] "j2" = store.ErrNoRows
  /\ store.UpdateJobStatus 9 None [sample.job "j1" "queued" None None 1 1]
                           "j2" "ready" None (Some "jobs/j2.mp3")
     = ([sample.job "j1" "queued" None None 1 1], None).
Proof.
  split; [reflexivity|].
  apply (UpdateJobStatus_unknown_id 9 [sample.job "j1" "queued" None None 1 1]
           "j2" "ready" None (Some "jobs/j2.mp3")).
  reflexivity.
Defined.

Lemma list_recent_first_bounded_witness :
  let st := [sample.job "a" "queued" None None 1 1;
             sample.job "b" "queued" None None 3 3;
             sample.job "c" "queued" None None 2 2] in
  let resp := [api.mkJobResponse "b" sample.source "douyin" "queued" None None "3" "3";
               api.mkJobResponse "c" sample.source "douyin" "queued" None None "2" "2"] in
  api.listHandler sample.parse sample.format sample.sign sample.atoi
                  None sample.cfg st "2" = api.listJobsResponse resp
  /\ 1 <= api.listLimit sample.atoi "2" <= 100.
Proof.
  intros st resp.
  assert (H : api.listHandler sample.parse sample.format sample.sign sample.atoi
                              None sample.cfg st "2" = api.listJobsResponse resp)
    by (vm_compute; reflexivity).
  split; [exact H|].
  exact (proj1 (list_recent_first_bounded sample.parse sample.format sample.sign
                  sample.atoi None sample.cfg st "2" resp H)).
Defined.

(** ** The retry gate *)

Lemma retry_only_from_failed_or_expired_witness :
  let st := [sample.job "j1" "transcoding" None None 1 20] in
  let w := api.mkRetryWorld None None 50 None None in
  store.GetJob None st (api.retry_id "j1/retry")
  = store.Found (sample.job "j1" "transcoding" None None 1 20)
  /\ api.retryHandler w st [] "POST" "j1/retry"
     = (st, [], api.mkReply 409 (api.errorResponse "job not retryable")).
Proof.
  intros st w.
  assert (H : store.GetJob None st (api.retry_id "j1/retry")
              = store.Found (sample.job "j1" "transcoding" None None 1 20))
    by reflexivity.
  split; [exact H|].
  apply (proj2 (retry_only_from_failed_or_expired w st [] "j1/retry" _ H
                  ltac:(discriminate) ltac:(discriminate)));
    [discriminate | reflexivity | reflexivity].
Defined.

Example retry_from_failed :
  api.retryHandler (api.mkRetryWorld None None 50 None None)
                   [sample.job "j1" "failed" (Some "boom") None 1 40] []
                   "POST" "j1/retry"
  = ([sample.job "j1" "queued" None None 1 50],
     [sample.payload],
     api.mkReply 202 (api.createJobResponse "j1" "queued")).
Proof. reflexivity. Qed.

(** ** The invariant of the job table *)

Lemma result_iff_ready_error_iff_failed_witness :
  let ops := [system.OpCreate sample.create_world;
              system.OpProcess (sample.job_world_with sample.parser_ok)
                               sample.payload] in
  let j := sample.job "j1" "ready" None (Some "jobs/j1.mp3") 1 30 in
  j ∈ (system.run sample.parse sample.extract sample.lower sample.cfg ops ([], [])).1
  /\ (store.MP3URL j <> None <-> store.Status j = jobs.StatusReady)
  /\ (store.Error j <> None <-> store.Status j = jobs.StatusFailed).
Proof.
  intros ops j.
  assert (H : j ∈ (system.run sample.parse sample.extract sample.lower sample.cfg ops
                              ([], [])).1)
    by (vm_compute; apply list_elem_of_here).
  split; [exact H|].
  exact (result_iff_ready_error_iff_failed sample.parse sample.extract sample.lower
           sample.cfg ops j H).
Defined.

(** ** Failures of the video-resolution step *)

(** The resolver answers 500, cannot be reached, or reports a failure: the
    job is marked failed, and the error that goes back to the dispatcher
    does not wrap [asynq.SkipRetry], so the task is requeued. *)
Lemma resolution_failure_requeued_counterexample :
  let st := [sample.job "j1" "queued" None None 1 1] in
  let run pw := worker.processJob (sample.job_world_with pw) sample.cfg st
                                  sample.payload in
  (worker.parseWithParser (sample.parser_http 500) sample.cfg sample.source
   = inl (errorString "parser http status 500")
   /\ run (sample.parser_http 500)
      = ([sample.job "j1" "failed" (Some "parser http status 500") None 1 40],
         Some (errorString "parser http status 500"))
   /\ is_SkipRetry (errorString "parser http status 500") = false)
  /\ (worker.parseWithParser sample.parser_unreachable sample.cfg sample.source
      = inl (errorString "dial tcp: connection refused")
      /\ run sample.parser_unreachable
         = ([sample.job "j1" "failed" (Some "dial tcp: connection refused") None 1 40],
            Some (errorString "dial tcp: connection refused"))
      /\ is_SkipRetry (errorString "dial tcp: connection refused") = false)
  /\ (worker.parseWithParser sample.parser_reports_failure sample.cfg sample.source
      = inl (errorString "parser error: 404 video not found")
      /\ run sample.parser_reports_failure
         = ([sample.job "j1" "failed" (Some "parser error: 404 video not found")
                        None 1 40],
            Some (errorString "parser error: 404 video not found"))
      /\ is_SkipRetry (errorString "parser error: 404 video not found") = false).
Proof. vm_compute. repeat split. Qed.

Lemma resolution_failure_marks_failed_witness :
  let w := sample.job_world_with sample.parser_empty in
  let st := [sample.job "j1" "queued" None None 1 1] in
  worker.jw_mkdir w = None
  /\ worker.jw_dbfault w worker.AtDownloading = None
  /\ worker.parseWithParser (worker.jw_parser w) sample.cfg
                            (queue.SourceURL sample.payload)
     = inl (errorString "parser returned no media url")
  /\ (worker.processJob w sample.cfg st sample.payload).2
     = Some (wrapSkipRetry "parser returned no media url").
Proof.
  intros w st.
  assert (H : worker.parseWithParser (worker.jw_parser w) sample.cfg
                                     (queue.SourceURL sample.payload)
              = inl (errorString "parser returned no media url"))
    by reflexivity.
  split; [reflexivity|]. split; [reflexivity|]. split; [exact H|].
  pose proof (resolution_failure_marks_failed w sample.cfg st sample.payload
                (errorString "parser returned no media url")
                eq_refl eq_refl H) as (_ & _ & _ & _ & _ & Hskip & _).
  exact (Hskip eq_refl).
Defined.

(** A failure that the resolver reports in the words "parser returned no
    media url" is answered with [asynq.SkipRetry] like an empty result. *)
Example reported_failure_in_the_words_of_the_worker :
  let w := sample.job_world_with sample.parser_reports_no_media in
  let st := [sample.job "j1" "queued" None None 1 1] in
  worker.parseWithParser (worker.jw_parser w) sample.cfg sample.source
  = inl (errorString "parser error: 500 parser returned no media url")
  /\ worker.processJob w sample.cfg st sample.payload
     = ([sample.job "j1" "failed"
                    (Some "parser error: 500 parser returned no media url")
                    None 1 40],
        Some (wrapSkipRetry "parser error: 500 parser returned no media url")).
Proof. vm_compute. repeat split. Qed.

(** ** The resumable fetcher *)

(** A 416 for the resumed range, then the whole file. *)
Lemma range_not_satisfiable_restarts_from_zero_witness :
  let fs : FS := {[ sample.dest := "par" ]} in
  let w := sample.answer 416 "" in
  let res := worker.downloadOnce w fs sample.media sample.dest sample.source 0 in
  worker.req_range (worker.build_request fs sample.media sample.dest
                                         sample.source 0) = Some 3
  /\ worker.aw_do w (worker.build_request fs sample.media sample.dest
                                          sample.source 0)
     = inr (worker.mkResponse 416 "" None)
  /\ res.1.1 !! sample.dest = None
  /\ worker.isRetryableDownload res.2 = true
  /\ worker.req_range (worker.build_request res.1.1 sample.media sample.dest
                                            sample.source 0) = None.
Proof.
  intros fs w res.
  pose proof (range_not_satisfiable_restarts_from_zero w fs sample.media
                sample.dest sample.source 0 (worker.mkResponse 416 "" None)
                eq_refl eq_refl eq_refl) as (_ & Hgone & _ & Hretry & Hnext & _).
  split; [reflexivity|]. split; [reflexivity|].
  split; [exact Hgone|]. split; [exact Hretry|].
  exact (proj1 (Hnext w)).
Defined.



(** A 500 on the first attempt and a success on the second leave the file
    that a single successful fetch leaves. *)
Example fetch_500_then_ok :
  let res := worker.downloadToFile (sample.fetch_then_ok 500 "abc") ∅
                                   sample.media sample.dest sample.source 0 in
  let direct := worker.downloadToFile (sample.fetch_always 200 "abc") ∅
                                      sample.media sample.dest sample.source 0 in
  res.2 = None
  /\ List.map fst (trace.requests res.1.2) = [1; 2]
  /\ trace.backoffs res.1.2 = [1 * Second]
  /\ res.1.1 !! sample.dest = Some "abc"
  /\ direct.1.1 !! sample.dest = Some "abc"
  /\ List.map fst (trace.requests direct.1.2) = [1].
Proof. vm_compute. repeat split. Qed.

(** A 404 is final: one request, no timer. *)
Example fetch_404_is_final :
  let res := worker.downloadToFile (sample.fetch_then_ok 404 "abc") ∅
                                   sample.media sample.dest sample.source 0 in
  res.2 = Some (downloadError (errorString "download http status 404") false)
  /\ List.map fst (trace.requests res.1.2) = [1]
  /\ trace.backoffs res.1.2 = [].
Proof. vm_compute. repeat split. Qed.

(** A server that always answers 503 uses up the three attempts. *)
Example fetch_exhausts_budget :
  let fw := sample.fetch_always 503 "" in
  let res := worker.downloadToFile fw ∅ sample.media sample.dest sample.source 0 in
  res.2 = Some (downloadError (errorString "download http status 503") true)
  /\ List.map fst (trace.requests res.1.2) = [1; 2; 3]
  /\ trace.backoffs res.1.2 = [1 * Second; 2 * Second].
Proof. vm_compute. repeat split. Qed.

(** ** The rate limiter *)

Lemma rate_limit_fixed_window_witness :
  let rl := api.newLimiter 3 Minute in
  let t0 := 1000 * Second in
  let rest := [limiter.mkArrival "10.0.0.1" (t0 + Second) (t0 + Second);
               limiter.mkArrival "10.0.0.2" (t0 + 2 * Second) (t0 + 2 * Second);
               limiter.mkArrival "10.0.0.1" (t0 + 3 * Second) (t0 + 3 * Second);
               limiter.mkArrival "10.0.0.1" (t0 + 30 * Second) (t0 + 30 * Second + 5)] in
  let out := limiter.serve rl (limiter.mkArrival "10.0.0.1" t0 t0 :: rest) in
  limiter.answers_to "10.0.0.1" out.2
  = [(true, 0, 2); (true, 0, 1); (true, 0, 0); (false, 30 * Second - 5, 0)]
  /\ (api.allow out.1 "10.0.0.1" (t0 + Minute + 1) (t0 + Minute + 1)).2
     = (true, 0, 2).
Proof.
  intros rl t0 rest out.
  split; [vm_compute; reflexivity|].
  assert (Hrest : Forall (fun a => t0 <= limiter.arr_now a <= t0 + api.window rl
                                   /\ limiter.arr_now a <= limiter.arr_until a)
                         rest).
  { repeat constructor; vm_compute; discriminate. }
  exact (proj1 (proj2 (rate_limit_fixed_window rl "10.0.0.1" t0 t0 rest
                         ltac:(reflexivity) ltac:(reflexivity)
                         (or_introl eq_refl) Hrest))
               (t0 + Minute + 1) (t0 + Minute + 1) ltac:(vm_compute; reflexivity)).
Defined.

Example limiter_rejects_with_retry_after :
  let rl := (limiter.serve (api.newLimiter 1 Minute)
                           [limiter.mkArrival "k" 0 0]).1 in
  (api.rateLimitHandler rl "/jobs" "k" (20 * Second) (20 * Second + 400000000)).2
  = api.Rejected (Some 0) 40
  /\ (api.rateLimitHandler rl "/jobs/j1/events" "k" (20 * Second) (20 * Second)).2
     = api.Forwarded None.
Proof. vm_compute. repeat split. Qed.

(** ** The status stream *)



(** A task that is delivered a second time writes [downloading] again,
    with a later update time; a poll that reads the rewritten row sends a
    second downloading snapshot, so the stream writes four snapshots. *)
Example stream_rewritten_state_is_sent_again :
  let jq := sample.job "j1" "queued" None None 1 1 in
  let jd := sample.job "j1" "downloading" None None 1 10 in
  let jd' := sample.job "j1" "downloading" None None 1 20 in
  let jr := sample.job "j1" "ready" None (Some "jobs/j1.mp3") 1 30 in
  let out := api.streamJobEvents sample.parse sample.format sample.sign
               sample.cfg "j1" None [jq] true
               [api.PollTick None [jd]; api.PollTick None [jd'];
                api.PollTick None [jr]] in
  ~ stream.quiet "j1" jd (api.PollTick None [jd'])
  /\ List.map api.resp_Status (stream.snapshots out.1)
     = ["queued"; "downloading"; "downloading"; "ready"]
  /\ List.map api.resp_UpdatedAt (stream.snapshots out.1)
     = ["1"; "10"; "20"; "30"]
  /\ out.2 = true.
Proof.
  split; [|vm_compute; repeat split].
  intros [H|[err H]]; discriminate.
Qed.

(** ** The retention sweeper *)

Lemma cleanupJobs_does_not_return_witness :
  (forall page, api.sw_list_fault sample.healthy_sweep page = None)
  /\ (200 <= List.length (List.filter (store.created_before 1000) sample.table200))%nat
  /\ api.cleanupJobs sample.parse 1000 sample.healthy_sweep sample.cfg
                     sample.table200 ∅ 1000 = None.
Proof.
  assert (H1 : forall page, api.sw_list_fault sample.healthy_sweep page = None)
    by (intros page; reflexivity).
  assert (H2 : (200 <= List.length (List.filter (store.created_before 1000)
                                                sample.table200))%nat)
    by (apply Nat.leb_le; vm_compute; reflexivity).
  split; [exact H1|]. split; [exact H2|].
  exact (cleanupJobs_does_not_return sample.parse sample.healthy_sweep sample.cfg
           sample.table200 ∅ 1000 H1 H2 1000%nat).
Defined.

(** With 199 rows before the cutoff the sweep returns after one page. *)
Example cleanupJobs_199_rows :
  match api.cleanupJobs sample.parse 1 sample.healthy_sweep sample.cfg
                        sample.table200 ∅ 199 with
  | Some (st', _, (deletedJobs, deletedObjects, err)) =>
      st' = [sample.old_row 199] /\ deletedJobs = 199 /\ deletedObjects = 0
      /\ err = None
  | None => False
  end.
Proof. vm_compute. repeat split. Qed.

(** ** Round trips of the store *)

Lemma CreateJob_then_GetJob_witness :
  let s := [sample.job "j1" "queued" None None 1 1] in
  let j := sample.job "j2" "queued" None None 0 0 in
  store.GetJob None s "j2" = store.ErrNoRows
  /\ (store.CreateJob 7 None s j).1 = s ++ [sample.job "j2" "queued" None None 7 7]
  /\ store.GetJob None (store.CreateJob 7 None s j).1 "j2"
     = store.Found (sample.job "j2" "queued" None None 7 7).
Proof.
  intros s j.
  assert (H : store.GetJob None s (store.ID j) = store.ErrNoRows) by reflexivity.
  split; [exact H|]. split; [reflexivity|].
  exact (proj1 (proj2 (CreateJob_then_GetJob 7 s j H))).
Defined.

Lemma CreateJob_duplicate_id_witness :
  let row := sample.job "j1" "ready" None (Some "jobs/j1.mp3") 1 30 in
  let j := sample.job "j1" "queued" None None 0 0 in
  store.GetJob None [row] "j1" = store.Found row
  /\ (store.CreateJob 7 None [row] j).1 = [row].
Proof.
  intros row j.
  assert (H : store.GetJob None [row] (store.ID j) = store.Found row)
    by reflexivity.
  split; [exact H|].
  exact (proj1 (CreateJob_duplicate_id 7 [row] j row H)).
Defined.

Lemma UpdateJobStatus_then_GetJob_witness :
  let st := [sample.job "j1" "queued" None None 1 1;
             sample.job "j2" "queued" None None 2 2] in
  store.GetJob None st "j2" = store.Found (sample.job "j2" "queued" None None 2 2)
  /\ store.GetJob None
       (store.UpdateJobStatus 9 None st "j2" "failed" (Some "boom") None).1 "j2"
     = store.Found (sample.job "j2" "failed" (Some "boom") None 2 9).
Proof.
  intros st.
  assert (H : store.GetJob None st "j2"
              = store.Found (sample.job "j2" "queued" None None 2 2))
    by reflexivity.
  split; [exact H|].
  exact (proj1 (UpdateJobStatus_then_GetJob 9 st "j2" "failed" (Some "boom")
                  None _ H)).
Defined.

(** ** Outcomes of the worker *)

Lemma truncate_bounded_witness :
  len "exit status 1: no such file" = 27
  /\ worker.truncate "exit status 1: no such file" 11 = "exit status..."
  /\ worker.truncate "exit status 1: no such file" 27
     = "exit status 1: no such file".
Proof.
  pose proof (truncate_bounded "exit status 1: no such file" 11 eq_refl)
    as (_ & _ & Hcut & _).
  pose proof (truncate_bounded "exit status 1: no such file" 27 eq_refl)
    as (_ & Hfit & _).
  split; [reflexivity|].
  split; [exact (proj1 (Hcut eq_refl)) | apply Hfit; discriminate].
Defined.

Lemma recordFailure_bounded_message_witness :
  let st := [sample.job "j1" "downloading" None None 1 10] in
  store.GetJob None st "j1"
  = store.Found (sample.job "j1" "downloading" None None 1 10)
  /\ (worker.recordFailure 40 None st "j1"
        (Some (errorString "download http status 404"))).2 <> None.
Proof.
  intros st.
  assert (H : store.GetJob None st "j1"
              = store.Found (sample.job "j1" "downloading" None None 1 10))
    by reflexivity.
  split; [exact H|].
  exact (proj1 (recordFailure_bounded_message 40 None st "j1"
                  (errorString "download http status 404") _ H)).
Defined.

Lemma downloadWithParser_picks_media_witness :
  let parsed := worker.mkParserResult sample.media "" "douyin" in
  let fetch := worker.downloadToFile (sample.fetch_always 200 "mp4-bytes") ∅
                 sample.media "/work/j1/j1.mp4" sample.source
                 (config.JobTimeout sample.cfg) in
  worker.parseWithParser sample.parser_ok sample.cfg sample.source = inr parsed
  /\ worker.downloadWithParser sample.parser_ok
       (sample.fetch_always 200 "mp4-bytes") ∅ sample.cfg "/work/j1"
       sample.source "j1"
     = (fetch.1.1, inr "/work/j1/j1.mp4").
Proof.
  intros parsed fetch.
  assert (H : worker.parseWithParser sample.parser_ok sample.cfg sample.source
              = inr parsed) by reflexivity.
  split; [exact H|].
  exact (proj2 (downloadWithParser_picks_media sample.parser_ok
                  (sample.fetch_always 200 "mp4-bytes") ∅ sample.cfg
                  "/work/j1" sample.source "j1" parsed H)).
Defined.

Lemma processJob_success_is_ready_witness :
  let w := sample.job_world_with sample.parser_ok in
  let st := [sample.job "j1" "queued" None None 1 1] in
  (worker.processJob w sample.cfg st sample.payload).2 = None
  /\ store.GetJob None (worker.processJob w sample.cfg st sample.payload).1 "j1"
     = store.Found (sample.job "j1" "ready" None (Some "jobs/j1.mp3") 1 30).
Proof.
  intros w st.
  assert (H : (worker.processJob w sample.cfg st sample.payload).2 = None)
    by (vm_compute; reflexivity).
  split; [exact H|].
  exact (processJob_success_is_ready w sample.cfg st sample.payload
           (sample.job "j1" "queued" None None 1 1) H eq_refl).
Defined.

(** ** Files of the fetcher *)

Lemma resume_after_truncated_body_witness :
  let fw := sample.fetch_cut "mp4-" "bytes" in
  let res := worker.downloadToFile fw ∅ sample.media sample.dest
                                   sample.source 0 in
  res.2 = None
  /\ List.map fst (trace.requests res.1.2) = [1; 2]
  /\ res.1.1 !! sample.dest = Some "mp4-bytes".
Proof.
  intros fw res.
  pose proof (resume_after_truncated_body fw ∅ sample.media sample.dest
                sample.source 0 "mp4-" "bytes" (errorString "unexpected EOF")
                ltac:(discriminate) eq_refl ltac:(discriminate)
                eq_refl eq_refl eq_refl eq_refl eq_refl eq_refl eq_refl)
    as (Hok & Htrace & _ & _ & Hfile).
  split; [exact Hok|].
  split; [|exact Hfile].
  unfold res. rewrite Htrace. reflexivity.
Defined.

Lemma downloadToFile_touches_only_dest_witness :
  let fs : FS := {[ sample.dest := "par"; "/work/j2/j2.mp4" := "other" ]} in
  "/work/j2/j2.mp4" <> sample.dest
  /\ (worker.downloadToFile (sample.fetch_then_ok 416 "abc") fs sample.media
        sample.dest sample.source 0).1.1 !! "/work/j2/j2.mp4" = Some "other".
Proof.
  intros fs.
  assert (H : "/work/j2/j2.mp4" <> sample.dest) by discriminate.
  split; [exact H|].
  rewrite (downloadToFile_touches_only_dest (sample.fetch_then_ok 416 "abc") fs
             sample.media sample.dest sample.source 0 "/work/j2/j2.mp4" H).
  reflexivity.
Defined.

Lemma downloadToFile_success_leaves_file_witness :
  let res := worker.downloadToFile (sample.fetch_then_ok 503 "abc") ∅
               sample.media sample.dest sample.source 0 in
  res.2 = None /\ is_Some (res.1.1 !! sample.dest).
Proof.
  intros res.
  assert (H : res.2 = None) by (vm_compute; reflexivity).
  split; [exact H|].
  exact (proj1 (downloadToFile_success_leaves_file
                  (sample.fetch_then_ok 503 "abc") ∅ sample.media sample.dest
                  sample.source 0 H)).
Defined.

(** ** The signature of a resolver request *)

(** "Hi" under the key of the timestamp "17": H moves by 1, i by 7. *)
Lemma vigenereEncrypt_timestamp_key_witness :
  worker.timestampToKey [49; 55] = [98; 104]
  /\ worker.vigenereEncrypt sample.ascii_letter sample.ascii_upper
       sample.ascii_lower [72; 105] (worker.timestampToKey [49; 55]) !! 1%nat
     = Some 112.
Proof.
  split; [reflexivity|].
  destruct (vigenereEncrypt_timestamp_key sample.ascii_letter sample.ascii_upper
              sample.ascii_lower [72; 105] [49; 55]) with (i := 1%nat) (r := 105)
    as (d & Hd & _ & Henc & _).
  - intros r Hr. unfold sample.ascii_letter. lia.
  - intros r Hr. unfold sample.ascii_upper. lia.
  - intros r Hr. unfold sample.ascii_upper. lia.
  - intros r Hr. unfold sample.ascii_lower, sample.ascii_upper.
    assert ((65 <=? r) && (r <=? 90) = false) as -> by lia. reflexivity.
  - discriminate.
  - repeat constructor; lia.
  - repeat constructor; lia.
  - reflexivity.
  - injection Hd as <-. exact Henc.
Defined.

Lemma randomLetters_ok_witness :
  worker.randomLetters sample.draw 4 = Some (inr "hMrW")
  /\ worker.randomLetters
       (fun m => if (m =? 2)%nat then inl (errorString "EOF") else sample.draw m)
       4 = Some (inl (errorString "EOF")).
Proof.
  assert (H : forall m, (m < Z.to_nat 4)%nat ->
                        exists r, sample.draw m = inr r /\ 0 <= r < 52).
  { intros m _. eexists. split; [reflexivity|]. apply Z.mod_pos_bound. lia. }
  destruct (randomLetters_ok sample.draw 4 H) as [_ Herr].
  split; [reflexivity|].
  apply (Herr _ 2%nat); [vm_compute; lia | | reflexivity].
  intros m Hm. eexists. split.
  - destruct m as [|[|m]]; [reflexivity | reflexivity | lia].
  - apply Z.mod_pos_bound. lia.
Defined.

(** ** Creating and reading a job *)

Lemma create_then_get_witness :
  let row := sample.job "j1" "queued" None None 1 1 in
  api.createHandler sample.parse sample.extract sample.lower
                    sample.create_world [] []
  = ([row], [sample.payload],
     api.mkReply api.StatusAccepted (api.createJobResponse "j1" "queued"))
  /\ sample.extract ("  " +:+ sample.source) = Some sample.source
  /\ store.GetJob None [row] "j1" = store.Found row.
Proof.
  intros row.
  assert (H : api.createHandler sample.parse sample.extract sample.lower
                                sample.create_world [] []
              = ([row], [sample.payload],
                 api.mkReply api.StatusAccepted
                             (api.createJobResponse "j1" "queued")))
    by (vm_compute; reflexivity).
  split; [exact H|].
  destruct (create_then_get sample.parse sample.extract sample.lower
              sample.format sample.sign sample.create_world sample.cfg
              _ _ _ _ _ _ H)
    as (_ & _ & raw & src & plat & Hbody & _ & Hex & _ & Hst & _ & Hget & _).
  injection Hbody as <-. injection Hst as <- <-.
  split; [exact Hex | exact Hget].
Defined.

Lemma download_redirects_only_when_ready_witness :
  let row := sample.job "j1" "transcoding" None None 1 20 in
  api.download_id "j1/download" = "j1"
  /\ store.GetJob None [row] "j1" = store.Found row
  /\ api.downloadHandler sample.parse sample.sign_as None sample.cfg [row]
                         "GET" "j1/download"
     = api.DownloadError api.StatusConflict "job not ready".
Proof.
  intros row.
  assert (H : store.GetJob None [row] (api.download_id "j1/download")
              = store.Found row) by reflexivity.
  split; [reflexivity|]. split; [exact H|].
  apply (proj1 (download_redirects_only_when_ready sample.parse sample.sign_as
                  sample.cfg [row] "j1/download" row
                  ltac:(discriminate) eq_refl H)).
  discriminate.
Defined.

(** ** Authentication and the key of a client *)

Lemma authMiddleware_forwards_iff_witness :
  strings.TrimSpace "s3cret" <> ""
  /\ api.authMiddleware "s3cret" "/jobs" (sample.bearer "s3cret")
     = api.AuthForwarded
  /\ api.authMiddleware "s3cret" "/jobs" (sample.bearer "guess")
     <> api.AuthForwarded.
Proof.
  assert (H : strings.TrimSpace "s3cret" <> "") by discriminate.
  split; [exact H|].
  pose proof (authMiddleware_forwards_iff "s3cret" "/jobs"
                (sample.bearer "s3cret") H) as ([_ Hyes] & _).
  pose proof (authMiddleware_forwards_iff "s3cret" "/jobs"
                (sample.bearer "guess") H) as ([Hno _] & _).
  split.
  - apply Hyes. right. left. reflexivity.
  - intros Hf. destruct (Hno Hf) as [E|[E|[E|E]]]; discriminate.
Defined.

(** ** Counts of the limiter *)

Lemma limiter_counts_within_limit_witness :
  let arrs := [limiter.mkArrival "10.0.0.1" 0 0;
               limiter.mkArrival "10.0.0.1" 1 1;
               limiter.mkArrival "10.0.0.1" 2 2;
               limiter.mkArrival "10.0.0.2" 3 3] in
  let out := limiter.serve (api.newLimiter 2 Minute) arrs in
  List.map snd out.2 = [(true, 0, 1); (true, 0, 0); (false, Minute - 2, 0);
                        (true, 0, 1)]
  /\ forall k e, api.entries out.1 !! k = Some e -> 1 <= api.count e <= 2.
Proof.
  intros arrs out.
  split; [vm_compute; reflexivity|].
  exact (proj1 (limiter_counts_within_limit 2 Minute arrs eq_refl eq_refl)).
Defined.

Lemma allow_sweeps_expired_windows_witness :
  let rl := (limiter.serve (api.newLimiter 2 Minute)
                           [limiter.mkArrival "10.0.0.1" 0 0]).1 in
  let rl' := (api.allow rl "10.0.0.2" (2 * Minute) (2 * Minute)).1 in
  api.lastCleanup rl' = 2 * Minute
  /\ api.entries rl' !! "10.0.0.1" = None.
Proof.
  intros rl rl'.
  pose proof (allow_sweeps_expired_windows rl "10.0.0.2" (2 * Minute)
                (2 * Minute) eq_refl eq_refl) as (_ & Hsweep & _).
  destruct Hsweep as [Hlast _]; [vm_compute; discriminate|].
  split; [exact Hlast | vm_compute; reflexivity].
Defined.

(** ** The sweeper *)

Lemma cleanupJobs_outcome_witness :
  api.cleanupJobs sample.parse 2 sample.healthy_sweep sample.cfg
                  sample.swept_table sample.swept_bucket 10
  = Some ([sample.job "c" jobs.StatusReady None (Some "jobs/c.mp3") 50 60],
          {[ "jobs/c.mp3" ]}, (2, 1, None))
  /\ ({[ "jobs/c.mp3" ]} : gset string) ⊆ sample.swept_bucket.
Proof.
  assert (H : api.cleanupJobs sample.parse 2 sample.healthy_sweep sample.cfg
                              sample.swept_table sample.swept_bucket 10
              = Some ([sample.job "c" jobs.StatusReady None (Some "jobs/c.mp3")
                                  50 60],
                      {[ "jobs/c.mp3" ]}, (2, 1, None))).
  { vm_compute. reflexivity. }
  split; [exact H|].
  exact (proj1 (cleanupJobs_outcome sample.parse 2 sample.healthy_sweep
                  sample.cfg _ _ _ _ 10 _ _ _ H)).
Defined.

(** ** White space beyond ASCII *)

(** A token, a header and a link that consist of a Unicode space are
    blank: the token switches the authentication off, the header is passed
    over, and the video link is fetched. *)
Example blank_is_unicode_white_space :
  strings.TrimSpace sample.nbsp = ""
  /\ strings.TrimSpace (sample.ideographic_space +:+ " a b" +:+ sample.nbsp)
     = "a b"
  /\ api.authMiddleware sample.nbsp "/jobs" (api.mkCredentials "" "" None)
     = api.AuthForwarded
  /\ api.clientIP (fun _ => None)
                  (Some (api.mkPeer sample.nbsp " 10.0.0.9 " "[::1]:4000"))
     = "10.0.0.9"
  /\ (worker.downloadWithParser sample.parser_blank_audio
        (sample.fetch_always 200 "mp4-bytes") ∅ sample.cfg "/work/./j1/"
        sample.source "j1").2
     = inr "/work/j1/j1.mp4".
Proof. vm_compute. repeat split. Qed.
